(** * g2d: a directed-graph editor (src/main.py)

    A shallow embedding of the graph model (Node, Edge), of the
    double-click state machine of GraphView and of the JSON save/load
    codec, followed by the properties of the specification.

    Conventions of the embedding.
    - Python objects live in a heap: a Node or an Edge is referred to by
      its index in the list of allocated nodes, respectively edges, so
      that object identity ([is], and [==] on Qt items, which define no
      [__eq__]) is equality of indices.  Allocation appends.
    - Strings are [string]; [len] is [String.length].
    - Scene coordinates are integers ([Z]); the pointer position of an
      event is already an integer point ([toPoint()]).
    - Qt calls with no effect on the model ([update], [adjust],
      [setFlag], painting) are left out. *)

From stdpp Require Import base list gmap strings pretty.
From Stdlib Require Import ZArith.

Local Open Scope string_scope.
Local Open Scope list_scope.
Local Open Scope nat_scope.

(** ** Data model *)

Abbreviation node_id := nat (only parsing).
Abbreviation edge_id := nat (only parsing).

(** The [data] dictionary of a node: string keys, string values, in
    insertion order. *)
Abbreviation metadata := (list (string * string)) (only parsing).

(** [class Node]: the attributes set by [__init__], and the position
    [pos()] kept by QGraphicsItem. *)
Record Node := mkNode {
  _name : string;
  _data : metadata;
  _edges : list edge_id;
  _textcolor : string;
  _color : string;
  _radius : Z;
  pos : Z * Z
}.

(** [class Edge]: the two endpoints (the rendering attributes
    [_tickness], [_color], [_arrow_size] and the cached [_line] play no
    role in the model). *)
Record Edge := mkEdge {
  _source : node_id;
  _dest : node_id
}.

(** The allocated objects. *)
Record Heap := mkHeap {
  nodes : list Node;
  edges : list Edge
}.

(** [Node.__init__(name, textcolor, color, data)]: no edges, radius 30,
    position (0,0). *)
Definition Node_init (name textcolor color : string) (data : metadata) : Node :=
  {| _name := name; _data := data; _edges := []; _textcolor := textcolor;
     _color := color; _radius := 30; pos := (0, 0)%Z |}.

(** The defaults of the constructor: [textcolor="white"],
    [color="#5AD469"], [data={}]. *)
Definition Node_default (name : string) : Node :=
  Node_init name "white" "#5AD469" [].

#[global] Instance Node_inhabited : Inhabited Node := populate (Node_default "").
#[global] Instance Edge_inhabited : Inhabited Edge := populate (mkEdge 0 0).

(** Dereferencing: a reference held by a live object always points to
    an allocated object. *)
Definition node_at (h : Heap) (n : node_id) : Node := nodes h !!! n.
Definition edge_at (h : Heap) (e : edge_id) : Edge := edges h !!! e.

Definition source_of (h : Heap) (e : edge_id) : node_id := _source (edge_at h e).
Definition dest_of (h : Heap) (e : edge_id) : node_id := _dest (edge_at h e).

(** [[i._source._name, i._dest._name]] *)
Definition edge_pair (h : Heap) (i : edge_id) : string * string :=
  (_name (node_at h (source_of h i)), _name (node_at h (dest_of h i))).

(** ** Python membership

    [x in l] is [any(y is x or y == x for y in l)].  The lists of the
    program hold Edge objects or two-element lists of names; an Edge is
    never equal to a list. *)
Inductive pyobj :=
  | PyEdge (e : edge_id)
  | PyPair (p : string * string).

Definition py_eqb (a b : pyobj) : bool :=
  match a, b with
  | PyEdge i, PyEdge j => bool_decide (i = j)
  | PyPair p, PyPair q => bool_decide (p = q)
  | _, _ => false
  end.

Definition py_in (x : pyobj) (l : list pyobj) : bool := existsb (py_eqb x) l.

(** ** Node methods *)

Definition with_edges (n : Node) (l : list edge_id) : Node :=
  {| _name := _name n; _data := _data n; _edges := l;
     _textcolor := _textcolor n; _color := _color n;
     _radius := _radius n; pos := pos n |}.

Definition with_pos (n : Node) (p : Z * Z) : Node :=
  {| _name := _name n; _data := _data n; _edges := _edges n;
     _textcolor := _textcolor n; _color := _color n;
     _radius := _radius n; pos := p |}.

Definition set_node (h : Heap) (self : node_id) (n : Node) : Heap :=
  {| nodes := <[self := n]> (nodes h); edges := edges h |}.

(** [Node.get_edges]: the loop tests the Edge object [i] against the
    list of name pairs collected so far. *)
Definition get_edges (h : Heap) (self : node_id) : list (string * string) :=
  foldl (fun edges i =>
           if negb (py_in (PyEdge i) (PyPair <$> edges))
           then edges ++ [edge_pair h i]
           else edges)
        [] (_edges (node_at h self)).

(** [self._edges.append(edge)] *)
Definition append_edge (h : Heap) (self : node_id) (edge : edge_id) : Heap :=
  set_node h self (with_edges (node_at h self) (_edges (node_at h self) ++ [edge])).

(** [target in l] for a pair of names and a list of pairs. *)
Definition pair_in (target : string * string) (l : list (string * string)) : bool :=
  py_in (PyPair target) (PyPair <$> l).

(** [Node.add_edge] *)
Definition add_edge (h : Heap) (self : node_id) (edge : edge_id) : Heap :=
  let h1 := if bool_decide (length (_edges (node_at h self)) = 0)
            then append_edge h self edge else h in
  let target := edge_pair h1 edge in
  if negb (pair_in target (get_edges h1 self))
     && negb (pair_in target (get_edges h1 (dest_of h1 edge)))
  then append_edge h1 self edge
  else h1.

(** [list.remove(x)]: drops the first element equal to [x]. *)
Fixpoint list_remove (x : edge_id) (l : list edge_id) : list edge_id :=
  match l with
  | [] => []
  | y :: l' => if bool_decide (y = x) then l' else y :: list_remove x l'
  end.

(** The loop of [Node.del_edge]: a [for] over a list reads the element
    at the next index as long as the index is inside the list, here
    while the body removes elements from that same list.  [fuel] bounds
    the number of iterations; the length of the list is enough, since
    the index grows and the list does not. *)
Fixpoint del_edge_loop (same : edge_id -> bool) (fuel i : nat) (l : list edge_id)
  : list edge_id :=
  match fuel with
  | 0 => l
  | S fuel' =>
      match l !! i with
      | None => l
      | Some e =>
          if same e
          then del_edge_loop same fuel' (S i) (list_remove e l)
          else del_edge_loop same fuel' (S i) l
      end
  end.

(** [edge._source==e._source and edge._dest==e._dest] *)
Definition same_ends (h : Heap) (edge e : edge_id) : bool :=
  bool_decide (source_of h edge = source_of h e)
  && bool_decide (dest_of h edge = dest_of h e).

(** [Node.del_edge] *)
Definition del_edge (h : Heap) (self : node_id) (edge : edge_id) : Heap :=
  let l := _edges (node_at h self) in
  set_node h self
    (with_edges (node_at h self) (del_edge_loop (same_ends h edge) (length l) 0 l)).

(** [Node.setPosition]: the point less the radius on both axes. *)
Definition setPosition (n : Node) (p : Z * Z) : Node :=
  let x := (p.1 - _radius n)%Z in
  let y := (p.2 - _radius n)%Z in
  with_pos n (x, y).

(** [QGraphicsItem.setPos] *)
Definition setPos (n : Node) (x y : Z) : Node := with_pos n (x, y).

(** A new Node object. *)
Definition alloc_node (h : Heap) (n : Node) : Heap :=
  {| nodes := nodes h ++ [n]; edges := edges h |}.

(** ** Edge methods *)

(** [Edge.__init__]: the new object registers itself with the source,
    then with the destination.  Returns the heap and the new edge. *)
Definition alloc_edge (h : Heap) (source dest : node_id) : Heap :=
  {| nodes := nodes h; edges := edges h ++ [mkEdge source dest] |}.

Definition Edge_init (h : Heap) (source dest : node_id) : Heap * edge_id :=
  let self := length (edges h) in
  let h0 := alloc_edge h source dest in
  let h1 := add_edge h0 source self in
  let h2 := add_edge h1 dest self in
  (h2, self).

(** [Edge.delete] *)
Definition Edge_delete (h : Heap) (self : edge_id) : Heap :=
  let h1 := del_edge h (source_of h self) self in
  del_edge h1 (dest_of h1 self) self.

(** [Node.reload(data)]: [data] is a dictionary; the four keys are read
    one after the other and a missing key raises [KeyError] at that
    point, the earlier assignments having been made. *)
Record snapshot := mkSnapshot {
  snap_name : option string;
  snap_color : option string;
  snap_textcolor : option string;
  snap_data : option metadata
}.

Inductive exn :=
  | KeyError (key : string)
  | FileNotFoundError (path : string).

Inductive outcome :=
  | Returned
  | Raised (e : exn).

Definition with_name (n : Node) (s : string) : Node :=
  {| _name := s; _data := _data n; _edges := _edges n;
     _textcolor := _textcolor n; _color := _color n;
     _radius := _radius n; pos := pos n |}.

Definition with_color (n : Node) (s : string) : Node :=
  {| _name := _name n; _data := _data n; _edges := _edges n;
     _textcolor := _textcolor n; _color := s;
     _radius := _radius n; pos := pos n |}.

Definition with_textcolor (n : Node) (s : string) : Node :=
  {| _name := _name n; _data := _data n; _edges := _edges n;
     _textcolor := s; _color := _color n;
     _radius := _radius n; pos := pos n |}.

Definition with_data (n : Node) (d : metadata) : Node :=
  {| _name := _name n; _data := d; _edges := _edges n;
     _textcolor := _textcolor n; _color := _color n;
     _radius := _radius n; pos := pos n |}.

Definition reload (self : Node) (data : snapshot) : Node * outcome :=
  match snap_name data with
  | None => (self, Raised (KeyError "name"))
  | Some name =>
      let self := with_name self name in
      match snap_color data with
      | None => (self, Raised (KeyError "color"))
      | Some color =>
          let self := with_color self color in
          match snap_textcolor data with
          | None => (self, Raised (KeyError "textcolor"))
          | Some textcolor =>
              let self := with_textcolor self textcolor in
              match snap_data data with
              | None => (self, Raised (KeyError "data"))
              | Some d => (with_data self d, Returned)
              end
          end
      end
  end.

(** ** The view *)

(** What a scene holds. *)
Inductive item :=
  | INode (n : node_id)
  | IEdge (e : edge_id).

#[global] Instance item_eq_dec : EqDecision item.
Proof. solve_decision. Defined.

Definition is_Node (x : item) : bool :=
  match x with INode _ => true | IEdge _ => false end.

(** [class GraphView], together with the heap its objects live in.
    [_scene] lists the items of the scene in the order they were
    added. *)
Record GraphView := mkGraphView {
  heap : Heap;
  _status : string;
  _file : string;
  _selectedNode : option node_id;
  _scene : list item;
  _nodes_map : gmap string node_id
}.

(** [GraphView.__init__(fileName)] *)
Definition GraphView_init (fileName : string) : GraphView :=
  {| heap := mkHeap [] []; _status := ""; _file := fileName;
     _selectedNode := None; _scene := []; _nodes_map := ∅ |}.

(** [QGraphicsScene.items()]: the items in descending stacking order;
    among items of one Z value the one added last comes first. *)
Definition items (scene : list item) : list item := reverse scene.

Inductive button := LeftButton | RightButton | MiddleButton | OtherButton.

(** A double-click: the button, the item under the pointer
    ([itemAt(p)]) and the pointer position in scene coordinates
    ([mapToScene(p)]). *)
Record event := mkEvent {
  ev_button : button;
  ev_item : option item;
  ev_scenePos : Z * Z
}.

Definition showMessage (v : GraphView) (msg : string) : GraphView :=
  {| heap := heap v; _status := msg; _file := _file v;
     _selectedNode := _selectedNode v; _scene := _scene v;
     _nodes_map := _nodes_map v |}.

Definition set_selected (v : GraphView) (s : option node_id) : GraphView :=
  {| heap := heap v; _status := _status v; _file := _file v;
     _selectedNode := s; _scene := _scene v;
     _nodes_map := _nodes_map v |}.

Definition set_heap (v : GraphView) (h : Heap) : GraphView :=
  {| heap := h; _status := _status v; _file := _file v;
     _selectedNode := _selectedNode v; _scene := _scene v;
     _nodes_map := _nodes_map v |}.

Definition set_scene (v : GraphView) (s : list item) : GraphView :=
  {| heap := heap v; _status := _status v; _file := _file v;
     _selectedNode := _selectedNode v; _scene := s;
     _nodes_map := _nodes_map v |}.

Definition set_nodes_map (v : GraphView) (m : gmap string node_id) : GraphView :=
  {| heap := heap v; _status := _status v; _file := _file v;
     _selectedNode := _selectedNode v; _scene := _scene v;
     _nodes_map := m |}.

(** [scene.addItem(x)], [scene.removeItem(x)] *)
Definition addItem (v : GraphView) (x : item) : GraphView :=
  set_scene v (_scene v ++ [x]).

Definition removeItem (v : GraphView) (x : item) : GraphView :=
  set_scene v (filter (λ y, y ≠ x) (_scene v)).

(** The two branches of the handler that add an edge: construct it,
    put it in the scene, clear the selection, report. *)
Definition click_add_edge (v : GraphView) (selected target : node_id) : GraphView :=
  let '(h, edg) := Edge_init (heap v) selected target in
  let v := set_heap v h in
  let v := addItem v (IEdge edg) in
  let v := set_selected v None in
  showMessage v (_name (node_at h (source_of h edg)) +:+ "->" +:+
                 _name (node_at h (dest_of h edg)) +:+ " added.").

(** The branch that deletes: the first edge of the compare list. *)
Definition click_del_edge (v : GraphView) (edg : edge_id) : GraphView :=
  let h := Edge_delete (heap v) edg in
  let v := set_heap v h in
  let v := removeItem v (IEdge edg) in
  let v := set_selected v None in
  showMessage v (_name (node_at h (source_of h edg)) +:+ "->" +:+
                 _name (node_at h (dest_of h edg)) +:+ " deleted.").

(** The left-button branch on empty space: a new node named after the
    number of nodes in the scene. *)
Definition click_add_node (v : GraphView) (p : Z * Z) : GraphView :=
  let v := set_selected v None in
  let nodes_count := length (filter (λ x, is_Node x = true) (items (_scene v))) in
  let n := Node_default (pretty (nodes_count + 1)) in
  let n := setPosition n p in
  let self := length (nodes (heap v)) in
  let v := set_heap v (alloc_node (heap v) n) in
  let v := addItem v (INode self) in
  showMessage v ("Added Node: " +:+ _name n).

(** [GraphView.mouseDoubleClickEvent] *)
Definition mouseDoubleClickEvent (v : GraphView) (ev : event) : GraphView :=
  match ev_button ev with
  | LeftButton =>
      match ev_item ev with
      | Some it =>
          match _selectedNode v, it with
          | None, INode n =>
              let v := set_selected v (Some n) in
              showMessage v ("Selected Node: " +:+ _name (node_at (heap v) n))
          | Some sel, INode n =>
              if bool_decide (sel ≠ n) then
                let h := heap v in
                let edg := filter (λ i, i ∈ _edges (node_at h n))
                                  (_edges (node_at h sel)) in
                match edg with
                | [] => click_add_edge v sel n
                | e0 :: _ =>
                    if negb (pair_in (_name (node_at h sel), _name (node_at h n))
                                     (edge_pair h <$> edg))
                    then click_add_edge v sel n
                    else click_del_edge v e0
                end
              else v
          | _, IEdge _ => v
          end
      | None => click_add_node v (ev_scenePos ev)
      end
  | RightButton => v
  | MiddleButton =>
      match ev_item ev with
      | Some (INode n) =>
          if bool_decide (_selectedNode v = Some n)
          then showMessage (set_selected v None) "Selected Node: None"
          else v
      | _ => v
      end
  | OtherButton => v
  end.

(** ** The document format and the codec *)

(** One node object of the JSON document: the dictionary built by
    [Node.get] and read back by [load_graph]. *)
Record node_record := mkRecord {
  rec_name : string;
  rec_edges : list (string * string);
  rec_color : string;
  rec_textcolor : string;
  rec_pos : Z * Z;
  rec_data : metadata
}.

Abbreviation document := (list node_record) (only parsing).

(** The files: a path holds a document or does not exist. *)
Abbreviation filesystem := (gmap string (list node_record)) (only parsing).

(** [Node.get]: [scenePos()] of an item without parent is its [pos()]. *)
Definition Node_get (h : Heap) (self : node_id) : node_record :=
  {| rec_name := _name (node_at h self);
     rec_edges := get_edges h self;
     rec_color := _color (node_at h self);
     rec_textcolor := _textcolor (node_at h self);
     rec_pos := pos (node_at h self);
     rec_data := _data (node_at h self) |}.

(** [GraphView.save_graph] *)
Definition save_graph (v : GraphView) : list node_record :=
  foldl (fun savegraph x =>
           match x with
           | INode n => savegraph ++ [Node_get (heap v) n]
           | IEdge _ => savegraph
           end)
        [] (items (_scene v)).

(** The inner loop of [load_graph]: [if e not in edge_map: append]. *)
Definition collect_edges (edge_map : list (string * string))
    (es : list (string * string)) : list (string * string) :=
  foldl (fun edge_map e =>
           if negb (pair_in e edge_map) then edge_map ++ [e] else edge_map)
        edge_map es.

(** The body of the first loop of [load_graph] for one node object. *)
Definition load_node (st : GraphView * list (string * string)) (node : node_record)
  : GraphView * list (string * string) :=
  let '(v, edge_map) := st in
  let edge_map := collect_edges edge_map (rec_edges node) in
  let n := Node_init (rec_name node) (rec_textcolor node) (rec_color node)
                     (rec_data node) in
  let n := setPos n (rec_pos node).1 (rec_pos node).2 in
  let self := length (nodes (heap v)) in
  let v := set_heap v (alloc_node (heap v) n) in
  let v := set_nodes_map v (<[_name n := self]> (_nodes_map v)) in
  let v := addItem v (INode self) in
  (v, edge_map).

(** The second loop of [load_graph]: a name that is not a key of
    [_nodes_map] raises [KeyError] and ends the loop there. *)
Fixpoint load_edges (v : GraphView) (edge_map : list (string * string))
  : GraphView * outcome :=
  match edge_map with
  | [] => (v, Returned)
  | (s, d) :: rest =>
      match _nodes_map v !! s with
      | None => (v, Raised (KeyError s))
      | Some source =>
          match _nodes_map v !! d with
          | None => (v, Raised (KeyError d))
          | Some dest =>
              let '(h, e) := Edge_init (heap v) source dest in
              let v := addItem (set_heap v h) (IEdge e) in
              load_edges v rest
          end
      end
  end.

(** [GraphView.load_graph], reading [_file] from the files [fs]. *)
Definition load_graph (fs : gmap string (list node_record)) (v : GraphView)
  : GraphView * outcome :=
  if bool_decide (String.length (_file v) ≤ 3)%nat then
    (showMessage v ("File " +:+ _file v +:+ " is corrupted."), Returned)
  else
    let edge_map := [] in
    let v := set_scene v [] in
    let v := set_nodes_map v ∅ in
    match fs !! _file v with
    | None => (v, Raised (FileNotFoundError (_file v)))
    | Some dumpdata =>
        let '(v, edge_map) := foldl load_node (v, edge_map) dumpdata in
        match load_edges v edge_map with
        | (v, Returned) =>
            (showMessage v ("File " +:+ _file v +:+ " opened."), Returned)
        | (v, Raised e) => (v, Raised e)
        end
    end.

(** ** The window: saving and loading under a path *)

Definition set_file (v : GraphView) (f : string) : GraphView :=
  {| heap := heap v; _status := _status v; _file := f;
     _selectedNode := _selectedNode v; _scene := _scene v;
     _nodes_map := _nodes_map v |}.

(** [MainWindow.quickSave]: the status bar of the window is the one of
    the view. *)
Definition quickSave (fs : gmap string (list node_record)) (v : GraphView)
  : gmap string (list node_record) * GraphView :=
  if bool_decide (3 ≤ String.length (_file v))%nat then
    (<[_file v := save_graph v]> fs,
     showMessage v ("File " +:+ _file v +:+ " quicksaved."))
  else (fs, v).

(** [MainWindow.save], [fileName] being what the file dialog returned. *)
Definition save (fileName : string) (fs : gmap string (list node_record))
    (v : GraphView) : gmap string (list node_record) * GraphView :=
  if bool_decide (3 ≤ String.length fileName)%nat then
    (<[fileName := save_graph v]> fs,
     showMessage v ("File " +:+ fileName +:+ " saved."))
  else (fs, v).

(** [MainWindow.load], [fileName] being what the file dialog returned. *)
Definition load (fileName : string) (fs : gmap string (list node_record))
    (v : GraphView) : GraphView * outcome :=
  if bool_decide (fileName ≠ "") then load_graph fs (set_file v fileName)
  else (v, Returned).

(** [MainWindow.currentLoad] *)
Definition currentLoad (fs : gmap string (list node_record)) (v : GraphView)
  : GraphView * outcome :=
  match load_graph fs v with
  | (v, Returned) =>
      (showMessage v ("File " +:+ _file v +:+ " quickloaded."), Returned)
  | r => r
  end.

(** ** Running the model on small inputs *)

Definition left (it : option item) (p : Z * Z) : event := mkEvent LeftButton it p.

Definition run (v : GraphView) (evs : list event) : GraphView :=
  foldl mouseDoubleClickEvent v evs.

Definition edges_of (v : GraphView) (n : node_id) : list edge_id :=
  _edges (node_at (heap v) n).

Definition item_edge (x : item) : option edge_id :=
  match x with IEdge e => Some e | INode _ => None end.

Definition item_node (x : item) : option node_id :=
  match x with INode n => Some n | IEdge _ => None end.

Definition scene_edges (v : GraphView) : list edge_id := omap item_edge (_scene v).

Definition scene_nodes (v : GraphView) : list node_id := omap item_node (_scene v).

(** The metadata editor writing a snapshot back into a node of the
    view ([TableNode.change_celldata] ends in [self.node.reload]). *)
Definition reload_node (v : GraphView) (n : node_id) (data : snapshot) : GraphView :=
  set_heap v (set_node (heap v) n (reload (node_at (heap v) n) data).1).


(** ** Notions used in the statements *)

(** The edge list of a node of the heap. *)
Definition edges_in (h : Heap) (n : node_id) : list edge_id := _edges (node_at h n).

(** A node without its edge list: what the structural operations leave
    alone. *)
Definition strip (n : Node) : Node := with_edges n [].

(** When [add_edge] appends: the node has no edge yet, or the name pair
    of the edge is in neither list of pairs. *)
Definition registers (h : Heap) (self : node_id) (e : edge_id) : Prop :=
  edges_in h self = []
  ∨ ((edge_pair h e ∉ get_edges h self)
     ∧ (edge_pair h e ∉ get_edges h (dest_of h e))).

(** The item under the pointer is an item of the scene. *)
Definition hit (v : GraphView) (ev : event) : Prop :=
  ∀ x, ev_item ev = Some x → x ∈ _scene v.

(** The states of the editor: a fresh view, then double-clicks. *)
Inductive reachable : GraphView → Prop :=
  | reachable_init fileName : reachable (GraphView_init fileName)
  | reachable_click v ev :
      reachable v → hit v ev → reachable (mouseDoubleClickEvent v ev).

(** A live edge is an edge of the scene. *)
Definition live (v : GraphView) (e : edge_id) : Prop := IEdge e ∈ _scene v.

(** What holds of the view between two double-clicks. *)
Record consistent (v : GraphView) : Prop := {
  (* every node ever made is in the scene, in the order of creation *)
  cons_nodes : scene_nodes v = seq 0 (length (nodes (heap v)));
  (* and is named after its rank *)
  cons_names : ∀ i, i < length (nodes (heap v)) →
                 _name (node_at (heap v) i) = pretty (i + 1);
  (* a live edge joins two nodes and is in the list of both *)
  cons_edge : ∀ e, live v e →
                e < length (edges (heap v))
                ∧ source_of (heap v) e < length (nodes (heap v))
                ∧ dest_of (heap v) e < length (nodes (heap v))
                ∧ e ∈ edges_in (heap v) (source_of (heap v) e)
                ∧ e ∈ edges_in (heap v) (dest_of (heap v) e);
  (* the list of a node holds live edges that touch the node *)
  cons_list : ∀ i e, e ∈ edges_in (heap v) i →
                live v e ∧ (source_of (heap v) e = i ∨ dest_of (heap v) e = i);
  cons_nodup : ∀ i, NoDup (edges_in (heap v) i);
  (* one live edge at most from a node to another *)
  cons_unique : ∀ e1 e2, live v e1 → live v e2 →
                  source_of (heap v) e1 = source_of (heap v) e2 →
                  dest_of (heap v) e1 = dest_of (heap v) e2 → e1 = e2;
  cons_selected : ∀ a, _selectedNode v = Some a → a < length (nodes (heap v))
}.

(** Selecting node [a], then double-clicking node [b]: one toggle of
    the edge from [a] to [b]. *)
Definition select_then_click (a b : node_id) (v : GraphView) : GraphView :=
  mouseDoubleClickEvent
    (mouseDoubleClickEvent v (left (Some (INode a)) (0, 0)%Z))
    (left (Some (INode b)) (0, 0)%Z).

(** The live edges between two nodes, in either direction. *)
Definition links (v : GraphView) (a b : node_id) : list edge_id :=
  filter (λ e, (source_of (heap v) e = a ∧ dest_of (heap v) e = b)
               ∨ (source_of (heap v) e = b ∧ dest_of (heap v) e = a))
         (scene_edges v).

(** Two double-clicks on empty space: the nodes "1" and "2". *)
Definition two_nodes : GraphView :=
  run (GraphView_init "") [left None (100, 100)%Z; left None (200, 100)%Z].

(** Then the edge 1->2, then the edge 2->1. *)
Definition both_directions : GraphView :=
  select_then_click 1 0 (select_then_click 0 1 two_nodes).

(** Three nodes, and the edges 1->2 and 1->3. *)
Definition fan : GraphView :=
  select_then_click 0 2 (select_then_click 0 1
    (run (GraphView_init "")
         [left None (100, 100)%Z; left None (200, 100)%Z; left None (300, 100)%Z])).

(** Then the metadata editor renames node "3" to "2". *)
Definition fan_renamed : GraphView :=
  reload_node fan 2 (mkSnapshot (Some "2") (Some "#5AD469") (Some "white") (Some [])).

(** ** Notions used for the import *)

(** The Node object made from one node object of the document. *)
Definition node_of_record (r : node_record) : Node :=
  setPos (Node_init (rec_name r) (rec_textcolor r) (rec_color r) (rec_data r))
         (rec_pos r).1 (rec_pos r).2.

(** The dictionary [_nodes_map] after the node objects [doc] were
    entered, the first of them being node number [base]. *)
Fixpoint build_index (m : gmap string node_id) (base : nat) (doc : list node_record)
  : gmap string node_id :=
  match doc with
  | [] => m
  | r :: doc' => build_index (<[rec_name r := base]> m) (S base) doc'
  end.

(** All the edge pairs of a document, record after record. *)
Definition all_pairs (doc : list node_record) : list (string * string) :=
  concat (rec_edges <$> doc).

(** Following the words of the specification: the pairs in first-seen
    order, a pair already collected being skipped. *)
Fixpoint dedup_first_seen (seen l : list (string * string)) : list (string * string) :=
  match l with
  | [] => []
  | p :: l' =>
      if bool_decide (p ∈ seen) then dedup_first_seen seen l'
      else p :: dedup_first_seen (seen ++ [p]) l'
  end.

(** The node names of a document. *)
Definition doc_names (doc : list node_record) : list string := rec_name <$> doc.

(** The Edge object made for a collected pair, through the name index. *)
Definition edge_of (m : gmap string node_id) (p : string * string) : Edge :=
  mkEdge (default 0 (m !! p.1)) (default 0 (m !! p.2)).

(** The index binds names to nodes of the import, each under its own
    name; [base] is the first node of the import. *)
Definition index_ok (base : nat) (w1 : GraphView) : Prop :=
  ∀ k i, _nodes_map w1 !! k = Some i →
    base ≤ i < length (nodes (heap w1)) ∧ _name (node_at (heap w1) i) = k.

(** The view [w] in the second loop of [load_graph], the pairs [done]
    having been turned into edges since the state [w1] at the end of
    the first loop. *)
Record loading (base : nat) (w1 : GraphView) (done : list (string * string))
    (w : GraphView) : Prop := {
  ld_strip : strip <$> nodes (heap w) = strip <$> nodes (heap w1);
  ld_map : _nodes_map w = _nodes_map w1;
  ld_edges : edges (heap w)
             = edges (heap w1) ++ (edge_of (_nodes_map w1) <$> done);
  ld_scene : _scene w
             = _scene w1 ++ (IEdge <$> seq (length (edges (heap w1))) (length done));
  ld_lists : ∀ i, base ≤ i < length (nodes (heap w1)) →
               edges_in (heap w) i
               = filter (λ e, source_of (heap w) e = i ∨ dest_of (heap w) e = i)
                        (seq (length (edges (heap w1))) (length done));
  ld_resolved : ∀ p, p ∈ done →
                  is_Some (_nodes_map w1 !! p.1) ∧ is_Some (_nodes_map w1 !! p.2);
  ld_rest : _file w = _file w1 ∧ _selectedNode w = _selectedNode w1
}.

(** The state and the collected pairs at the end of the first loop of
    [load_graph] on the document [doc]. *)
Definition load_start (v : GraphView) (doc : list node_record)
  : GraphView * list (string * string) :=
  foldl load_node (set_nodes_map (set_scene v []) ∅, []) doc.

(** Scenario D: two node objects that both list the pair ["1","2"]. *)
Definition scenario_D_doc : list node_record :=
  [ mkRecord "1" [("1", "2")] "#5AD469" "white" (70, 70)%Z [];
    mkRecord "2" [("1", "2")] "#5AD469" "white" (170, 70)%Z [] ].

(** Scenario E: a pair names the node "3", which the document lacks. *)
Definition scenario_E_doc : list node_record :=
  [ mkRecord "1" [("1", "3")] "#5AD469" "white" (70, 70)%Z [] ].

(** A document stored under the path "g.json". *)
Definition stored (doc : list node_record) : gmap string (list node_record) :=
  {["g.json" := doc]}.

(** A view with a graph in it (the nodes "1" and "2" and the edge
    1->2) and the path "g.json". *)
Definition prior_graph : GraphView :=
  set_file (select_then_click 0 1 two_nodes) "g.json".

(** A document with the nodes "3" and "1" and the edge 3->1. *)
Definition doc_3_1 : list node_record :=
  [ mkRecord "3" [("3", "1")] "#5AD469" "white" (70, 70)%Z [];
    mkRecord "1" [("3", "1")] "#5AD469" "white" (170, 70)%Z [] ].

(** That document loaded into a fresh view, then a double-click on
    empty space (the new node is named "3" again), then that node
    selected and the node "1" double-clicked. *)
Definition import_then_click : GraphView :=
  select_then_click 2 1
    (mouseDoubleClickEvent (load_graph (stored doc_3_1) (GraphView_init "g.json")).1
                           (left None (300, 100)%Z)).

(** The same toggle once more. *)
Definition import_then_click_twice : GraphView :=
  select_then_click 2 1 import_then_click.

(** Every live edge is in the list of its source and in the list of
    its destination. *)
Definition adjacency_symmetric (v : GraphView) : Prop :=
  ∀ e, live v e →
    e ∈ edges_in (heap v) (source_of (heap v) e)
    ∧ e ∈ edges_in (heap v) (dest_of (heap v) e).

(** The edges listed by the nodes of the scene join nodes of the
    scene. *)
Definition closed (v : GraphView) : Prop :=
  ∀ n e, INode n ∈ _scene v → e ∈ edges_in (heap v) n →
    INode (source_of (heap v) e) ∈ _scene v
    ∧ INode (dest_of (heap v) e) ∈ _scene v.

(** A node object of a document without its edge pairs: name, colors,
    position and data. *)
Definition record_frame (r : node_record)
  : string * string * string * (Z * Z) * list (string * string) :=
  (rec_name r, rec_color r, rec_textcolor r, rec_pos r, rec_data r).

(** ** Further notions *)

(** No edge twice in the list of a node, and no two edges of the list
    with the same source and the same destination. *)
Definition list_ok (h : Heap) (n : node_id) : Prop :=
  NoDup (edges_in h n)
  ∧ ∀ a b, a ∈ edges_in h n → b ∈ edges_in h n →
      same_ends h a b = true → a = b.

(** A heap where the list of node 0 does hold two edges with the same
    endpoints. *)
Definition twin_edges : Heap :=
  {| nodes := [with_edges (Node_default "1") [0; 1]; with_edges (Node_default "2") [0; 1]];
     edges := [mkEdge 0 1; mkEdge 0 1] |}.

(** ** The metadata editor (class TableNode) *)

(** A Python dictionary with string keys and string values, as the
    list of its items in insertion order: [d[k] = v] replaces the value
    of a key that is present, where it stands, and adds a new key at
    the end; [d.update(e)] does so for every item of [e] in turn. *)
Fixpoint dict_set (k v : string) (d : metadata) : metadata :=
  match d with
  | [] => [(k, v)]
  | (k', v') :: d' =>
      if bool_decide (k' = k) then (k, v) :: d' else (k', v') :: dict_set k v d'
  end.

Fixpoint dict_get (k : string) (d : metadata) : option string :=
  match d with
  | [] => None
  | (k', v) :: d' => if bool_decide (k' = k) then Some v else dict_get k d'
  end.

Definition dict_update (d e : metadata) : metadata :=
  foldl (λ d kv, dict_set kv.1 kv.2 d) d e.

(** A [QTableWidgetItem]: its text, and whether the flag
    [ItemIsEditable] is set (it is by default). *)
Record QTableWidgetItem := mkItem {
  text : string;
  editable : bool
}.

(** A [QTableWidget] of two columns: its rows, a cell being [None]
    where no item was set. *)
Abbreviation QTableWidget :=
  (list (option QTableWidgetItem * option QTableWidgetItem)) (only parsing).

Definition table_item (t : QTableWidget) (i j : nat) : option QTableWidgetItem :=
  match t !! i with
  | Some r => if bool_decide (j = 0) then r.1
              else if bool_decide (j = 1) then r.2 else None
  | None => None
  end.

(** [setItem]: a position outside the table is ignored. *)
Definition setItem (t : QTableWidget) (i j : nat) (x : QTableWidgetItem)
  : QTableWidget :=
  alter (λ r, if bool_decide (j = 0) then (Some x, r.2)
              else if bool_decide (j = 1) then (r.1, Some x) else r) i t.

(** [self._nodeData]: a dictionary that holds a dictionary under the
    key "data" and strings under the other keys. *)
Record NodeData := mkNodeData {
  nd_top : metadata;
  nd_data : metadata
}.

Record TableNode := mkTableNode {
  node : node_id;
  windowTitle : string;
  table : QTableWidget;
  _nodeData : NodeData
}.

(** [TableNode.init_table] *)
Definition init_table (t : QTableWidget) (nodeData : metadata) : QTableWidget :=
  foldl (λ t ikv,
           let '(i, (k, v)) := ikv in
           let item := if bool_decide (i ≤ 2) then mkItem k false else mkItem k true in
           let t := setItem t i 0 item in
           let t := setItem t i 1 (mkItem v true) in
           let t := setItem t (i + 1) 0 (mkItem "" true) in
           setItem t (i + 1) 1 (mkItem "" true))
        t (zip (seq 0 (length nodeData)) nodeData).

(** [TableNode.__init__(node)] *)
Definition TableNode_init (h : Heap) (n : node_id) : TableNode :=
  let table : QTableWidget := [] in
  let nodeData := [("name", _name (node_at h n));
                   ("color", _color (node_at h n));
                   ("textcolor", _textcolor (node_at h n))] in
  let nodeData := dict_update nodeData (_data (node_at h n)) in
  let table :=
    if bool_decide (length table = 0)
    then init_table (replicate (length nodeData + 1) (None, None)) nodeData
    else table in
  {| node := n; windowTitle := _name (node_at h n); table := table;
     _nodeData := mkNodeData [] [] |}.

(** [TableNode.append_row(item)], [row] being [item.row()]. *)
Definition append_row (tn : TableNode) (row : nat) : TableNode :=
  let rows := length (table tn) in
  if bool_decide (row + 1 = rows) then
    let t := table tn ++ [(None, None)] in
    let t := setItem t rows 0 (mkItem "" true) in
    let t := setItem t rows 1 (mkItem "" true) in
    {| node := node tn; windowTitle := windowTitle tn; table := t;
       _nodeData := _nodeData tn |}
  else tn.

(** How a run of [change_celldata] ends: [reload] was called, with its
    outcome; or [self.table.item(0,1)] was [None] and [.text()] raised
    AttributeError; or a key cell of the first three rows read "data"
    and [_nodeData["data"]] was bound to a string, with which the run
    leaves what [Node] and [NodeData] describe. *)
Inductive editor_outcome :=
  | Reloaded (o : outcome)
  | RaisedAttributeError
  | DataRebound.

(** The body of the loop of [change_celldata] for the row [i]. *)
Definition celldata_row (t : QTableWidget) (i : nat) (st : string * NodeData)
  : string * NodeData * option editor_outcome :=
  let '(title, nd) := st in
  match (if bool_decide (i = 1) then text <$> table_item t 0 1 else Some title) with
  | None => (title, nd, Some RaisedAttributeError)
  | Some title =>
      match table_item t i 0, table_item t i 1 with
      | Some k, Some v =>
          if bool_decide (i ≤ 2) then
            if bool_decide (text k = "data") then (title, nd, Some DataRebound)
            else (title, mkNodeData (dict_set (text k) (text v) (nd_top nd)) (nd_data nd),
                  None)
          else if bool_decide (text k ≠ "") then
            (title, mkNodeData (nd_top nd) (dict_set (text k) (text v) (nd_data nd)),
             None)
          else (title, nd, None)
      | _, _ => (title, nd, None)
      end
  end.

Fixpoint celldata_loop (t : QTableWidget) (rows : list nat) (st : string * NodeData)
  : string * NodeData * option editor_outcome :=
  match rows with
  | [] => (st, None)
  | i :: rows' =>
      match celldata_row t i st with
      | (title, nd, None) => celldata_loop t rows' (title, nd)
      | r => r
      end
  end.

(** [TableNode.change_celldata].  Once [reload] has returned, [_data]
    of the node is the very dictionary [_nodeData["data"]] the loop
    writes to; no run ends between such a write and the call of
    [reload] (what can raise is in the rows 0 to 2, and [reload] finds
    its keys from then on), so the data of the node are written here
    where [reload] is called. *)
Definition change_celldata (h : Heap) (tn : TableNode)
  : Heap * TableNode * editor_outcome :=
  let rows := length (table tn) in
  let '(title, nd, stop) :=
    celldata_loop (table tn) (seq 0 rows) (windowTitle tn, _nodeData tn) in
  let tn' := {| node := node tn; windowTitle := title; table := table tn;
                _nodeData := nd |} in
  match stop with
  | Some o => (h, tn', o)
  | None =>
      let data := mkSnapshot (dict_get "name" (nd_top nd))
                             (dict_get "color" (nd_top nd))
                             (dict_get "textcolor" (nd_top nd))
                             (Some (nd_data nd)) in
      let '(n', o) := reload (node_at h (node tn)) data in
      (set_node h (node tn) n', tn', Reloaded o)
  end.

(** The user types [s] into the cell at row [i], column [j]: the view
    lets an item be edited when its flag [ItemIsEditable] is set, and
    sets its text; [None] when there is no such item or it may not be
    edited.  The signal [itemChanged] then runs [change_celldata] on
    the new table. *)
Definition typed (tn : TableNode) (i j : nat) (s : string) : option TableNode :=
  match table_item (table tn) i j with
  | Some x =>
      if editable x then
        Some {| node := node tn; windowTitle := windowTitle tn;
                table := setItem (table tn) i j (mkItem s (editable x));
                _nodeData := _nodeData tn |}
      else None
  | None => None
  end.

(** *** Notions used in the statements about the editor *)

(** The first three rows the editor shows: the keys "name", "color"
    and "textcolor", not editable, beside their values. *)
Definition head_rows (name color textcolor : QTableWidgetItem) : QTableWidget :=
  [ (Some (mkItem "name" false), Some name);
    (Some (mkItem "color" false), Some color);
    (Some (mkItem "textcolor" false), Some textcolor) ].

Definition data_row (kv : string * string)
  : option QTableWidgetItem * option QTableWidgetItem :=
  (Some (mkItem kv.1 true), Some (mkItem kv.2 true)).

Definition empty_row : option QTableWidgetItem * option QTableWidgetItem :=
  (Some (mkItem "" true), Some (mkItem "" true)).

(** What the rows after the third contribute to a dictionary: the rows
    with both cells set and a key that is not empty, in order. *)
Definition data_rows (rest : QTableWidget) (d : metadata) : metadata :=
  foldl (λ d r,
           match r with
           | (Some k, Some v) =>
               if bool_decide (text k ≠ "") then dict_set (text k) (text v) d else d
           | _ => d
           end)
        d rest.

(** A table that starts with the three head rows. *)
Definition editor_table (t : QTableWidget) : Prop :=
  ∃ name color textcolor rest, t = head_rows name color textcolor ++ rest.

(** The keys the editor shows in the head rows. *)
Definition reserved (k : string) : Prop :=
  k = "name" ∨ k = "color" ∨ k = "textcolor".


(** A node with a key named "name" among its data, for the examples. *)
Definition node_with_data : Heap :=
  {| nodes := [Node_init "n1" "white" "green"
                 [("k1", "v1"); ("name", "other"); ("k2", "v2")];
               Node_init "n2" "white" "green" [("k1", "v1"); ("k2", "v2")]];
     edges := [] |}.

(** The row [init_table] writes for the item number [i] of the
    dictionary: the key may not be edited in the first three rows. *)
Definition table_row (i : nat) (kv : string * string)
  : option QTableWidgetItem * option QTableWidgetItem :=
  (Some (if bool_decide (i ≤ 2) then mkItem kv.1 false else mkItem kv.1 true),
   Some (mkItem kv.2 true)).

#[global] Instance reserved_dec k : Decision (reserved k).
Proof. unfold reserved. apply _. Defined.

(** A row that [change_celldata] passes over when it stands after the
    third: a cell is not set, or the key is empty. *)
Definition blank_row (r : option QTableWidgetItem * option QTableWidgetItem) : Prop :=
  match r with
  | (Some k, Some v) => text k = ""
  | _ => True
  end.

Definition set_table (tn : TableNode)
    (t : list (option QTableWidgetItem * option QTableWidgetItem)) : TableNode :=
  {| node := node tn; windowTitle := windowTitle tn; table := t;
     _nodeData := _nodeData tn |}.
(** * Properties *)

(** ** Membership tests *)

Lemma py_in_edge_pairs i (l : list (string * string)) :
  py_in (PyEdge i) (PyPair <$> l) = false.
Proof. induction l; simpl; auto. Qed.

Lemma pair_in_true target (l : list (string * string)) :
  pair_in target l = true ↔ target ∈ l.
Proof.
  unfold pair_in, py_in. induction l as [|p l IH]; simpl.
  - split; [done | intros H; inversion H].
  - rewrite orb_true_iff, IH, bool_decide_eq_true, elem_of_cons. tauto.
Qed.

Lemma pair_in_false target (l : list (string * string)) :
  pair_in target l = false ↔ target ∉ l.
Proof.
  rewrite <- pair_in_true. destruct (pair_in target l); naive_solver.
Qed.

(** [get_edges] never skips an edge: it is the list of the name pairs
    of the node's edges, in order. *)
Lemma get_edges_eq h self :
  get_edges h self = edge_pair h <$> _edges (node_at h self).
Proof.
  unfold get_edges.
  enough (G : ∀ l acc,
    foldl (fun edges i =>
             if negb (py_in (PyEdge i) (PyPair <$> edges))
             then edges ++ [edge_pair h i] else edges) acc l
    = acc ++ (edge_pair h <$> l)).
  { by rewrite G. }
  induction l as [|i l IH]; intros acc; simpl.
  - by rewrite app_nil_r.
  - rewrite py_in_edge_pairs. simpl. rewrite IH, <- app_assoc. done.
Qed.

(** ** C9: what [reload] writes *)

(** C9 — [Node.reload] leaves the edge list, the position and the
    radius of the node as they were, whatever the snapshot holds (also
    when a key is missing), and with the four keys present it returns
    the node with name, color, text color and data taken from the
    snapshot and everything else as before. *)
Theorem reload_frame (self : Node) (data : snapshot) :
  _edges (reload self data).1 = _edges self
  ∧ pos (reload self data).1 = pos self
  ∧ _radius (reload self data).1 = _radius self
  ∧ ∀ name color textcolor d,
      reload self (mkSnapshot (Some name) (Some color) (Some textcolor) (Some d))
      = ({| _name := name; _data := d; _edges := _edges self;
            _textcolor := textcolor; _color := color;
            _radius := _radius self; pos := pos self |}, Returned).
Proof.
  repeat split.
  all: unfold reload; destruct data as [[?|] [?|] [?|] [?|]]; reflexivity.
Qed.

(** ** C10: the path-length tests of loading and saving *)

(** C10 — [load_graph] only reports and returns for every path of
    length at most 3 (heap, scene, name index, selection and path are
    as before), while [quickSave] and [save] write the file for every
    path of length at least 3; so a graph saved under a path of exactly
    3 characters is written, and loading that path never reads it. *)
Theorem path_length_boundary :
  (∀ fs v, (String.length (_file v) ≤ 3)%nat →
     load_graph fs v
     = (showMessage v ("File " +:+ _file v +:+ " is corrupted."), Returned))
  ∧ (∀ fs v, (3 ≤ String.length (_file v))%nat →
       quickSave fs v
       = (<[_file v := save_graph v]> fs,
          showMessage v ("File " +:+ _file v +:+ " quicksaved.")))
  ∧ (∀ fileName fs v, (3 ≤ String.length fileName)%nat →
       save fileName fs v
       = (<[fileName := save_graph v]> fs,
          showMessage v ("File " +:+ fileName +:+ " saved.")))
  ∧ (∀ fileName fs v w, String.length fileName = 3%nat →
       (save fileName fs v).1 !! fileName = Some (save_graph v)
       ∧ load_graph (save fileName fs v).1 (set_file w fileName)
         = (showMessage (set_file w fileName)
              ("File " +:+ fileName +:+ " is corrupted."), Returned)).
Proof.
  split_and!.
  - intros fs v H. unfold load_graph. by rewrite bool_decide_eq_true_2.
  - intros fs v H. unfold quickSave. by rewrite bool_decide_eq_true_2.
  - intros f fs v H. unfold save. by rewrite bool_decide_eq_true_2.
  - intros f fs v w H. split.
    + unfold save. rewrite bool_decide_eq_true_2 by lia. simpl.
      apply lookup_insert_eq.
    + unfold load_graph. simpl. by rewrite bool_decide_eq_true_2 by lia.
Qed.

Lemma path_length_boundary_witness :
  load_graph ∅ (GraphView_init "a.j")
  = (showMessage (GraphView_init "a.j") "File a.j is corrupted.", Returned)
  ∧ (quickSave ∅ (GraphView_init "a.j")).1 !! "a.j" = Some []
  ∧ (save "a.j" ∅ (GraphView_init "")).1 !! "a.j" = Some []
  ∧ load_graph (save "a.j" ∅ (GraphView_init "")).1
               (set_file (GraphView_init "") "a.j")
    = (showMessage (set_file (GraphView_init "") "a.j")
         "File a.j is corrupted.", Returned).
Proof.
  destruct path_length_boundary as (Hl & Hq & Hs & Hb).
  split_and!.
  - apply (Hl ∅ (GraphView_init "a.j")). simpl. lia.
  - rewrite (Hq ∅ (GraphView_init "a.j")) by (simpl; lia). reflexivity.
  - rewrite (Hs "a.j" ∅ (GraphView_init "")) by (simpl; lia). reflexivity.
  - apply (Hb "a.j" ∅ (GraphView_init "") (GraphView_init "")). reflexivity.
Defined.

(** Settles the [bool_decide] tests of a goal whose conditions follow
    from the hypotheses by equational reasoning. *)
Ltac decide_tests :=
  repeat first
    [ rewrite bool_decide_eq_true_2 by (intuition congruence)
    | rewrite bool_decide_eq_false_2 by (intuition congruence) ].

(** ** The heap: reading after writing *)

Lemma node_at_alt h i : node_at h i = default inhabitant (nodes h !! i).
Proof. apply list_lookup_total_alt. Qed.

Lemma node_at_set_node_eq h i x :
  i < length (nodes h) → node_at (set_node h i x) i = x.
Proof. intros H. unfold node_at, set_node; simpl. by apply list_lookup_total_insert_eq. Qed.

Lemma node_at_set_node_ne h i j x :
  i ≠ j → node_at (set_node h i x) j = node_at h j.
Proof. intros H. unfold node_at, set_node; simpl. by apply list_lookup_total_insert_ne. Qed.

Lemma set_node_ge h i x : length (nodes h) ≤ i → set_node h i x = h.
Proof.
  intros H. unfold set_node. rewrite list_insert_ge by done. by destruct h.
Qed.

Lemma strip_with_edges n l : strip (with_edges n l) = strip n.
Proof. done. Qed.

Lemma strip_fields n n' :
  strip n = strip n' →
  _name n = _name n' ∧ _data n = _data n' ∧ _textcolor n = _textcolor n'
  ∧ _color n = _color n' ∧ _radius n = _radius n' ∧ pos n = pos n'.
Proof. destruct n, n'. unfold strip, with_edges; simpl. intros [=]. by subst. Qed.

Lemma strip_set_node h i l :
  strip <$> nodes (set_node h i (with_edges (node_at h i) l)) = strip <$> nodes h.
Proof.
  unfold set_node; simpl. rewrite list_fmap_insert, strip_with_edges.
  apply list_eq. intros j. destruct (decide (i = j)) as [->|Hne].
  - destruct (decide (j < length (nodes h))).
    + rewrite list_lookup_insert_eq by by rewrite length_fmap.
      rewrite list_lookup_fmap, node_at_alt.
      destruct (nodes h !! j) eqn:E; [done|].
      apply lookup_ge_None in E. lia.
    + by rewrite list_insert_ge by (rewrite length_fmap; lia).
  - by rewrite list_lookup_insert_ne.
Qed.

Lemma strip_node_at h h' :
  strip <$> nodes h' = strip <$> nodes h →
  ∀ i, strip (node_at h' i) = strip (node_at h i).
Proof.
  intros H i. rewrite !node_at_alt.
  assert (E : strip <$> (nodes h' !! i) = strip <$> (nodes h !! i)).
  { by rewrite <- !list_lookup_fmap, H. }
  destruct (nodes h' !! i), (nodes h !! i); simpl in E; try done.
  simpl. congruence.
Qed.

Lemma strip_length h h' :
  strip <$> nodes h' = strip <$> nodes h → length (nodes h') = length (nodes h).
Proof. intros H. by rewrite <- (length_fmap strip), H, length_fmap. Qed.

Lemma strip_name h h' i :
  strip <$> nodes h' = strip <$> nodes h →
  _name (node_at h' i) = _name (node_at h i).
Proof. intros H. by apply strip_fields, strip_node_at. Qed.

(** The name pair of an edge depends on the endpoints of the edge and
    on the names of the nodes only. *)
Lemma edge_pair_ext h h' e :
  strip <$> nodes h' = strip <$> nodes h →
  edge_at h' e = edge_at h e →
  edge_pair h' e = edge_pair h e.
Proof.
  intros Hn He. unfold edge_pair, source_of, dest_of. rewrite He.
  by rewrite !(strip_name h h').
Qed.

(** ** [append_edge] and [add_edge] *)

Lemma append_edge_edges h self e : edges (append_edge h self e) = edges h.
Proof. done. Qed.

Lemma append_edge_strip h self e :
  strip <$> nodes (append_edge h self e) = strip <$> nodes h.
Proof. apply strip_set_node. Qed.

Lemma append_edge_edges_in h self e i :
  self < length (nodes h) →
  edges_in (append_edge h self e) i
  = edges_in h i ++ (if bool_decide (i = self) then [e] else []).
Proof.
  intros H. unfold edges_in, append_edge. case_bool_decide as E.
  - subst. by rewrite node_at_set_node_eq.
  - rewrite node_at_set_node_ne by done. by rewrite app_nil_r.
Qed.

Lemma append_edge_pair h self e i :
  edge_pair (append_edge h self e) i = edge_pair h i.
Proof. apply edge_pair_ext; [apply append_edge_strip | done]. Qed.

Lemma get_edges_in h n : get_edges h n = edge_pair h <$> edges_in h n.
Proof. apply get_edges_eq. Qed.

Lemma add_edge_registers h self e :
  self < length (nodes h) → registers h self e →
  add_edge h self e = append_edge h self e.
Proof.
  intros Hlt Hr. unfold add_edge.
  case_bool_decide as Hlen.
  - (* first append; the pair is then among the node's pairs *)
    assert (Hin : pair_in (edge_pair (append_edge h self e) e)
                    (get_edges (append_edge h self e) self) = true).
    { apply pair_in_true. rewrite get_edges_in, append_edge_edges_in by done.
      rewrite bool_decide_eq_true_2 by done.
      rewrite fmap_app. apply elem_of_app. right. simpl.
      rewrite append_edge_pair. by left. }
    by rewrite Hin.
  - destruct Hr as [Hr|[H1 H2]].
    + unfold edges_in in Hr. rewrite Hr in Hlen. done.
    + apply pair_in_false in H1, H2. by rewrite H1, H2.
Qed.

Lemma add_edge_skips h self e :
  ¬ registers h self e → add_edge h self e = h.
Proof.
  intros Hr. unfold add_edge.
  case_bool_decide as Hlen.
  - exfalso. apply Hr. left. unfold edges_in. by apply nil_length_inv.
  - destruct (pair_in (edge_pair h e) (get_edges h self)) eqn:E1; [done|].
    destruct (pair_in (edge_pair h e) (get_edges h (dest_of h e))) eqn:E2; [done|].
    exfalso. apply Hr. right. by rewrite <- !pair_in_false.
Qed.

(** An edge whose name pair is new to both endpoints is appended to the
    list of each endpoint, once. *)
Lemma register_both h e :
  let s := source_of h e in
  let d := dest_of h e in
  s < length (nodes h) → d < length (nodes h) →
  edge_pair h e ∉ get_edges h s →
  edge_pair h e ∉ get_edges h d →
  let h' := add_edge (add_edge h s e) d e in
  edges h' = edges h
  ∧ strip <$> nodes h' = strip <$> nodes h
  ∧ ∀ i, edges_in h' i
         = edges_in h i ++ (if bool_decide (i = s ∨ i = d) then [e] else []).
Proof.
  intros s d Hs Hd Hns Hnd.
  assert (E1 : add_edge h s e = append_edge h s e).
  { apply add_edge_registers; [done|]. right. by fold d. }
  rewrite E1. set (h1 := append_edge h s e).
  assert (Hp1 : ∀ i, edge_pair h1 i = edge_pair h i) by apply append_edge_pair.
  assert (Hd1 : dest_of h1 e = d) by done.
  destruct (decide (d = s)) as [Hds|Hds].
  - (* a loop: the second registration finds the pair *)
    rewrite add_edge_skips.
    + split_and!; [done | apply append_edge_strip |].
      intros i. unfold h1. rewrite append_edge_edges_in by done.
      f_equal. rewrite Hds.
      destruct (decide (i = s)).
      * by rewrite !bool_decide_eq_true_2 by auto.
      * by rewrite !bool_decide_eq_false_2 by intuition congruence.
    + intros [Hr|[Hr _]].
      * unfold h1 in Hr. rewrite append_edge_edges_in, Hds in Hr by done.
        rewrite bool_decide_eq_true_2 in Hr by done.
        by destruct (edges_in h s).
      * apply Hr. rewrite get_edges_in. unfold h1.
        rewrite append_edge_edges_in, Hds by done.
        rewrite bool_decide_eq_true_2 by done.
        rewrite fmap_app. apply elem_of_app. right. by left.
  - assert (Hl1 : edges_in h1 d = edges_in h d).
    { unfold h1. rewrite append_edge_edges_in by done.
      rewrite bool_decide_eq_false_2 by done. apply app_nil_r. }
    assert (Hg1 : get_edges h1 d = get_edges h d).
    { rewrite !get_edges_in, Hl1. apply list_fmap_ext. intros. apply Hp1. }
    rewrite add_edge_registers.
    + split_and!; [done | |].
      * unfold h1. by rewrite !append_edge_strip.
      * intros i. rewrite append_edge_edges_in.
        2:{ unfold h1, append_edge, set_node; simpl. by rewrite length_insert. }
        unfold h1. rewrite append_edge_edges_in by done.
        rewrite <- app_assoc. f_equal.
        destruct (decide (i = s)), (decide (i = d)); decide_tests;
          [congruence | done..].
    + unfold h1, append_edge, set_node; simpl. by rewrite length_insert.
    + right. rewrite Hd1, Hp1, Hg1. done.
Qed.

(** ** The loop of [del_edge] *)

Lemma filter_all {A} (P : A → Prop) `{∀ x, Decision (P x)} (l : list A) :
  (∀ x, x ∈ l → P x) → filter P l = l.
Proof.
  induction l as [|x l IH]; intros Hl; [done|].
  rewrite filter_cons_True by (apply Hl; by left).
  f_equal. apply IH. intros y Hy. apply Hl. by right.
Qed.

Lemma list_remove_filter x (l : list nat) :
  NoDup l → list_remove x l = filter (λ y, y ≠ x) l.
Proof.
  induction 1 as [|y l Hy Hl IH]; [done|]. simpl.
  case_bool_decide as E.
  - subst. rewrite filter_cons_False by (intros ?; done).
    symmetry. apply filter_all. by intros z Hz ->.
  - rewrite filter_cons_True by done. by rewrite IH.
Qed.

Lemma del_edge_loop_none same fuel i (l : list nat) :
  (∀ e, e ∈ l → same e = false) → del_edge_loop same fuel i l = l.
Proof.
  revert i. induction fuel as [|fuel IH]; intros i H; [done|]. simpl.
  destruct (l !! i) as [e|] eqn:E; [|done].
  rewrite (H e) by by eapply list_elem_of_lookup_2. by apply IH.
Qed.

Lemma del_edge_loop_one same e0 fuel i j (l : list nat) :
  NoDup l →
  (∀ e, e ∈ l → same e = true → e = e0) →
  same e0 = true →
  l !! j = Some e0 → i ≤ j → length l ≤ i + fuel →
  del_edge_loop same fuel i l = filter (λ y, y ≠ e0) l.
Proof.
  intros Hnd Hsame H0 Hj. revert i.
  induction fuel as [|fuel IH]; intros i Hij Hlen.
  { apply lookup_lt_Some in Hj. lia. }
  simpl. destruct (l !! i) as [e|] eqn:E.
  2:{ apply lookup_ge_None in E. apply lookup_lt_Some in Hj. lia. }
  destruct (same e) eqn:Es.
  - assert (e = e0) as -> by (apply Hsame; [by eapply list_elem_of_lookup_2 | done]).
    rewrite list_remove_filter by done.
    apply del_edge_loop_none. intros e He.
    apply list_elem_of_filter in He as [Hne He].
    destruct (same e) eqn:Ee; [|done]. exfalso. by apply Hne, Hsame.
  - apply IH; [|lia].
    destruct (decide (i = j)) as [->|]; [|lia]. congruence.
Qed.

(** [del_edge] on a list without repetition that holds the edge, and
    no other edge with the same two endpoints, takes out that edge. *)
Lemma del_edge_loop_spec same e0 (l : list nat) :
  NoDup l →
  (∀ e, e ∈ l → same e = true → e = e0) →
  same e0 = true →
  del_edge_loop same (length l) 0 l = filter (λ y, y ≠ e0) l.
Proof.
  intros Hnd Hsame H0. destruct (decide (e0 ∈ l)) as [Hin|Hin].
  - apply list_elem_of_lookup in Hin as [j Hj].
    eapply del_edge_loop_one; eauto; lia.
  - rewrite del_edge_loop_none.
    + symmetry. apply filter_all. by intros z Hz ->.
    + intros e He. destruct (same e) eqn:Ee; [|done].
      exfalso. apply Hin. by rewrite <- (Hsame e).
Qed.

Lemma same_ends_self h e : same_ends h e e = true.
Proof. unfold same_ends. by rewrite !bool_decide_eq_true_2. Qed.

Lemma same_ends_true h e e' :
  same_ends h e e' = true
  ↔ source_of h e = source_of h e' ∧ dest_of h e = dest_of h e'.
Proof. unfold same_ends. by rewrite andb_true_iff, !bool_decide_eq_true. Qed.

Lemma del_edge_edges h self e : edges (del_edge h self e) = edges h.
Proof. done. Qed.

Lemma del_edge_strip h self e :
  strip <$> nodes (del_edge h self e) = strip <$> nodes h.
Proof. apply strip_set_node. Qed.

Lemma del_edge_edges_in_ne h self e i :
  i ≠ self → edges_in (del_edge h self e) i = edges_in h i.
Proof. intros H. unfold edges_in, del_edge. by rewrite node_at_set_node_ne. Qed.

(** One call of [del_edge]: if the list of the node has no repetition
    and no second edge with the endpoints of [e], then [e] is what
    leaves the list. *)
Lemma del_edge_edges_in h self e :
  NoDup (edges_in h self) →
  (∀ e', e' ∈ edges_in h self → same_ends h e e' = true → e' = e) →
  edges_in (del_edge h self e) self = filter (λ y, y ≠ e) (edges_in h self).
Proof.
  intros Hnd Hu. destruct (decide (self < length (nodes h))) as [Hlt|Hge].
  - unfold edges_in at 1. unfold del_edge. rewrite node_at_set_node_eq by done.
    simpl. apply del_edge_loop_spec; [done..| apply same_ends_self].
  - unfold del_edge. rewrite set_node_ge by lia.
    unfold edges_in, node_at. rewrite list_lookup_total_alt.
    rewrite lookup_ge_None_2 by lia. done.
Qed.

(** [Edge.delete] under the same conditions at both endpoints. *)
Lemma Edge_delete_spec h e :
  let s := source_of h e in
  let d := dest_of h e in
  NoDup (edges_in h s) → NoDup (edges_in h d) →
  (∀ e', e' ∈ edges_in h s → same_ends h e e' = true → e' = e) →
  (∀ e', e' ∈ edges_in h d → same_ends h e e' = true → e' = e) →
  let h' := Edge_delete h e in
  edges h' = edges h
  ∧ strip <$> nodes h' = strip <$> nodes h
  ∧ ∀ i, edges_in h' i
         = if bool_decide (i = s ∨ i = d)
           then filter (λ y, y ≠ e) (edges_in h i) else edges_in h i.
Proof.
  intros s d Hns Hnd Hus Hud h'. unfold h', Edge_delete. fold s.
  set (h1 := del_edge h s e).
  assert (Hd1 : dest_of h1 e = d) by done. rewrite Hd1.
  assert (Hse : ∀ e', same_ends h1 e e' = same_ends h e e') by done.
  assert (H1s : edges_in h1 s = filter (λ y, y ≠ e) (edges_in h s)).
  { by apply del_edge_edges_in. }
  split_and!; [done | |].
  { rewrite del_edge_strip. apply del_edge_strip. }
  intros i. destruct (decide (i = d)) as [->|Hid].
  - rewrite bool_decide_eq_true_2 by auto.
    rewrite del_edge_edges_in.
    + destruct (decide (d = s)) as [Hds|Hds].
      * rewrite Hds, H1s. rewrite list_filter_filter.
        apply list_filter_iff. tauto.
      * unfold h1. by rewrite del_edge_edges_in_ne.
    + destruct (decide (d = s)) as [Hds|Hds].
      * rewrite Hds, H1s. by apply NoDup_filter.
      * unfold h1. by rewrite del_edge_edges_in_ne.
    + intros e' He'. rewrite Hse. destruct (decide (d = s)) as [Hds|Hds].
      * rewrite Hds, H1s in He'. apply list_elem_of_filter in He' as [_ He'].
        by apply Hus.
      * unfold h1 in He'. rewrite del_edge_edges_in_ne in He' by done.
        by apply Hud.
  - rewrite del_edge_edges_in_ne by done.
    destruct (decide (i = s)) as [->|His].
    + by rewrite bool_decide_eq_true_2 by auto.
    + rewrite bool_decide_eq_false_2 by tauto.
      unfold h1. by rewrite del_edge_edges_in_ne.
Qed.

(** ** The scene *)

Lemma scene_nodes_elem (s : list item) n : n ∈ omap item_node s ↔ INode n ∈ s.
Proof.
  rewrite list_elem_of_omap. split.
  - intros ([m|e] & Hx & E); simpl in E; simplify_eq. done.
  - intros H. by exists (INode n).
Qed.

Lemma scene_edges_elem (s : list item) e : e ∈ omap item_edge s ↔ IEdge e ∈ s.
Proof.
  rewrite list_elem_of_omap. split.
  - intros ([m|e'] & Hx & E); simpl in E; simplify_eq. done.
  - intros H. by exists (IEdge e).
Qed.

Lemma nodes_count_scene (s : list item) :
  length (filter (λ x, is_Node x = true) (items s)) = length (omap item_node s).
Proof.
  unfold items. rewrite filter_reverse, length_reverse.
  induction s as [|[n|e] s IH]; [done| |].
  - rewrite filter_cons_True by done. cbn [omap list_omap item_node length].
    by rewrite IH.
  - rewrite filter_cons_False by done. done.
Qed.

Lemma scene_nodes_remove_edge (s : list item) e :
  omap item_node (filter (λ y, y ≠ IEdge e) s) = omap item_node s.
Proof.
  induction s as [|[n|e'] s IH]; [done| |].
  - rewrite filter_cons_True by done. cbn [omap list_omap item_node].
    by rewrite IH.
  - destruct (decide (e' = e)) as [->|Hne].
    + rewrite filter_cons_False by (intros H; by apply H). done.
    + rewrite filter_cons_True by congruence. done.
Qed.

Lemma scene_edges_remove_edge (s : list item) e :
  omap item_edge (filter (λ y, y ≠ IEdge e) s)
  = filter (λ y, y ≠ e) (omap item_edge s).
Proof.
  induction s as [|[n|e'] s IH]; [done| |].
  - rewrite filter_cons_True by done. done.
  - destruct (decide (e' = e)) as [->|Hne].
    + rewrite filter_cons_False by (intros H; by apply H).
      cbn [omap list_omap item_edge].
      rewrite filter_cons_False by (intros H; by apply H). done.
    + rewrite filter_cons_True by congruence. cbn [omap list_omap item_edge].
      rewrite filter_cons_True by done. by rewrite IH.
Qed.

(** ** The fresh view is consistent *)

Lemma edges_in_empty i : edges_in (mkHeap [] []) i = [].
Proof. done. Qed.

Lemma consistent_init fileName : consistent (GraphView_init fileName).
Proof.
  split; simpl; try done.
  - intros i Hi. lia.
  - intros e He. unfold live in He. simpl in He. by apply not_elem_of_nil in He.
  - intros i e He. rewrite edges_in_empty in He. by apply not_elem_of_nil in He.
  - intros i. rewrite edges_in_empty. constructor.
  - intros e1 e2 H. unfold live in H. simpl in H. by apply not_elem_of_nil in H.
Qed.

(** ** Allocation *)

Lemma node_at_alloc_old h n i :
  i < length (nodes h) → node_at (alloc_node h n) i = node_at h i.
Proof. intros H. unfold node_at, alloc_node; simpl. by apply lookup_total_app_l. Qed.

Lemma node_at_alloc_new h n : node_at (alloc_node h n) (length (nodes h)) = n.
Proof.
  unfold node_at, alloc_node; simpl.
  rewrite lookup_total_app_r by lia. by rewrite Nat.sub_diag.
Qed.

Lemma node_at_out h i : length (nodes h) ≤ i → node_at h i = inhabitant.
Proof.
  intros H. rewrite node_at_alt. by rewrite lookup_ge_None_2.
Qed.

Lemma edges_in_alloc_node h n i :
  _edges n = [] → edges_in (alloc_node h n) i = edges_in h i.
Proof.
  intros Hn. unfold edges_in.
  destruct (decide (i < length (nodes h))) as [Hlt|Hge].
  - by rewrite node_at_alloc_old.
  - destruct (decide (i = length (nodes h))) as [->|Hne].
    + rewrite node_at_alloc_new, Hn. by rewrite (node_at_out h) by lia.
    + rewrite !node_at_out; [done | lia |].
      unfold alloc_node; simpl. rewrite length_app; simpl. lia.
Qed.

Lemma edge_at_alloc_old h s d e :
  e < length (edges h) → edge_at (alloc_edge h s d) e = edge_at h e.
Proof. intros H. unfold edge_at, alloc_edge; simpl. by apply lookup_total_app_l. Qed.

Lemma edge_at_alloc_new h s d :
  edge_at (alloc_edge h s d) (length (edges h)) = mkEdge s d.
Proof.
  unfold edge_at, alloc_edge; simpl.
  rewrite lookup_total_app_r by lia. by rewrite Nat.sub_diag.
Qed.

Lemma edge_pair_alloc_old h s d e :
  e < length (edges h) → edge_pair (alloc_edge h s d) e = edge_pair h e.
Proof.
  intros H. apply edge_pair_ext; [done | by apply edge_at_alloc_old].
Qed.

(** The heap after [Edge.__init__] when the name pair of the new edge
    is new to both endpoints. *)
Lemma Edge_init_fresh h s d :
  s < length (nodes h) → d < length (nodes h) →
  (∀ e, e ∈ edges_in h s ++ edges_in h d →
        e < length (edges h)
        ∧ edge_pair h e ≠ (_name (node_at h s), _name (node_at h d))) →
  let e := length (edges h) in
  let h' := (Edge_init h s d).1 in
  (Edge_init h s d).2 = e
  ∧ edges h' = edges h ++ [mkEdge s d]
  ∧ strip <$> nodes h' = strip <$> nodes h
  ∧ ∀ i, edges_in h' i
         = edges_in h i ++ (if bool_decide (i = s ∨ i = d) then [e] else []).
Proof.
  intros Hs Hd Hfresh e h'. unfold h', Edge_init. cbv zeta. cbn [fst snd]. fold e.
  set (h0 := alloc_edge h s d).
  assert (Hsrc : source_of h0 e = s).
  { unfold source_of, h0, e. by rewrite edge_at_alloc_new. }
  assert (Hdst : dest_of h0 e = d).
  { unfold dest_of, h0, e. by rewrite edge_at_alloc_new. }
  assert (Hpair : edge_pair h0 e = (_name (node_at h s), _name (node_at h d))).
  { unfold edge_pair. by rewrite Hsrc, Hdst. }
  assert (Hnew : ∀ i, i = s ∨ i = d → edge_pair h0 e ∉ get_edges h0 i).
  { intros i Hi. rewrite get_edges_in, Hpair.
    intros Hin. apply list_elem_of_fmap in Hin as (e' & Heq & He').
    destruct (Hfresh e') as [Hlt Hne].
    { apply elem_of_app. destruct Hi as [->| ->]; auto. }
    apply Hne. rewrite Heq. unfold h0. by rewrite edge_pair_alloc_old. }
  destruct (register_both h0 e) as (He & Hst & Hin).
  - by rewrite Hsrc.
  - by rewrite Hdst.
  - rewrite Hsrc. auto.
  - rewrite Hdst. auto.
  - rewrite Hsrc, Hdst in *. split_and!; done.
Qed.

(** ** Double-clicks keep the view consistent *)

Lemma consistent_ext v v' :
  heap v' = heap v → _scene v' = _scene v →
  (∀ a, _selectedNode v' = Some a → a < length (nodes (heap v))) →
  consistent v → consistent v'.
Proof.
  intros Hh Hs Hsel [H1 H2 H3 H4 H5 H6 H7].
  split; unfold live, scene_nodes in *; rewrite ?Hh, ?Hs; auto.
Qed.

Lemma live_scene_nodes v n :
  consistent v → INode n ∈ _scene v ↔ n < length (nodes (heap v)).
Proof.
  intros Hc. rewrite <- scene_nodes_elem. fold (scene_nodes v).
  rewrite (cons_nodes v Hc), elem_of_seq. lia.
Qed.

Lemma consistent_edge_bound v i e :
  consistent v → e ∈ edges_in (heap v) i → e < length (edges (heap v)).
Proof.
  intros Hc He. apply (cons_list v Hc) in He as [Hl _].
  by apply (cons_edge v Hc) in Hl as [? _].
Qed.

Lemma consistent_add_node v p : consistent v → consistent (click_add_node v p).
Proof.
  intros Hc. pose proof Hc as [H1 H2 H3 H4 H5 H6 H7].
  set (n := setPosition (Node_default
              (pretty (length (filter (λ x, is_Node x = true) (items (_scene v))) + 1))) p).
  assert (Hn : _edges n = []) by done.
  assert (Hname : _name n = pretty (length (nodes (heap v)) + 1)).
  { unfold n. simpl. rewrite nodes_count_scene. fold (scene_nodes v).
    by rewrite H1, length_seq. }
  assert (Hin : ∀ i, edges_in (alloc_node (heap v) n) i = edges_in (heap v) i).
  { intros i. by apply edges_in_alloc_node. }
  assert (Hlive : ∀ e, IEdge e ∈ _scene v ++ [INode (length (nodes (heap v)))]
                       ↔ IEdge e ∈ _scene v).
  { intros e. rewrite elem_of_app, list_elem_of_singleton. split; [|auto].
    by intros [?|?]. }
  split; unfold click_add_node, live in *; simpl; fold n.
  - unfold scene_nodes; simpl. rewrite omap_app; simpl.
    fold (scene_nodes v). rewrite H1, length_app; simpl.
    rewrite Nat.add_1_r, seq_S. done.
  - intros i Hi. rewrite length_app in Hi; simpl in Hi.
    destruct (decide (i = length (nodes (heap v)))) as [->|Hne].
    + by rewrite node_at_alloc_new.
    + rewrite node_at_alloc_old by lia. apply H2. lia.
  - intros e He. apply Hlive in He. rewrite !Hin, length_app; simpl.
    destruct (H3 e He) as (? & ? & ? & ? & ?).
    unfold source_of, dest_of, edge_at in *; simpl. split_and!; auto; lia.
  - intros i e He. rewrite Hin in He. rewrite Hlive. by apply H4.
  - intros i. rewrite Hin. apply H5.
  - intros e1 e2 He1 He2. apply Hlive in He1, He2. by apply H6.
  - done.
Qed.

Lemma consistent_pair v e :
  consistent v → live v e →
  edge_pair (heap v) e
  = (pretty (source_of (heap v) e + 1), pretty (dest_of (heap v) e + 1)).
Proof.
  intros Hc He. destruct (cons_edge v Hc e He) as (_ & Hs & Hd & _).
  unfold edge_pair. by rewrite !(cons_names v Hc).
Qed.

Lemma pretty_succ_inj (i j : nat) : pretty (i + 1) = pretty (j + 1) → i = j.
Proof. intros H. apply (inj pretty) in H. lia. Qed.

(** What the edge-adding branch does when no live edge goes from the
    selected node to the target. *)
Lemma click_add_edge_spec v s d :
  consistent v →
  s < length (nodes (heap v)) → d < length (nodes (heap v)) →
  (∀ e, live v e → ¬ (source_of (heap v) e = s ∧ dest_of (heap v) e = d)) →
  let e := length (edges (heap v)) in
  let v' := click_add_edge v s d in
  _scene v' = _scene v ++ [IEdge e]
  ∧ _selectedNode v' = None
  ∧ edges (heap v') = edges (heap v) ++ [mkEdge s d]
  ∧ strip <$> nodes (heap v') = strip <$> nodes (heap v)
  ∧ ∀ i, edges_in (heap v') i
         = edges_in (heap v) i ++ (if bool_decide (i = s ∨ i = d) then [e] else []).
Proof.
  intros Hc Hs Hd Hno e v'.
  destruct (Edge_init_fresh (heap v) s d Hs Hd) as (He & Hedges & Hstrip & Hin).
  { intros e' He'.
    assert (Hl : live v e').
    { apply elem_of_app in He' as [He'|He']; by apply (cons_list v Hc) in He' as [? _]. }
    split; [by apply (cons_edge v Hc) in Hl as [? _]|].
    rewrite (consistent_pair v e' Hc Hl), !(cons_names v Hc) by done.
    intros [= H1 H2]. apply pretty_succ_inj in H1, H2. by apply (Hno e'). }
  unfold v', click_add_edge.
  destruct (Edge_init (heap v) s d) as [h' e'] eqn:E. simpl in *. subst e'.
  split_and!; done.
Qed.

Lemma consistent_add_edge v s d :
  consistent v →
  s < length (nodes (heap v)) → d < length (nodes (heap v)) →
  (∀ e, live v e → ¬ (source_of (heap v) e = s ∧ dest_of (heap v) e = d)) →
  consistent (click_add_edge v s d).
Proof.
  intros Hc Hs Hd Hno.
  destruct (click_add_edge_spec v s d Hc Hs Hd Hno) as (Hsc & Hsel & Hed & Hst & Hin).
  set (v' := click_add_edge v s d) in *. clearbody v'.
  set (e := length (edges (heap v))) in *.
  pose proof Hc as [H1 H2 H3 H4 H5 H6 H7].
  assert (Hlen : length (nodes (heap v')) = length (nodes (heap v))).
  { by apply strip_length. }
  assert (Hlive : ∀ x, live v' x ↔ live v x ∨ x = e).
  { intros x. unfold live. rewrite Hsc, elem_of_app, list_elem_of_singleton.
    split; intros [?|?]; auto; right; congruence. }
  assert (Hold : ∀ x, x < e → edge_at (heap v') x = edge_at (heap v) x).
  { intros x Hx. unfold edge_at. rewrite Hed. by apply lookup_total_app_l. }
  assert (Hnew : edge_at (heap v') e = mkEdge s d).
  { unfold edge_at. rewrite Hed, lookup_total_app_r by (unfold e; lia).
    unfold e. by rewrite Nat.sub_diag. }
  assert (Hsrc : ∀ x, live v x → source_of (heap v') x = source_of (heap v) x
                                ∧ dest_of (heap v') x = dest_of (heap v) x
                                ∧ x < e).
  { intros x Hx. destruct (H3 x Hx) as (Hlt & _).
    unfold source_of, dest_of. by rewrite Hold. }
  split.
  - unfold scene_nodes. rewrite Hsc, omap_app; simpl. rewrite app_nil_r.
    fold (scene_nodes v). by rewrite Hlen.
  - intros i Hi. rewrite (strip_name (heap v) (heap v')) by done. apply H2. lia.
  - intros x Hx. rewrite Hlen, Hed, length_app; simpl.
    apply Hlive in Hx as [Hx| ->].
    + destruct (Hsrc x Hx) as (-> & -> & Hlt).
      destruct (H3 x Hx) as (? & ? & ? & ? & ?).
      rewrite !Hin. split_and!; auto; try lia; apply elem_of_app; auto.
    + unfold source_of, dest_of. rewrite Hnew; simpl.
      rewrite !Hin. fold e. split_and!; auto; try lia.
      * apply elem_of_app; right. rewrite bool_decide_eq_true_2 by auto. by left.
      * apply elem_of_app; right. rewrite bool_decide_eq_true_2 by auto. by left.
  - intros i x Hx. rewrite Hin in Hx. apply elem_of_app in Hx as [Hx|Hx].
    + destruct (H4 i x Hx) as [Hl Hends].
      destruct (Hsrc x Hl) as (-> & -> & _). split; [|done].
      apply Hlive; auto.
    + case_bool_decide as Hi; [|by apply not_elem_of_nil in Hx].
      apply list_elem_of_singleton in Hx as ->.
      split; [apply Hlive; auto|].
      unfold source_of, dest_of. rewrite Hnew; simpl. intuition.
  - intros i. rewrite Hin. apply NoDup_app. split_and!; [apply H5| |].
    + intros x Hx Hx'. case_bool_decide; [|by apply not_elem_of_nil in Hx'].
      apply list_elem_of_singleton in Hx' as ->.
      pose proof (consistent_edge_bound v i e Hc Hx). unfold e in *. lia.
    + case_bool_decide; [apply NoDup_singleton | apply NoDup_nil_2].
  - intros e1 e2 He1 He2 Hs12 Hd12.
    apply Hlive in He1 as [He1| ->], He2 as [He2| ->]; [| | |done].
    + destruct (Hsrc e1 He1) as (E1 & E1' & _), (Hsrc e2 He2) as (E2 & E2' & _).
      apply H6; auto; congruence.
    + exfalso. destruct (Hsrc e1 He1) as (E1 & E1' & _).
      apply (Hno e1 He1). unfold source_of, dest_of in Hs12, Hd12.
      rewrite Hnew in Hs12, Hd12; simpl in *.
      unfold source_of, dest_of in *. split; congruence.
    + exfalso. destruct (Hsrc e2 He2) as (E2 & E2' & _).
      apply (Hno e2 He2). unfold source_of, dest_of in Hs12, Hd12.
      rewrite Hnew in Hs12, Hd12; simpl in *.
      unfold source_of, dest_of in *. split; congruence.
  - intros a Ha. congruence.
Qed.

(** What the deleting branch does to a live edge. *)
Lemma click_del_edge_spec v e :
  consistent v → live v e →
  let v' := click_del_edge v e in
  _scene v' = filter (λ y, y ≠ IEdge e) (_scene v)
  ∧ _selectedNode v' = None
  ∧ edges (heap v') = edges (heap v)
  ∧ strip <$> nodes (heap v') = strip <$> nodes (heap v)
  ∧ ∀ i, edges_in (heap v') i = filter (λ y, y ≠ e) (edges_in (heap v) i).
Proof.
  intros Hc He v'. pose proof Hc as [H1 H2 H3 H4 H5 H6 H7].
  assert (Hu : ∀ i e', e' ∈ edges_in (heap v) i →
                 same_ends (heap v) e e' = true → e' = e).
  { intros i e' He' Hs. apply same_ends_true in Hs as [Hs Hd].
    apply H4 in He' as [Hl' _]. symmetry. by apply H6. }
  destruct (Edge_delete_spec (heap v) e) as (Hed & Hst & Hin); eauto.
  unfold v', click_del_edge; simpl. split_and!; try done.
  intros i. rewrite Hin. case_bool_decide as Hi; [done|].
  symmetry. apply filter_all. intros y Hy ->.
  apply H4 in Hy as [_ Hy]. apply Hi. destruct Hy; auto.
Qed.

Lemma consistent_del_edge v e :
  consistent v → live v e → consistent (click_del_edge v e).
Proof.
  intros Hc He.
  destruct (click_del_edge_spec v e Hc He) as (Hsc & Hsel & Hed & Hst & Hin).
  set (v' := click_del_edge v e) in *. clearbody v'.
  pose proof Hc as [H1 H2 H3 H4 H5 H6 H7].
  assert (Hlen : length (nodes (heap v')) = length (nodes (heap v))).
  { by apply strip_length. }
  assert (Hlive : ∀ x, live v' x ↔ live v x ∧ x ≠ e).
  { intros x. unfold live. rewrite Hsc, list_elem_of_filter.
    split; intros [? ?]; split; auto; congruence. }
  assert (Hsrc : ∀ x, source_of (heap v') x = source_of (heap v) x
                      ∧ dest_of (heap v') x = dest_of (heap v) x).
  { intros x. unfold source_of, dest_of, edge_at. by rewrite Hed. }
  split.
  - unfold scene_nodes. rewrite Hsc, scene_nodes_remove_edge.
    fold (scene_nodes v). by rewrite Hlen.
  - intros i Hi. rewrite (strip_name (heap v) (heap v')) by done. apply H2. lia.
  - intros x Hx. apply Hlive in Hx as [Hx Hne].
    destruct (Hsrc x) as [-> ->]. rewrite Hlen, Hed, !Hin.
    destruct (H3 x Hx) as (? & ? & ? & ? & ?).
    split_and!; auto; apply list_elem_of_filter; auto.
  - intros i x Hx. rewrite Hin in Hx. apply list_elem_of_filter in Hx as [Hne Hx].
    destruct (Hsrc x) as [-> ->]. destruct (H4 i x Hx). split; [|done].
    apply Hlive; auto.
  - intros i. rewrite Hin. by apply NoDup_filter.
  - intros e1 e2 He1 He2.
    apply Hlive in He1 as [He1 _], He2 as [He2 _].
    destruct (Hsrc e1) as [-> ->], (Hsrc e2) as [-> ->]. by apply H6.
  - intros a Ha. congruence.
Qed.

(** The edges of the selected node that are also in the list of the
    target: the compare list of the handler. *)
Lemma compare_list_elem v s d e :
  e ∈ filter (λ i, i ∈ edges_in (heap v) d) (edges_in (heap v) s)
  ↔ e ∈ edges_in (heap v) s ∧ e ∈ edges_in (heap v) d.
Proof. rewrite list_elem_of_filter. tauto. Qed.

(** Every double-click on an item of the scene keeps the view
    consistent. *)
Lemma consistent_click v ev :
  consistent v → hit v ev → consistent (mouseDoubleClickEvent v ev).
Proof.
  intros Hc Hhit. unfold mouseDoubleClickEvent.
  destruct (ev_button ev); try done.
  - (* left button *)
    destruct (ev_item ev) as [it|] eqn:Eit; [|by apply consistent_add_node].
    assert (Hit : it ∈ _scene v) by by apply Hhit.
    destruct (_selectedNode v) as [sel|] eqn:Esel, it as [n|e]; try done.
    + case_bool_decide as Hne; [|done].
      assert (Hn : n < length (nodes (heap v))) by by apply live_scene_nodes.
      assert (Hs : sel < length (nodes (heap v))) by by apply (cons_selected v Hc).
      fold (edges_in (heap v) n) (edges_in (heap v) sel).
      assert (Hshared : ∀ e, live v e →
                source_of (heap v) e = sel → dest_of (heap v) e = n →
                e ∈ filter (λ i, i ∈ edges_in (heap v) n) (edges_in (heap v) sel)).
      { intros e He Hse Hde. apply compare_list_elem.
        destruct (cons_edge v Hc e He) as (_ & _ & _ & H1 & H2).
        by rewrite Hse in H1; rewrite Hde in H2. }
      destruct (filter _ (edges_in (heap v) sel)) as [|e0 edg] eqn:Eedg.
      * apply consistent_add_edge; auto.
        intros e He [Hse Hde]. specialize (Hshared e He Hse Hde).
        by apply not_elem_of_nil in Hshared.
      * destruct (pair_in _ _) eqn:Ein; simpl.
        -- apply consistent_del_edge; [done|].
           assert (H0 : e0 ∈ e0 :: edg) by by left.
           rewrite <- Eedg in H0. apply compare_list_elem in H0 as [H0 _].
           by apply (cons_list v Hc) in H0 as [? _].
        -- apply consistent_add_edge; auto.
           intros e He [Hse Hde]. specialize (Hshared e He Hse Hde).
           apply pair_in_false in Ein. apply Ein.
           apply list_elem_of_fmap. exists e. split; [|done].
           unfold edge_pair. by rewrite Hse, Hde.
    + apply (consistent_ext v); [done..| |done].
      simpl. intros a [= <-]. by apply live_scene_nodes.
  - (* middle button *)
    destruct (ev_item ev) as [[n|e]|]; try done.
    case_bool_decide; [|done].
    by apply (consistent_ext v).
Qed.

Lemma reachable_consistent v : reachable v → consistent v.
Proof.
  induction 1 as [f|v ev Hr IH Hhit]; [apply consistent_init|].
  by apply consistent_click.
Qed.

(** ** C1: duplicate edges *)

Lemma two_nodes_reachable : reachable two_nodes.
Proof.
  unfold two_nodes, run; simpl.
  do 2 (apply reachable_click; [|intros x Hx; discriminate Hx]).
  apply reachable_init.
Qed.

Lemma hit_node v n p : INode n ∈ _scene v → hit v (left (Some (INode n)) p).
Proof. intros H x [= <-]. done. Qed.

Lemma mouse_scene_nodes v ev x :
  consistent v → hit v ev → INode x ∈ _scene v →
  INode x ∈ _scene (mouseDoubleClickEvent v ev).
Proof.
  intros Hc Hhit Hx.
  pose proof (consistent_click v ev Hc Hhit) as Hc'.
  apply (live_scene_nodes _ _ Hc'). apply (live_scene_nodes _ _ Hc) in Hx.
  enough (Hle : length (scene_nodes v) ≤ length (scene_nodes (mouseDoubleClickEvent v ev))).
  { rewrite (cons_nodes v Hc), (cons_nodes _ Hc'), !length_seq in Hle. lia. }
  clear Hc' Hx. unfold mouseDoubleClickEvent.
  destruct (ev_button ev); try done.
  - destruct (ev_item ev) as [it|] eqn:Eit.
    + destruct (_selectedNode v) as [sel|] eqn:Esel, it as [n|e]; try done.
      case_bool_decide as Hne; [|done].
      assert (Hadd : length (scene_nodes v) ≤ length (scene_nodes (click_add_edge v sel n))).
      { unfold click_add_edge. destruct (Edge_init _ _ _) as [h e]. unfold scene_nodes; simpl.
        rewrite omap_app, length_app. lia. }
      assert (Hdel : ∀ e, length (scene_nodes v) ≤ length (scene_nodes (click_del_edge v e))).
      { intros e. unfold click_del_edge, scene_nodes; simpl.
        by rewrite scene_nodes_remove_edge. }
      destruct (filter _ _); [done|]. destruct (negb _); auto.
    + unfold click_add_node, scene_nodes; simpl. rewrite omap_app, length_app. lia.
  - destruct (ev_item ev) as [[n|e]|]; try done. by case_bool_decide.
Qed.

Lemma select_then_click_reachable a b v :
  reachable v → INode a ∈ _scene v → INode b ∈ _scene v →
  reachable (select_then_click a b v).
Proof.
  intros Hr Ha Hb. unfold select_then_click.
  apply reachable_click; [apply reachable_click; [done | by apply hit_node]|].
  apply hit_node. apply mouse_scene_nodes; [by apply reachable_consistent | by apply hit_node | done].
Qed.

Lemma filter_none {A} (P : A → Prop) `{∀ x, Decision (P x)} (l : list A) :
  (∀ x, x ∈ l → ¬ P x) → filter P l = [].
Proof.
  induction l as [|x l IH]; intros Hl; [done|].
  rewrite filter_cons_False by (apply Hl; by left).
  apply IH. intros y Hy. apply Hl. by right.
Qed.

Lemma filter_ext_in {A} (P Q : A → Prop) `{∀ x, Decision (P x)} `{∀ x, Decision (Q x)}
    (l : list A) :
  (∀ x, x ∈ l → P x ↔ Q x) → filter P l = filter Q l.
Proof.
  induction l as [|x l IH]; intros Hl; [done|].
  rewrite !filter_cons.
  assert (Hx : P x ↔ Q x) by (apply Hl; by left).
  rewrite IH by (intros y Hy; apply Hl; by right).
  destruct (decide (P x)), (decide (Q x)); tauto.
Qed.

(** The second click of a toggle, once the first has selected [a]. *)
Lemma select_then_click_unfold a b v :
  _selectedNode v = None → a ≠ b →
  let v1 := showMessage (set_selected v (Some a))
              ("Selected Node: " +:+ _name (node_at (heap v) a)) in
  select_then_click a b v
  = match filter (λ i, i ∈ edges_in (heap v) b) (edges_in (heap v) a) with
    | [] => click_add_edge v1 a b
    | e0 :: edg =>
        if negb (pair_in (_name (node_at (heap v) a), _name (node_at (heap v) b))
                         (edge_pair (heap v) <$> e0 :: edg))
        then click_add_edge v1 a b
        else click_del_edge v1 e0
    end.
Proof.
  intros Hsel Hab v1. unfold select_then_click.
  assert (E1 : mouseDoubleClickEvent v (left (Some (INode a)) (0, 0)%Z) = v1).
  { unfold mouseDoubleClickEvent. cbn [ev_button ev_item left]. by rewrite Hsel. }
  rewrite E1. unfold mouseDoubleClickEvent. cbn [ev_button ev_item left].
  change (_selectedNode v1) with (Some a). change (heap v1) with (heap v).
  cbv iota beta. rewrite (bool_decide_eq_true_2 (a ≠ b)) by done.
  unfold edges_in. by destruct (filter _ _).
Qed.

Lemma links_elem v a b e :
  e ∈ links v a b
  ↔ live v e ∧ ((source_of (heap v) e = a ∧ dest_of (heap v) e = b)
                ∨ (source_of (heap v) e = b ∧ dest_of (heap v) e = a)).
Proof.
  unfold links, scene_edges, live. rewrite list_elem_of_filter, scene_edges_elem. tauto.
Qed.

(** In a consistent view the compare list of two distinct nodes holds
    live edges between them only. *)
Lemma compare_list_links v a b e :
  consistent v → a ≠ b →
  e ∈ filter (λ i, i ∈ edges_in (heap v) b) (edges_in (heap v) a) →
  e ∈ links v a b.
Proof.
  intros Hc Hab He. apply compare_list_elem in He as [Ha Hb].
  apply (cons_list v Hc) in Ha as [Hl Ha], Hb as [_ Hb].
  apply links_elem. split; [done|]. destruct Ha, Hb; auto; congruence.
Qed.

(** A toggle with no edge between the two nodes adds the edge. *)
Lemma toggle_on a b v :
  consistent v → _selectedNode v = None → a ≠ b →
  a < length (nodes (heap v)) → b < length (nodes (heap v)) →
  links v a b = [] →
  let v' := select_then_click a b v in
  consistent v' ∧ _selectedNode v' = None
  ∧ length (nodes (heap v')) = length (nodes (heap v))
  ∧ links v' a b = [length (edges (heap v))]
  ∧ source_of (heap v') (length (edges (heap v))) = a
  ∧ dest_of (heap v') (length (edges (heap v))) = b.
Proof.
  intros Hc Hsel Hab Ha Hb Hno v'. unfold v'.
  rewrite select_then_click_unfold by done.
  set (v1 := showMessage _ _).
  assert (Hc1 : consistent v1).
  { apply (consistent_ext v); [done..| |done]. simpl. by intros ? [= <-]. }
  destruct (filter _ (edges_in (heap v) a)) as [|e0 edg] eqn:E.
  2:{ exfalso. assert (H0 : e0 ∈ links v a b).
      { apply compare_list_links; [done..|]. rewrite E. by left. }
      rewrite Hno in H0. by apply not_elem_of_nil in H0. }
  assert (Hfree : ∀ e, live v1 e →
            ¬ (source_of (heap v1) e = a ∧ dest_of (heap v1) e = b)).
  { intros e He Hends. assert (H0 : e ∈ links v a b) by (apply links_elem; auto).
    rewrite Hno in H0. by apply not_elem_of_nil in H0. }
  destruct (click_add_edge_spec v1 a b Hc1 Ha Hb Hfree) as (Hsc & Hs' & Hed & Hst & Hin).
  pose proof (consistent_add_edge v1 a b Hc1 Ha Hb Hfree) as Hc'.
  set (w := click_add_edge v1 a b) in *. clearbody w.
  change (heap v1) with (heap v) in *. change (_scene v1) with (_scene v) in *.
  assert (Hnew : edge_at (heap w) (length (edges (heap v))) = mkEdge a b).
  { unfold edge_at. rewrite Hed.
    rewrite lookup_total_app_r by lia. by rewrite Nat.sub_diag. }
  split_and!; [done | done | by apply strip_length | | |].
  - unfold links, scene_edges. rewrite Hsc, omap_app, filter_app.
    cbn [omap list_omap item_edge].
    rewrite (filter_cons_True _ (length (edges (heap v)))).
    2:{ unfold source_of, dest_of. rewrite Hnew. auto. }
    rewrite filter_nil.
    rewrite (filter_ext_in _ (λ e, (source_of (heap v) e = a ∧ dest_of (heap v) e = b)
                                   ∨ (source_of (heap v) e = b ∧ dest_of (heap v) e = a))).
    + fold (scene_edges v). fold (links v a b). by rewrite Hno.
    + intros e He. apply scene_edges_elem in He.
      destruct (cons_edge v Hc e He) as (Hlt & _).
      unfold source_of, dest_of, edge_at. rewrite Hed.
      by rewrite lookup_total_app_l.
  - unfold source_of. by rewrite Hnew.
  - unfold dest_of. by rewrite Hnew.
Qed.

(** A toggle with the edge from [a] to [b] as the only edge between the
    two nodes deletes it. *)
Lemma toggle_off a b v e :
  consistent v → _selectedNode v = None → a ≠ b →
  links v a b = [e] →
  source_of (heap v) e = a → dest_of (heap v) e = b →
  let v' := select_then_click a b v in
  consistent v' ∧ _selectedNode v' = None
  ∧ length (nodes (heap v')) = length (nodes (heap v))
  ∧ links v' a b = []
  ∧ edges_in (heap v') a = filter (λ y, y ≠ e) (edges_in (heap v) a)
  ∧ edges_in (heap v') b = filter (λ y, y ≠ e) (edges_in (heap v) b).
Proof.
  intros Hc Hsel Hab Hl Hsa Hdb v'. unfold v'.
  rewrite select_then_click_unfold by done.
  set (v1 := showMessage _ _).
  assert (He : live v e).
  { assert (H0 : e ∈ links v a b) by (rewrite Hl; by left).
    by apply links_elem in H0 as [? _]. }
  destruct (cons_edge v Hc e He) as (_ & Has & Hbs & Hea & Heb).
  rewrite Hsa in Has, Hea. rewrite Hdb in Hbs, Heb.
  assert (Hc1 : consistent v1).
  { apply (consistent_ext v); [done..| |done]. simpl. by intros ? [= <-]. }
  assert (Hin : e ∈ filter (λ i, i ∈ edges_in (heap v) b) (edges_in (heap v) a)).
  { by apply compare_list_elem. }
  destruct (filter _ (edges_in (heap v) a)) as [|e0 edg] eqn:E.
  { by apply not_elem_of_nil in Hin. }
  assert (e0 = e) as ->.
  { assert (H0 : e0 ∈ links v a b).
    { apply compare_list_links; [done..|]. rewrite E. by left. }
    rewrite Hl in H0. by apply list_elem_of_singleton in H0. }
  assert (Hp : pair_in (_name (node_at (heap v) a), _name (node_at (heap v) b))
                 (edge_pair (heap v) <$> e :: edg) = true).
  { apply pair_in_true. apply list_elem_of_fmap. exists e.
    split; [|by left]. unfold edge_pair. by rewrite Hsa, Hdb. }
  rewrite Hp. cbn [negb].
  destruct (click_del_edge_spec v1 e Hc1 He) as (Hsc & Hs' & Hed & Hst & Hin').
  pose proof (consistent_del_edge v1 e Hc1 He) as Hc'.
  set (w := click_del_edge v1 e) in *. clearbody w.
  change (heap v1) with (heap v) in *. change (_scene v1) with (_scene v) in *.
  split_and!.
  - done.
  - done.
  - by apply strip_length.
  - unfold links, scene_edges. rewrite Hsc, scene_edges_remove_edge.
    rewrite list_filter_filter. apply filter_none.
    intros x Hx [Hends Hne]. apply Hne.
    assert (H0 : x ∈ links v a b).
    { apply links_elem. split; [by apply scene_edges_elem|].
      unfold source_of, dest_of, edge_at in *. by rewrite Hed in Hends. }
    rewrite Hl in H0. by apply list_elem_of_singleton in H0.
  - apply Hin'.
  - apply Hin'.
Qed.

Lemma both_directions_reachable : reachable both_directions.
Proof.
  unfold both_directions.
  assert (H1 : reachable (select_then_click 0 1 two_nodes)).
  { apply select_then_click_reachable; [apply two_nodes_reachable|..];
      vm_compute; repeat constructor. }
  apply select_then_click_reachable; [done|..]; vm_compute; repeat constructor.
Qed.

(** C1, as stated, fails: after the edge 1->2 and then the edge 2->1
    have been added by double-clicks, two live edges join the nodes "1"
    and "2". *)
Lemma unordered_pair_shared_by_two_edges :
  reachable both_directions
  ∧ live both_directions 0 ∧ live both_directions 1
  ∧ edge_pair (heap both_directions) 0 = ("1", "2")
  ∧ edge_pair (heap both_directions) 1 = ("2", "1")
  ∧ links both_directions 0 1 = [0; 1].
Proof.
  split; [apply both_directions_reachable|].
  split_and!; try (vm_compute; reflexivity); vm_compute; repeat constructor.
Qed.

Lemma toggle_twice a b v :
  consistent v → _selectedNode v = None → a ≠ b →
  a < length (nodes (heap v)) → b < length (nodes (heap v)) →
  links v a b = [] →
  let v1 := select_then_click a b v in
  let v2 := select_then_click a b v1 in
  length (links v1 a b) = 1
  ∧ consistent v2 ∧ _selectedNode v2 = None
  ∧ length (nodes (heap v2)) = length (nodes (heap v))
  ∧ links v2 a b = [].
Proof.
  intros Hc Hsel Hab Ha Hb Hno v1 v2.
  destruct (toggle_on a b v Hc Hsel Hab Ha Hb Hno) as (Hc1 & Hs1 & Hn1 & Hl1 & Hsrc & Hdst).
  fold v1 in Hc1, Hs1, Hn1, Hl1, Hsrc, Hdst.
  destruct (toggle_off a b v1 _ Hc1 Hs1 Hab Hl1 Hsrc Hdst) as (Hc2 & Hs2 & Hn2 & Hl2 & _).
  fold v2 in Hc2, Hs2, Hn2, Hl2.
  split_and!; try done.
  - by rewrite Hl1.
  - congruence.
Qed.

(** C1 (amended) — in every state reached by double-clicks, two live
    edges never have the same ordered pair of endpoint names; and from
    a state with no edge between two nodes A and B and no selection,
    toggling A->B again and again leaves exactly one edge between them
    after each odd toggle and none after each even one. *)
Theorem no_duplicate_directed_edges v :
  reachable v →
  (∀ e1 e2, live v e1 → live v e2 →
     edge_pair (heap v) e1 = edge_pair (heap v) e2 → e1 = e2)
  ∧ ∀ a b, a ≠ b → INode a ∈ _scene v → INode b ∈ _scene v →
      _selectedNode v = None → links v a b = [] →
      ∀ k, length (links (Nat.iter (2 * k + 1) (select_then_click a b) v) a b) = 1
           ∧ links (Nat.iter (2 * k + 2) (select_then_click a b) v) a b = [].
Proof.
  intros Hr. pose proof (reachable_consistent v Hr) as Hc. split.
  - intros e1 e2 H1 H2. rewrite !consistent_pair by done.
    intros [= Hs Hd]. apply pretty_succ_inj in Hs, Hd. by apply (cons_unique v Hc).
  - intros a b Hab Ha Hb Hsel Hno k.
    apply (live_scene_nodes _ _ Hc) in Ha, Hb.
    assert (Hev : ∀ n, let w := Nat.iter (2 * n) (select_then_click a b) v in
              consistent w ∧ _selectedNode w = None
              ∧ length (nodes (heap w)) = length (nodes (heap v))
              ∧ links w a b = []).
    { induction n as [|n IH]; [done|]. cbv zeta in *.
      replace (2 * S n) with (S (S (2 * n))) by lia. rewrite !Nat.iter_succ.
      destruct IH as (Hcw & Hsw & Hnw & Hlw).
      destruct (toggle_twice a b _ Hcw Hsw Hab) as (_ & ? & ? & ? & ?);
        [lia | lia | done |]. split_and!; [done | done | lia | done]. }
    destruct (Hev k) as (Hcw & Hsw & Hnw & Hlw).
    destruct (toggle_twice a b _ Hcw Hsw Hab) as (H1 & _ & _ & _ & H2);
      [lia | lia | done |].
    replace (2 * k + 1) with (S (2 * k)) by lia.
    replace (2 * k + 2) with (S (S (2 * k))) by lia.
    rewrite !Nat.iter_succ. done.
Qed.

Lemma no_duplicate_directed_edges_witness :
  length (links (Nat.iter 1 (select_then_click 0 1) two_nodes) 0 1) = 1
  ∧ links (Nat.iter 2 (select_then_click 0 1) two_nodes) 0 1 = [].
Proof.
  destruct (no_duplicate_directed_edges two_nodes two_nodes_reachable) as [_ H].
  apply (H 0 1 ltac:(lia) ltac:(vm_compute; repeat constructor)
           ltac:(vm_compute; repeat constructor) eq_refl eq_refl 0).
Defined.

(** ** C6: which edge a deleting toggle removes *)

(** C6 — with the edges 1->2 (made first) and 2->1 both live, node "2"
    selected and node "1" double-clicked: the pair ["2","1"] is among
    the shared edges, and the handler deletes the first shared edge,
    which is 1->2; the edge 2->1 stays in the scene and in both
    lists. *)
Theorem delete_toggle_removes_first_shared_edge :
  let v := both_directions in
  let v' := select_then_click 1 0 v in
  edge_pair (heap v) 0 = ("1", "2") ∧ edge_pair (heap v) 1 = ("2", "1")
  ∧ edges_of v 1 = [0; 1] ∧ edges_of v 0 = [0; 1]
  ∧ scene_edges v' = [1]
  ∧ edges_of v' 1 = [1] ∧ edges_of v' 0 = [1]
  ∧ _status v' = "1->2 deleted.".
Proof. vm_compute. repeat split. Qed.

(** Scenario C: with the edge 1->2 alone, the toggle empties both
    lists. *)
Lemma scenario_C :
  let v := select_then_click 0 1 (select_then_click 0 1 two_nodes) in
  edges_of v 0 = [] ∧ edges_of v 1 = [] ∧ scene_edges v = []
  ∧ _status v = "1->2 deleted.".
Proof. vm_compute. repeat split. Qed.

(** ** C8: what [get_edges] returns *)

(** C8 — on a node whose list holds two edges with the same name pair
    (here after node "3" was renamed "2"), [get_edges] returns the pair
    twice. *)
Theorem get_edges_keeps_duplicates :
  edges_of fan_renamed 0 = [0; 1]
  ∧ get_edges (heap fan_renamed) 0 = [("1", "2"); ("1", "2")].
Proof. vm_compute. repeat split. Qed.

(** ** The import, first loop: nodes, index and pairs *)

Lemma collect_edges_app em l1 l2 :
  collect_edges em (l1 ++ l2) = collect_edges (collect_edges em l1) l2.
Proof. unfold collect_edges. apply foldl_app. Qed.

Lemma collect_edges_spec em l :
  collect_edges em l = em ++ dedup_first_seen em l.
Proof.
  revert em. induction l as [|p l IH]; intros em.
  - by rewrite app_nil_r.
  - unfold collect_edges. cbn [foldl]. fold (collect_edges).
    cbn [dedup_first_seen].
    destruct (pair_in p em) eqn:E.
    + apply pair_in_true in E. rewrite bool_decide_eq_true_2 by done.
      cbn [negb]. apply IH.
    + apply pair_in_false in E. rewrite bool_decide_eq_false_2 by done.
      cbn [negb]. fold (collect_edges (em ++ [p]) l).
      rewrite IH, <- app_assoc. done.
Qed.

Lemma dedup_first_seen_elem seen l p :
  p ∈ dedup_first_seen seen l ↔ p ∈ l ∧ p ∉ seen.
Proof.
  revert seen. induction l as [|q l IH]; intros seen; cbn [dedup_first_seen].
  - split; [intros H; by apply not_elem_of_nil in H | intros [H _]; by apply not_elem_of_nil in H].
  - case_bool_decide as Hq.
    + rewrite IH, elem_of_cons. split; [tauto|]. intros [[->|?] ?]; tauto.
    + rewrite elem_of_cons, IH, elem_of_cons, elem_of_app, list_elem_of_singleton.
      split.
      * intros [->|(? & ?)]; [tauto|]. split; [tauto|]. tauto.
      * intros [[->|?] ?]; [tauto|]. destruct (decide (p = q)); [tauto|]. tauto.
Qed.

Lemma dedup_first_seen_NoDup seen l : NoDup (dedup_first_seen seen l).
Proof.
  revert seen. induction l as [|q l IH]; intros seen; cbn [dedup_first_seen].
  - constructor.
  - case_bool_decide as Hq; [apply IH|].
    constructor; [|apply IH].
    rewrite dedup_first_seen_elem, elem_of_app, list_elem_of_singleton. tauto.
Qed.

Lemma load_node_heap st r :
  heap (load_node st r).1 = alloc_node (heap st.1) (node_of_record r).
Proof. by destruct st. Qed.

Lemma load_node_scene st r :
  _scene (load_node st r).1 = _scene st.1 ++ [INode (length (nodes (heap st.1)))].
Proof. by destruct st. Qed.

Lemma load_node_map st r :
  _nodes_map (load_node st r).1
  = <[rec_name r := length (nodes (heap st.1))]> (_nodes_map st.1).
Proof. by destruct st. Qed.

Lemma load_node_pairs st r :
  (load_node st r).2 = collect_edges st.2 (rec_edges r).
Proof. by destruct st. Qed.

Lemma load_node_rest st r :
  _file (load_node st r).1 = _file st.1
  ∧ _selectedNode (load_node st r).1 = _selectedNode st.1
  ∧ _status (load_node st r).1 = _status st.1.
Proof. by destruct st. Qed.

(** The state after the first loop. *)
Lemma load_nodes_spec doc st :
  let st' := foldl load_node st doc in
  nodes (heap st'.1) = nodes (heap st.1) ++ (node_of_record <$> doc)
  ∧ edges (heap st'.1) = edges (heap st.1)
  ∧ _scene st'.1
    = _scene st.1 ++ (INode <$> seq (length (nodes (heap st.1))) (length doc))
  ∧ _nodes_map st'.1 = build_index (_nodes_map st.1) (length (nodes (heap st.1))) doc
  ∧ st'.2 = collect_edges st.2 (all_pairs doc)
  ∧ _file st'.1 = _file st.1 ∧ _selectedNode st'.1 = _selectedNode st.1
  ∧ _status st'.1 = _status st.1.
Proof.
  revert st. induction doc as [|r doc IH]; intros st; cbn [foldl].
  - cbn [fmap list_fmap length seq build_index]. rewrite !app_nil_r.
    split_and!; done.
  - destruct (IH (load_node st r)) as (H1 & H2 & H3 & H4 & H5 & H6 & H7 & H8).
    destruct (load_node_rest st r) as (R1 & R2 & R3).
    rewrite load_node_heap, load_node_scene, load_node_map, load_node_pairs in *.
    assert (Hlen : length (nodes (alloc_node (heap st.1) (node_of_record r)))
                   = S (length (nodes (heap st.1)))).
    { unfold alloc_node. cbn [nodes]. rewrite length_app. cbn [length]. lia. }
    rewrite Hlen in *.
    split_and!.
    + rewrite H1. unfold alloc_node. cbn [nodes]. by rewrite <- app_assoc.
    + by rewrite H2.
    + rewrite H3, <- app_assoc. done.
    + by rewrite H4.
    + rewrite H5. unfold all_pairs. cbn [fmap list_fmap concat].
      by rewrite collect_edges_app.
    + congruence.
    + congruence.
    + congruence.
Qed.

(** ** The name index *)

Lemma build_index_absent m base doc k :
  k ∉ doc_names doc → build_index m base doc !! k = m !! k.
Proof.
  revert m base. induction doc as [|r doc IH]; intros m base Hk; [done|].
  cbn [build_index]. unfold doc_names in *. cbn [fmap list_fmap] in Hk.
  apply not_elem_of_cons in Hk as [Hne Hk].
  rewrite IH by done. by apply lookup_insert_ne.
Qed.

Lemma build_index_found m base doc k i :
  build_index m base doc !! k = Some i →
  (m !! k = Some i ∧ k ∉ doc_names doc)
  ∨ (base ≤ i < base + length doc ∧ rec_name <$> doc !! (i - base) = Some k).
Proof.
  revert m base. induction doc as [|r doc IH]; intros m base H.
  - left. split; [done | apply not_elem_of_nil].
  - cbn [build_index] in H. apply IH in H as [[H Hk]|[Hi Hr]].
    + destruct (decide (rec_name r = k)) as [<-|Hne].
      * rewrite lookup_insert_eq in H. injection H as <-. right.
        split; [cbn [length]; lia|]. by rewrite Nat.sub_diag.
      * rewrite lookup_insert_ne in H by done. left. split; [done|].
        unfold doc_names. cbn [fmap list_fmap]. apply not_elem_of_cons. auto.
    + right. split; [cbn [length]; lia|].
      replace (i - base) with (S (i - S base)) by lia. done.
Qed.

Lemma build_index_present m base doc k :
  k ∈ doc_names doc →
  ∃ i, build_index m base doc !! k = Some i ∧ base ≤ i.
Proof.
  revert m base. induction doc as [|r doc IH]; intros m base Hk.
  - by apply not_elem_of_nil in Hk.
  - cbn [build_index].
    destruct (decide (k ∈ doc_names doc)) as [Hin|Hout].
    + destruct (IH (<[rec_name r := base]> m) (S base) Hin) as (i & Hi & Hle).
      exists i. split; [done | lia].
    + unfold doc_names in Hk. cbn [fmap list_fmap] in Hk.
      apply elem_of_cons in Hk as [->|Hk]; [|done].
      exists base. rewrite build_index_absent by done.
      split; [apply lookup_insert_eq | lia].
Qed.

(** From an empty dictionary: a name of the document is bound to a
    node made from a record of that name, any other name is unbound. *)
Lemma build_index_empty base doc k :
  match build_index ∅ base doc !! k with
  | Some i => base ≤ i < base + length doc
              ∧ rec_name <$> doc !! (i - base) = Some k
  | None => k ∉ doc_names doc
  end.
Proof.
  destruct (build_index ∅ base doc !! k) as [i|] eqn:E.
  - apply build_index_found in E as [[E _]|E]; [|done].
    by rewrite lookup_empty in E.
  - intros Hk. apply (build_index_present ∅ base) in Hk as (i & Hi & _). congruence.
Qed.

(** ** The import, second loop: edges *)

Lemma loading_edge_at base w1 done w j p :
  loading base w1 done w → done !! j = Some p →
  edge_at (heap w) (length (edges (heap w1)) + j) = edge_of (_nodes_map w1) p.
Proof.
  intros Hl Hj. unfold edge_at. rewrite (ld_edges _ _ _ _ Hl).
  rewrite lookup_total_app_r by lia.
  replace (length (edges (heap w1)) + j - length (edges (heap w1))) with j by lia.
  apply list_lookup_total_correct. by rewrite list_lookup_fmap, Hj.
Qed.

Lemma loading_pair base w1 done w j p :
  loading base w1 done w → index_ok base w1 → done !! j = Some p →
  edge_pair (heap w) (length (edges (heap w1)) + j) = p
  ∧ base ≤ source_of (heap w) (length (edges (heap w1)) + j) < length (nodes (heap w1))
  ∧ base ≤ dest_of (heap w) (length (edges (heap w1)) + j) < length (nodes (heap w1)).
Proof.
  intros Hl Hok Hj.
  pose proof (loading_edge_at _ _ _ _ _ _ Hl Hj) as He.
  destruct (ld_resolved _ _ _ _ Hl p) as [[i1 H1] [i2 H2]].
  { by eapply list_elem_of_lookup_2. }
  unfold edge_pair, source_of, dest_of. rewrite He. unfold edge_of. cbn [_source _dest].
  rewrite H1, H2. cbn [default from_option id].
  destruct (Hok _ _ H1) as [B1 N1], (Hok _ _ H2) as [B2 N2].
  rewrite !(strip_name (heap w1) (heap w)) by apply (ld_strip _ _ _ _ Hl).
  rewrite N1, N2. by destruct p.
Qed.

Lemma loading_init base w1 :
  (∀ i, base ≤ i < length (nodes (heap w1)) → edges_in (heap w1) i = []) →
  loading base w1 [] w1.
Proof.
  intros Hempty. split; [done | done | | | | | done].
  - cbn [fmap list_fmap]. by rewrite app_nil_r.
  - cbn [length seq fmap list_fmap]. by rewrite app_nil_r.
  - intros i Hi. cbn [length seq]. by rewrite Hempty.
  - intros p Hp. by apply not_elem_of_nil in Hp.
Qed.

(** One pass through the body of the second loop. *)
Lemma loading_step base w1 done w s d i1 i2 :
  loading base w1 done w → index_ok base w1 →
  (s, d) ∉ done →
  _nodes_map w1 !! s = Some i1 → _nodes_map w1 !! d = Some i2 →
  loading base w1 (done ++ [(s, d)])
    (addItem (set_heap w (Edge_init (heap w) i1 i2).1)
             (IEdge (Edge_init (heap w) i1 i2).2)).
Proof.
  intros Hl Hok Hnew H1 H2.
  pose proof Hl as [Lstrip Lmap Ledges Lscene Llists Lres Lrest].
  set (ebase := length (edges (heap w1))) in *.
  assert (Hlen : length (nodes (heap w)) = length (nodes (heap w1))).
  { by apply strip_length. }
  destruct (Hok _ _ H1) as [B1 N1], (Hok _ _ H2) as [B2 N2].
  assert (Helen : length (edges (heap w)) = ebase + length done).
  { rewrite Ledges, length_app, length_fmap. done. }
  destruct (Edge_init_fresh (heap w) i1 i2) as (He & Hed & Hst & Hin).
  { lia. } { lia. }
  { intros e He. assert (He' : e ∈ seq ebase (length done)).
    { apply elem_of_app in He as [He|He]; rewrite Llists in He by lia;
        by apply list_elem_of_filter in He as [_ He]. }
    apply elem_of_seq in He'. split; [lia|].
    assert (Hj : is_Some (done !! (e - ebase))).
    { apply lookup_lt_is_Some. lia. }
    destruct Hj as [p Hj].
    destruct (loading_pair _ _ _ _ _ _ Hl Hok Hj) as [Hp _].
    fold ebase in Hp. replace (ebase + (e - ebase)) with e in Hp by lia.
    rewrite Hp, !(strip_name (heap w1) (heap w)), N1, N2 by done.
    intros ->. apply Hnew. by eapply list_elem_of_lookup_2. }
  set (h' := (Edge_init (heap w) i1 i2).1) in *.
  set (e := (Edge_init (heap w) i1 i2).2) in *.
  clearbody h' e. subst e.
  assert (Hold : ∀ x, x < length (edges (heap w)) → edge_at h' x = edge_at (heap w) x).
  { intros x Hx. unfold edge_at. rewrite Hed. by apply lookup_total_app_l. }
  assert (Hnewe : edge_at h' (length (edges (heap w))) = mkEdge i1 i2).
  { unfold edge_at. rewrite Hed, lookup_total_app_r by lia. by rewrite Nat.sub_diag. }
  split; unfold addItem, set_scene, set_heap; cbn [heap _scene _nodes_map _file _selectedNode].
  - by rewrite Hst.
  - done.
  - rewrite Hed, Ledges, fmap_app, <- app_assoc. cbn [fmap list_fmap].
    unfold edge_of at 3. cbn [fst snd]. by rewrite H1, H2.
  - rewrite Lscene, length_app, <- app_assoc. cbn [length].
    rewrite Nat.add_1_r, seq_S, fmap_app. cbn [fmap list_fmap].
    fold ebase. by rewrite Helen.
  - intros i Hi. rewrite Hin, Llists by done. fold ebase.
    rewrite length_app. cbn [length]. rewrite Nat.add_1_r, seq_S, filter_app.
    f_equal.
    + apply filter_ext_in. intros x Hx. apply elem_of_seq in Hx.
      unfold source_of, dest_of. by rewrite Hold by lia.
    + rewrite <- Helen. rewrite filter_cons, filter_nil.
      unfold source_of, dest_of. rewrite Hnewe. cbn [_source _dest].
      destruct (decide (i = i1)), (decide (i = i2)); subst.
      * rewrite bool_decide_eq_true_2 by auto. by rewrite decide_True by auto.
      * rewrite bool_decide_eq_true_2 by auto. by rewrite decide_True by auto.
      * rewrite bool_decide_eq_true_2 by auto. by rewrite decide_True by auto.
      * rewrite bool_decide_eq_false_2 by (intros [?|?]; congruence).
        by rewrite decide_False by (intros [?|?]; congruence).
  - intros p Hp. apply elem_of_app in Hp as [Hp|Hp]; [by apply Lres|].
    apply list_elem_of_singleton in Hp as ->. cbn [fst snd]. by rewrite H1, H2.
  - done.
Qed.

(** The second loop from any point: it ends normally with every
    remaining pair turned into an edge, or stops with [KeyError] at the
    first pair with an unbound name, the pairs before it having been
    turned into edges. *)
Lemma load_edges_spec base w1 rest : ∀ done w,
  loading base w1 done w → index_ok base w1 → NoDup (done ++ rest) →
  ∃ done', loading base w1 done' (load_edges w rest).1
    ∧ ((load_edges w rest).2 = Returned ∧ done' = done ++ rest
       ∨ ∃ pre s d post k,
           rest = pre ++ (s, d) :: post ∧ done' = done ++ pre
           ∧ (load_edges w rest).2 = Raised (KeyError k)
           ∧ _nodes_map w1 !! k = None
           ∧ (k = s ∨ k = d)
           ∧ (∀ p, p ∈ pre → is_Some (_nodes_map w1 !! p.1)
                              ∧ is_Some (_nodes_map w1 !! p.2))).
Proof.
  induction rest as [|[s d] rest IH]; intros done w Hl Hok Hnd.
  - exists done. split; [done|]. left. by rewrite app_nil_r.
  - cbn [load_edges]. rewrite (ld_map _ _ _ _ Hl).
    destruct (_nodes_map w1 !! s) as [i1|] eqn:H1.
    2:{ exists done. split; [done|]. right. exists [], s, d, rest, s.
        rewrite app_nil_r. split_and!; auto.
        intros p Hp. by apply not_elem_of_nil in Hp. }
    destruct (_nodes_map w1 !! d) as [i2|] eqn:H2.
    2:{ exists done. split; [done|]. right. exists [], s, d, rest, d.
        rewrite app_nil_r. split_and!; auto.
        intros p Hp. by apply not_elem_of_nil in Hp. }
    assert (Hnew : (s, d) ∉ done).
    { apply NoDup_app in Hnd as (_ & Hd & _). intros Hin. apply (Hd _ Hin). by left. }
    pose proof (loading_step _ _ _ _ s d i1 i2 Hl Hok Hnew H1 H2) as Hl'.
    destruct (Edge_init (heap w) i1 i2) as [h e]. cbn [fst snd] in Hl'.
    destruct (IH (done ++ [(s, d)]) _ Hl' Hok) as (done' & Hd' & Hres).
    { by rewrite <- app_assoc. }
    exists done'. split; [done|].
    destruct Hres as [[Hr ->]|(pre & s' & d' & post & k & -> & -> & Hr & Hk & Hsd & Hpre)].
    + left. split; [done|]. by rewrite <- app_assoc.
    + right. exists ((s, d) :: pre), s', d', post, k.
      split_and!; auto.
      * by rewrite <- app_assoc.
      * intros p Hp. apply elem_of_cons in Hp as [->|Hp]; [|by apply Hpre].
        cbn [fst snd]. by rewrite H1, H2.
Qed.

(** ** [load_graph] as a whole *)

Lemma load_graph_unfold fs v doc :
  3 < String.length (_file v) → fs !! _file v = Some doc →
  load_graph fs v
  = match load_edges (load_start v doc).1 (load_start v doc).2 with
    | (w, Returned) => (showMessage w ("File " +:+ _file w +:+ " opened."), Returned)
    | (w, Raised e) => (w, Raised e)
    end.
Proof.
  intros Hlen Hdoc. unfold load_graph.
  rewrite bool_decide_eq_false_2 by lia.
  cbn [_file set_nodes_map set_scene]. rewrite Hdoc.
  unfold load_start. by destruct (foldl load_node _ doc).
Qed.

Lemma load_start_spec v doc :
  let w1 := (load_start v doc).1 in
  let base := length (nodes (heap v)) in
  nodes (heap w1) = nodes (heap v) ++ (node_of_record <$> doc)
  ∧ edges (heap w1) = edges (heap v)
  ∧ _scene w1 = INode <$> seq base (length doc)
  ∧ _nodes_map w1 = build_index ∅ base doc
  ∧ (load_start v doc).2 = dedup_first_seen [] (all_pairs doc)
  ∧ _file w1 = _file v ∧ _selectedNode w1 = _selectedNode v.
Proof.
  intros w1 base. unfold w1, load_start.
  destruct (load_nodes_spec doc (set_nodes_map (set_scene v []) ∅, []))
    as (H1 & H2 & H3 & H4 & H5 & H6 & H7 & _).
  cbn [fst snd heap _scene _nodes_map _file _selectedNode set_nodes_map set_scene] in *.
  rewrite collect_edges_spec in H5. split_and!; done.
Qed.

Lemma node_at_load_start v doc j r :
  doc !! j = Some r →
  node_at (heap (load_start v doc).1) (length (nodes (heap v)) + j) = node_of_record r.
Proof.
  intros Hj. destruct (load_start_spec v doc) as (H1 & _).
  unfold node_at. rewrite H1, lookup_total_app_r by lia.
  replace (length (nodes (heap v)) + j - length (nodes (heap v))) with j by lia.
  apply list_lookup_total_correct. by rewrite list_lookup_fmap, Hj.
Qed.

Lemma load_start_index_ok v doc :
  index_ok (length (nodes (heap v))) (load_start v doc).1.
Proof.
  intros k i Hk. destruct (load_start_spec v doc) as (H1 & _ & _ & H4 & _).
  rewrite H4 in Hk.
  pose proof (build_index_empty (length (nodes (heap v))) doc k) as Hb.
  rewrite Hk in Hb. destruct Hb as [Hi Hr].
  rewrite H1, length_app, length_fmap. split; [lia|].
  destruct (doc !! (i - length (nodes (heap v)))) as [r|] eqn:E; [|done].
  replace i with (length (nodes (heap v)) + (i - length (nodes (heap v)))) by lia.
  rewrite (node_at_load_start v doc _ r E). cbn in Hr. by injection Hr.
Qed.

Lemma load_start_loading v doc :
  loading (length (nodes (heap v))) (load_start v doc).1 [] (load_start v doc).1.
Proof.
  apply loading_init. intros i Hi.
  destruct (load_start_spec v doc) as (H1 & _).
  rewrite H1, length_app, length_fmap in Hi.
  assert (Hj : is_Some (doc !! (i - length (nodes (heap v))))).
  { apply lookup_lt_is_Some. lia. }
  destruct Hj as [r Hj].
  replace i with (length (nodes (heap v)) + (i - length (nodes (heap v)))) by lia.
  unfold edges_in. by rewrite (node_at_load_start v doc _ r Hj).
Qed.

Lemma loading_showMessage base w1 done w msg :
  loading base w1 done w → loading base w1 done (showMessage w msg).
Proof. intros [H1 H2 H3 H4 H5 H6 H7]. by split. Qed.

(** The state [load_graph] ends in, for a path longer than 3 that holds
    a document. *)
Lemma load_graph_spec fs v doc :
  3 < String.length (_file v) → fs !! _file v = Some doc →
  ∃ done, loading (length (nodes (heap v))) (load_start v doc).1 done
                  (load_graph fs v).1
    ∧ ((load_graph fs v).2 = Returned
       ∧ done = dedup_first_seen [] (all_pairs doc)
       ∨ ∃ pre s d post k,
           dedup_first_seen [] (all_pairs doc) = pre ++ (s, d) :: post
           ∧ done = pre
           ∧ (load_graph fs v).2 = Raised (KeyError k)
           ∧ (k ∉ doc_names doc)
           ∧ (k = s ∨ k = d)
           ∧ (∀ p, p ∈ pre → p.1 ∈ doc_names doc ∧ p.2 ∈ doc_names doc)).
Proof.
  intros Hlen Hdoc.
  rewrite (load_graph_unfold fs v doc Hlen Hdoc).
  destruct (load_start_spec v doc) as (_ & _ & _ & Hmap & Hem & _).
  rewrite Hem.
  assert (Hnames : ∀ k, is_Some (_nodes_map (load_start v doc).1 !! k)
                        ↔ k ∈ doc_names doc).
  { intros k. rewrite Hmap.
    pose proof (build_index_empty (length (nodes (heap v))) doc k) as Hb.
    destruct (build_index ∅ _ doc !! k) as [i|].
    - split; [|by eauto]. intros _. destruct Hb as [_ Hb].
      apply list_elem_of_lookup. exists (i - length (nodes (heap v))).
      unfold doc_names. by rewrite list_lookup_fmap.
    - split; [by intros [? ?]|done]. }
  destruct (load_edges_spec _ (load_start v doc).1
              (dedup_first_seen [] (all_pairs doc)) [] (load_start v doc).1
              (load_start_loading v doc) (load_start_index_ok v doc))
    as (done & Hl & Hres).
  { apply dedup_first_seen_NoDup. }
  cbn [app] in Hres.
  destruct (load_edges (load_start v doc).1 (dedup_first_seen [] (all_pairs doc)))
    as [w o].
  cbn [fst snd] in Hl, Hres.
  exists done.
  destruct Hres as [[-> ->]|(pre & s & d & post & k & E & -> & -> & Hk & Hsd & Hpre)].
  - cbn [fst snd]. split; [by apply loading_showMessage|]. by left.
  - cbn [fst snd]. split; [done|]. right. exists pre, s, d, post, k.
    split_and!; auto.
    + rewrite <- Hnames, Hk. by intros [? ?].
    + intros p Hp. rewrite <- !Hnames. by apply Hpre.
Qed.

Lemma loading_scene_edges base w1 done w :
  loading base w1 done w → omap item_edge (_scene w1) = [] →
  scene_edges w = seq (length (edges (heap w1))) (length done).
Proof.
  intros Hl H0. unfold scene_edges. rewrite (ld_scene _ _ _ _ Hl), omap_app, H0.
  cbn [app]. generalize (seq (length (edges (heap w1))) (length done)).
  induction l as [|x l IH]; [done|]. cbn [fmap list_fmap omap list_omap item_edge].
  f_equal. apply IH.
Qed.

Lemma omap_item_edge_nodes (l : list nat) : omap item_edge (INode <$> l) = [].
Proof. induction l as [|x l IH]; [done|]. cbn [fmap list_fmap omap list_omap item_edge]. apply IH. Qed.

Lemma omap_item_node_nodes (l : list nat) : omap item_node (INode <$> l) = l.
Proof.
  induction l as [|x l IH]; [done|]. cbn [fmap list_fmap omap list_omap item_node].
  f_equal. apply IH.
Qed.

Lemma omap_item_node_edges (l : list nat) : omap item_node (IEdge <$> l) = [].
Proof. induction l as [|x l IH]; [done|]. cbn [fmap list_fmap omap list_omap item_node]. apply IH. Qed.

Lemma loading_pairs base w1 done w :
  loading base w1 done w → index_ok base w1 →
  edge_pair (heap w) <$> seq (length (edges (heap w1))) (length done) = done.
Proof.
  intros Hl Hok. apply list_eq. intros j. rewrite list_lookup_fmap.
  destruct (done !! j) as [p|] eqn:E.
  - rewrite lookup_seq_lt by (by eapply lookup_lt_Some). cbn [fmap option_fmap option_map].
    f_equal. by destruct (loading_pair _ _ _ _ _ _ Hl Hok E).
  - rewrite lookup_seq_ge by (by apply lookup_ge_None). done.
Qed.

(** The edges of the scene after a load, by their name pairs. *)
Lemma load_graph_scene_pairs fs v doc :
  3 < String.length (_file v) → fs !! _file v = Some doc →
  (load_graph fs v).2 = Returned →
  edge_pair (heap (load_graph fs v).1) <$> scene_edges (load_graph fs v).1
  = dedup_first_seen [] (all_pairs doc).
Proof.
  intros Hlen Hdoc Hret.
  destruct (load_graph_spec fs v doc Hlen Hdoc) as (done & Hl & Hres).
  destruct Hres as [[_ ->]|(? & ? & ? & ? & ? & _ & _ & Hr & _)]; [|congruence].
  rewrite (loading_scene_edges _ _ _ _ Hl).
  - apply (loading_pairs _ _ _ _ Hl), load_start_index_ok.
  - destruct (load_start_spec v doc) as (_ & _ & -> & _). apply omap_item_edge_nodes.
Qed.

(** A load returns normally when every pair names nodes of the
    document. *)
Lemma load_graph_returns fs v doc :
  3 < String.length (_file v) → fs !! _file v = Some doc →
  (∀ p, p ∈ all_pairs doc → p.1 ∈ doc_names doc ∧ p.2 ∈ doc_names doc) →
  (load_graph fs v).2 = Returned.
Proof.
  intros Hlen Hdoc Hres.
  destruct (load_graph_spec fs v doc Hlen Hdoc) as (dn & Hl & [[H _]|H]); [exact H|].
  destruct H as (pre & s & d & post & k & E & _ & _ & Hk & Hsd & _).
  exfalso. destruct (Hres (s, d)) as [H1 H2].
  { assert (H0 : (s, d) ∈ dedup_first_seen [] (all_pairs doc)).
    { rewrite E. apply elem_of_app. right. by left. }
    by apply dedup_first_seen_elem in H0 as [? _]. }
  cbn [fst snd] in *. destruct Hsd; congruence.
Qed.

(** ** C7: one edge per pair *)

(** C7 — loading a document whose pairs name nodes of the document
    returns normally, and the edges of the scene, taken in order with
    their name pairs, are exactly the pairs of all the node records in
    first-seen order with repetitions skipped: one Edge object for each
    distinct pair, however many records list it. *)
Theorem import_pair_dedup fs v doc :
  3 < String.length (_file v) → fs !! _file v = Some doc →
  (∀ p, p ∈ all_pairs doc → p.1 ∈ doc_names doc ∧ p.2 ∈ doc_names doc) →
  let v' := (load_graph fs v).1 in
  (load_graph fs v).2 = Returned
  ∧ edge_pair (heap v') <$> scene_edges v' = dedup_first_seen [] (all_pairs doc)
  ∧ NoDup (edge_pair (heap v') <$> scene_edges v')
  ∧ ∀ p, p ∈ all_pairs doc ↔ p ∈ edge_pair (heap v') <$> scene_edges v'.
Proof.
  intros Hlen Hdoc Hres v'.
  pose proof (load_graph_returns fs v doc Hlen Hdoc Hres) as Hret.
  pose proof (load_graph_scene_pairs fs v doc Hlen Hdoc Hret) as Hp.
  fold v' in Hp. rewrite Hp.
  split; [done|]. split; [done|]. split; [apply dedup_first_seen_NoDup|].
  intros p. rewrite dedup_first_seen_elem. split; [|tauto].
  intros H. split; [done | apply not_elem_of_nil].
Qed.

Lemma import_pair_dedup_witness :
  let v' := (load_graph (stored scenario_D_doc) (GraphView_init "g.json")).1 in
  (load_graph (stored scenario_D_doc) (GraphView_init "g.json")).2 = Returned
  ∧ edge_pair (heap v') <$> scene_edges v'
    = dedup_first_seen [] (all_pairs scenario_D_doc)
  ∧ NoDup (edge_pair (heap v') <$> scene_edges v')
  ∧ ∀ p, p ∈ all_pairs scenario_D_doc ↔ p ∈ edge_pair (heap v') <$> scene_edges v'.
Proof.
  apply (import_pair_dedup (stored scenario_D_doc) (GraphView_init "g.json")
           scenario_D_doc).
  - vm_compute. lia.
  - reflexivity.
  - intros p Hp. vm_compute in Hp.
    repeat (apply elem_of_cons in Hp as [->|Hp]);
      [| |by apply not_elem_of_nil in Hp]; vm_compute; split; repeat constructor.
Defined.

(** Scenario D: exactly one Edge object. *)
Lemma scenario_D :
  let v' := (load_graph (stored scenario_D_doc) (GraphView_init "g.json")).1 in
  scene_edges v' = [0] ∧ edge_pair (heap v') 0 = ("1", "2")
  ∧ edges_of v' 0 = [0] ∧ edges_of v' 1 = [0].
Proof. vm_compute. repeat split. Qed.

(** ** C5: where a node is placed *)

Lemma load_graph_node fs v doc j r :
  3 < String.length (_file v) → fs !! _file v = Some doc → doc !! j = Some r →
  let n := length (nodes (heap v)) + j in
  INode n ∈ _scene (load_graph fs v).1
  ∧ strip (node_at (heap (load_graph fs v).1) n) = strip (node_of_record r).
Proof.
  intros Hlen Hdoc Hj n.
  destruct (load_graph_spec fs v doc Hlen Hdoc) as (dn & Hl & _).
  destruct (load_start_spec v doc) as (_ & _ & Hsc & _).
  split.
  - rewrite (ld_scene _ _ _ _ Hl), Hsc. apply elem_of_app. left.
    apply list_elem_of_fmap. exists n. split; [done|].
    apply elem_of_seq. apply lookup_lt_Some in Hj. lia.
  - rewrite (strip_node_at _ _ (ld_strip _ _ _ _ Hl)).
    unfold n. by rewrite (node_at_load_start v doc j r Hj).
Qed.

(** C5 — a primary double-click on empty space at the scene point
    (x,y) makes a node of radius 30 whose position is (x-30, y-30);
    loading a document puts the node of each record at the stored
    position itself. *)
Theorem position_convention :
  (∀ v x y,
     let v' := mouseDoubleClickEvent v (left None (x, y)) in
     let n := length (nodes (heap v)) in
     INode n ∈ _scene v' ∧ _radius (node_at (heap v') n) = 30%Z
     ∧ pos (node_at (heap v') n) = ((x - 30)%Z, (y - 30)%Z))
  ∧ (∀ fs v doc j r,
       3 < String.length (_file v) → fs !! _file v = Some doc → doc !! j = Some r →
       let v' := (load_graph fs v).1 in
       let n := length (nodes (heap v)) + j in
       INode n ∈ _scene v' ∧ pos (node_at (heap v') n) = rec_pos r).
Proof.
  split.
  - intros v x y v' n. unfold v', mouseDoubleClickEvent.
    cbn [ev_button ev_item ev_scenePos left]. unfold click_add_node.
    cbn [heap _scene showMessage addItem set_scene set_heap set_selected].
    unfold n. rewrite node_at_alloc_new. split_and!; [|done|done].
    apply elem_of_app. right. by left.
  - intros fs v doc j r Hlen Hdoc Hj v' n.
    destruct (load_graph_node fs v doc j r Hlen Hdoc Hj) as [Hin Hst].
    split; [done|]. apply strip_fields in Hst as (_ & _ & _ & _ & _ & Hpos).
    unfold v', n. rewrite Hpos.
    unfold node_of_record, setPos, with_pos. cbn [pos]. by destruct (rec_pos r).
Qed.

Lemma position_convention_witness :
  pos (node_at (heap (mouseDoubleClickEvent (GraphView_init "")
                        (left None (100, 100)%Z))) 0) = (70, 70)%Z
  ∧ pos (node_at (heap (load_graph (stored scenario_D_doc)
                          (GraphView_init "g.json")).1) 1) = (170, 70)%Z.
Proof.
  destruct position_convention as [Hclick Hload]. split.
  - apply (Hclick (GraphView_init "") 100%Z 100%Z).
  - apply (Hload (stored scenario_D_doc) (GraphView_init "g.json") scenario_D_doc 1
             (mkRecord "2" [("1", "2")] "#5AD469" "white" (170, 70)%Z [])).
    + vm_compute. lia.
    + reflexivity.
    + reflexivity.
Defined.

(** ** C2: an import that names a missing node *)

(** C2, as stated, fails: loading the document of Scenario E into a
    view that shows a graph raises [KeyError "3"], and by then the
    scene and the name index hold the node of the new document instead
    of the prior graph. *)
Lemma import_failure_overwrites_scene :
  let r := load_graph (stored scenario_E_doc) prior_graph in
  r.2 = Raised (KeyError "3")
  ∧ _scene prior_graph = [INode 0; INode 1; IEdge 0]
  ∧ _scene r.1 = [INode 2]
  ∧ _name (node_at (heap r.1) 2) = "1"
  ∧ _nodes_map r.1 !! "1" = Some 2.
Proof. vm_compute. repeat split. Qed.

(** C2 (amended) — when a pair of the document names a node that the
    document lacks, the import raises [KeyError] for such a name, at
    the first collected pair with an unbound name; by then the scene
    has been cleared and holds a node for every record of the document
    and an edge for every pair collected before that one, and the name
    index is that of the document. *)
Theorem import_missing_node fs v doc :
  3 < String.length (_file v) → fs !! _file v = Some doc →
  (∃ p, p ∈ all_pairs doc ∧ (p.1 ∉ doc_names doc ∨ p.2 ∉ doc_names doc)) →
  let v' := (load_graph fs v).1 in
  ∃ k pre s d post,
    (load_graph fs v).2 = Raised (KeyError k)
    ∧ (k ∉ doc_names doc) ∧ (k = s ∨ k = d)
    ∧ dedup_first_seen [] (all_pairs doc) = pre ++ (s, d) :: post
    ∧ (∀ p, p ∈ pre → p.1 ∈ doc_names doc ∧ p.2 ∈ doc_names doc)
    ∧ _scene v' = (INode <$> seq (length (nodes (heap v))) (length doc))
                  ++ (IEdge <$> seq (length (edges (heap v))) (length pre))
    ∧ _nodes_map v' = build_index ∅ (length (nodes (heap v))) doc
    ∧ edge_pair (heap v') <$> scene_edges v' = pre.
Proof.
  intros Hlen Hdoc (p & Hp & Hmiss) v'.
  destruct (load_graph_spec fs v doc Hlen Hdoc) as (dn & Hl & Hres).
  destruct (load_start_spec v doc) as (_ & Hed & Hsc & Hmap & _).
  destruct Hres as [[Hret ->]|(pre & s & d & post & k & E & -> & Hr & Hk & Hsd & Hpre)].
  - exfalso.
    assert (Hin : p ∈ dedup_first_seen [] (all_pairs doc)).
    { apply dedup_first_seen_elem. split; [done | apply not_elem_of_nil]. }
    destruct (ld_resolved _ _ _ _ Hl p Hin) as [[i1 H1] [i2 H2]].
    rewrite Hmap in H1, H2.
    pose proof (build_index_empty (length (nodes (heap v))) doc p.1) as B1.
    pose proof (build_index_empty (length (nodes (heap v))) doc p.2) as B2.
    rewrite H1 in B1. rewrite H2 in B2. destruct B1 as [_ B1], B2 as [_ B2].
    assert (N1 : p.1 ∈ doc_names doc).
    { apply list_elem_of_lookup. exists (i1 - length (nodes (heap v))).
      unfold doc_names. by rewrite list_lookup_fmap. }
    assert (N2 : p.2 ∈ doc_names doc).
    { apply list_elem_of_lookup. exists (i2 - length (nodes (heap v))).
      unfold doc_names. by rewrite list_lookup_fmap. }
    tauto.
  - exists k, pre, s, d, post. split_and!; try done.
    + unfold v'. by rewrite (ld_scene _ _ _ _ Hl), Hsc, Hed.
    + unfold v'. by rewrite (ld_map _ _ _ _ Hl).
    + unfold v'. rewrite (loading_scene_edges _ _ _ _ Hl).
      * apply (loading_pairs _ _ _ _ Hl), load_start_index_ok.
      * rewrite Hsc. apply omap_item_edge_nodes.
Qed.

Lemma import_missing_node_witness :
  let v' := (load_graph (stored scenario_E_doc) prior_graph).1 in
  ∃ k pre s d post,
    (load_graph (stored scenario_E_doc) prior_graph).2 = Raised (KeyError k)
    ∧ (k ∉ doc_names scenario_E_doc) ∧ (k = s ∨ k = d)
    ∧ dedup_first_seen [] (all_pairs scenario_E_doc) = pre ++ (s, d) :: post
    ∧ (∀ p, p ∈ pre → p.1 ∈ doc_names scenario_E_doc ∧ p.2 ∈ doc_names scenario_E_doc)
    ∧ _scene v' = (INode <$> seq (length (nodes (heap prior_graph)))
                                 (length scenario_E_doc))
                  ++ (IEdge <$> seq (length (edges (heap prior_graph))) (length pre))
    ∧ _nodes_map v' = build_index ∅ (length (nodes (heap prior_graph))) scenario_E_doc
    ∧ edge_pair (heap v') <$> scene_edges v' = pre.
Proof.
  apply (import_missing_node (stored scenario_E_doc) prior_graph scenario_E_doc).
  - vm_compute. lia.
  - reflexivity.
  - exists ("1", "3"). split; [by left|]. right. cbn [snd].
    intros H. vm_compute in H. apply list_elem_of_singleton in H. discriminate H.
Defined.

(** ** C4: both lists or neither *)

(** C4 — the code does not keep an edge in both lists or in neither.
    After a document with the nodes "3" and "1" and the edge 3->1 is
    loaded, a double-click on empty space makes a second node named
    "3" (the name is the node count plus one); selecting it and
    double-clicking node "1" makes an edge that is in the scene and in
    the list of its source, and not in the list of its destination:
    [add_edge] appends at the source because its list is empty, without
    looking at the list of the destination, and skips the destination
    because the name pair is already there.  The same toggle once more
    does not delete that edge (it is not shared) and makes a third edge,
    in the scene and in neither list. *)
Theorem import_then_click_breaks_symmetry :
  let v := import_then_click in
  let v' := import_then_click_twice in
  scene_edges v = [0; 1]
  ∧ source_of (heap v) 1 = 2 ∧ dest_of (heap v) 1 = 1
  ∧ edges_in (heap v) 2 = [1] ∧ edges_in (heap v) 1 = [0]
  ∧ _name (node_at (heap v) 0) = "3" ∧ _name (node_at (heap v) 2) = "3"
  ∧ ¬ adjacency_symmetric v
  ∧ scene_edges v' = [0; 1; 2]
  ∧ source_of (heap v') 2 = 2 ∧ dest_of (heap v') 2 = 1
  ∧ edges_in (heap v') 2 = [1] ∧ edges_in (heap v') 1 = [0]
  ∧ _status v' = "3->1 added.".
Proof.
  split_and!; try (vm_compute; reflexivity).
  intros H. destruct (H 1) as [_ H1].
  { vm_compute. repeat constructor. }
  vm_compute in H1. apply list_elem_of_singleton in H1. discriminate H1.
Qed.

Lemma load_graph_symmetric fs v doc :
  3 < String.length (_file v) → fs !! _file v = Some doc →
  adjacency_symmetric (load_graph fs v).1.
Proof.
  intros Hlen Hdoc e He.
  destruct (load_graph_spec fs v doc Hlen Hdoc) as (dn & Hl & _).
  destruct (load_start_spec v doc) as (_ & _ & Hsc & _).
  assert (Hs : e ∈ seq (length (edges (heap (load_start v doc).1))) (length dn)).
  { rewrite <- (loading_scene_edges _ _ _ _ Hl).
    - by apply scene_edges_elem.
    - rewrite Hsc. apply omap_item_edge_nodes. }
  pose proof Hs as Hs'. apply elem_of_seq in Hs'.
  assert (Hj : is_Some (dn !! (e - length (edges (heap (load_start v doc).1))))).
  { apply lookup_lt_is_Some. lia. }
  destruct Hj as [p Hj].
  destruct (loading_pair _ _ _ _ _ _ Hl (load_start_index_ok v doc) Hj) as (_ & B1 & B2).
  replace (length (edges (heap (load_start v doc).1))
           + (e - length (edges (heap (load_start v doc).1)))) with e in * by lia.
  rewrite !(ld_lists _ _ _ _ Hl) by done.
  split; apply list_elem_of_filter; auto.
Qed.

(** ** Export *)

Lemma save_graph_eq v :
  save_graph v = Node_get (heap v) <$> reverse (scene_nodes v).
Proof.
  unfold save_graph, items, scene_nodes.
  enough (G : ∀ l acc,
    foldl (fun savegraph x =>
             match x with
             | INode n => savegraph ++ [Node_get (heap v) n]
             | IEdge _ => savegraph
             end) acc l
    = acc ++ (Node_get (heap v) <$> omap item_node l)).
  { rewrite G. cbn [app]. f_equal.
    generalize (_scene v). intros l. induction l as [|x l IH]; [done|].
    rewrite reverse_cons, omap_app, IH.
    destruct x; cbn [omap list_omap item_node].
    - by rewrite reverse_cons.
    - by rewrite app_nil_r. }
  induction l as [|[n|e] l IH]; intros acc; cbn [foldl omap list_omap item_node].
  - by rewrite app_nil_r.
  - rewrite IH, <- app_assoc. done.
  - apply IH.
Qed.

Lemma all_pairs_elem doc p :
  p ∈ all_pairs doc ↔ ∃ r, r ∈ doc ∧ p ∈ rec_edges r.
Proof.
  unfold all_pairs. induction doc as [|r doc IH]; cbn [fmap list_fmap concat].
  - split; [intros H; by apply not_elem_of_nil in H|].
    intros (r & H & _). by apply not_elem_of_nil in H.
  - rewrite elem_of_app, IH. split.
    + intros [H|(r' & H1 & H2)]; [exists r; split; [by left|done]|].
      exists r'. split; [by right|done].
    + intros (r' & H1 & H2). apply elem_of_cons in H1 as [->|H1]; [by left|].
      right. by exists r'.
Qed.

Lemma save_graph_pairs v p :
  p ∈ all_pairs (save_graph v)
  ↔ ∃ n e, INode n ∈ _scene v ∧ e ∈ edges_in (heap v) n ∧ p = edge_pair (heap v) e.
Proof.
  rewrite all_pairs_elem, save_graph_eq. split.
  - intros (r & Hr & Hp). apply list_elem_of_fmap in Hr as (n & -> & Hn).
    apply elem_of_reverse, scene_nodes_elem in Hn.
    cbn [rec_edges Node_get] in Hp. rewrite get_edges_in in Hp.
    apply list_elem_of_fmap in Hp as (e & -> & He). by exists n, e.
  - intros (n & e & Hn & He & ->). exists (Node_get (heap v) n). split.
    + apply list_elem_of_fmap. exists n. split; [done|].
      by apply elem_of_reverse, scene_nodes_elem.
    + cbn [rec_edges Node_get]. rewrite get_edges_in.
      apply list_elem_of_fmap. by exists e.
Qed.

Lemma save_graph_names v k :
  k ∈ doc_names (save_graph v)
  ↔ ∃ n, INode n ∈ _scene v ∧ k = _name (node_at (heap v) n).
Proof.
  unfold doc_names. rewrite save_graph_eq, <- list_fmap_compose. split.
  - intros H. apply list_elem_of_fmap in H as (n & -> & Hn).
    apply elem_of_reverse, scene_nodes_elem in Hn. by exists n.
  - intros (n & Hn & ->). apply list_elem_of_fmap. exists n. split; [done|].
    by apply elem_of_reverse, scene_nodes_elem.
Qed.

(** The pairs exported from a closed view name exported nodes. *)
Lemma save_graph_resolves v p :
  closed v → p ∈ all_pairs (save_graph v) →
  p.1 ∈ doc_names (save_graph v) ∧ p.2 ∈ doc_names (save_graph v).
Proof.
  intros Hc Hp. apply save_graph_pairs in Hp as (n & e & Hn & He & ->).
  destruct (Hc n e Hn He) as [Hs Hd]. unfold edge_pair. cbn [fst snd].
  split; apply save_graph_names; eauto.
Qed.

Lemma reachable_closed v : reachable v → closed v.
Proof.
  intros Hr n e Hn He. pose proof (reachable_consistent v Hr) as Hc.
  apply (cons_list v Hc) in He as [Hl _].
  destruct (cons_edge v Hc e Hl) as (_ & Hs & Hd & _).
  by rewrite !(live_scene_nodes v _ Hc).
Qed.

(** ** C3: export, import, export *)

Lemma load_start_length v doc :
  length (nodes (heap (load_start v doc).1)) = length (nodes (heap v)) + length doc.
Proof.
  destruct (load_start_spec v doc) as (H1 & _).
  by rewrite H1, length_app, length_fmap.
Qed.

Lemma load_graph_scene_nodes fs v doc :
  3 < String.length (_file v) → fs !! _file v = Some doc →
  scene_nodes (load_graph fs v).1 = seq (length (nodes (heap v))) (length doc).
Proof.
  intros Hlen Hdoc.
  destruct (load_graph_spec fs v doc Hlen Hdoc) as (dn & Hl & _).
  destruct (load_start_spec v doc) as (_ & _ & Hsc & _).
  unfold scene_nodes. rewrite (ld_scene _ _ _ _ Hl), Hsc, omap_app.
  by rewrite omap_item_node_nodes, omap_item_node_edges, app_nil_r.
Qed.

Lemma record_frame_node_of_record h n r :
  strip (node_at h n) = strip (node_of_record r) →
  record_frame (Node_get h n) = record_frame r.
Proof.
  intros H. apply strip_fields in H as (H1 & H2 & H3 & H4 & _ & H6).
  unfold record_frame, Node_get. cbn [rec_name rec_color rec_textcolor rec_pos rec_data].
  rewrite H1, H2, H3, H4, H6. unfold node_of_record, setPos, with_pos, Node_init.
  cbn [_name _data _textcolor _color pos]. by destruct (rec_pos r).
Qed.

(** The records exported after a load are those of the document, edge
    pairs apart, in the opposite order. *)
Lemma load_graph_frames fs v doc :
  3 < String.length (_file v) → fs !! _file v = Some doc →
  record_frame <$> save_graph (load_graph fs v).1 = reverse (record_frame <$> doc).
Proof.
  intros Hlen Hdoc. rewrite save_graph_eq, (load_graph_scene_nodes fs v doc) by done.
  rewrite <- list_fmap_compose, fmap_reverse. f_equal.
  apply list_eq. intros j. rewrite !list_lookup_fmap.
  destruct (doc !! j) as [r|] eqn:E.
  - rewrite lookup_seq_lt by (by eapply lookup_lt_Some).
    cbn [fmap option_fmap option_map compose]. f_equal.
    apply record_frame_node_of_record.
    by destruct (load_graph_node fs v doc j r Hlen Hdoc E).
  - rewrite lookup_seq_ge by (by apply lookup_ge_None). done.
Qed.

(** The pairs exported after a load that returned are the pairs of the
    document. *)
Lemma load_graph_export_pairs fs v doc p :
  3 < String.length (_file v) → fs !! _file v = Some doc →
  (load_graph fs v).2 = Returned →
  p ∈ all_pairs (save_graph (load_graph fs v).1) ↔ p ∈ all_pairs doc.
Proof.
  intros Hlen Hdoc Hret.
  destruct (load_graph_spec fs v doc Hlen Hdoc) as (dn & Hl & Hres).
  destruct Hres as [[_ ->]|(? & ? & ? & ? & ? & _ & _ & Hr & _)]; [|congruence].
  pose proof (load_start_index_ok v doc) as Hok.
  pose proof (loading_pairs _ _ _ _ Hl Hok) as Hpairs.
  pose proof (load_graph_scene_nodes fs v doc Hlen Hdoc) as Hsn.
  pose proof (load_start_length v doc) as Hlen1.
  set (edge_map := dedup_first_seen [] (all_pairs doc)) in *.
  assert (Hmap : p ∈ edge_map ↔ p ∈ all_pairs doc).
  { unfold edge_map. rewrite dedup_first_seen_elem. split; [tauto|].
    intros H. split; [done | apply not_elem_of_nil]. }
  rewrite <- Hmap, save_graph_pairs. split.
  - intros (n & e & Hn & He & ->).
    apply scene_nodes_elem in Hn. fold (scene_nodes (load_graph fs v).1) in Hn.
    rewrite Hsn in Hn. apply elem_of_seq in Hn.
    rewrite (ld_lists _ _ _ _ Hl) in He by lia.
    apply list_elem_of_filter in He as [_ He].
    rewrite <- Hpairs. apply list_elem_of_fmap. by exists e.
  - intros Hp. apply list_elem_of_lookup in Hp as [j Hj].
    destruct (loading_pair _ _ _ _ _ _ Hl Hok Hj) as (Hpair & B1 & _).
    set (e := length (edges (heap (load_start v doc).1)) + j) in *.
    exists (source_of (heap (load_graph fs v).1) e), e. split_and!.
    + apply scene_nodes_elem. fold (scene_nodes (load_graph fs v).1).
      rewrite Hsn. apply elem_of_seq. lia.
    + rewrite (ld_lists _ _ _ _ Hl) by done. apply list_elem_of_filter.
      split; [auto|]. apply elem_of_seq. apply lookup_lt_Some in Hj. unfold e. lia.
    + done.
Qed.

(** C3 — for every view whose listed edges join nodes of the scene,
    the exported document, stored under a path longer than 3 and
    loaded (into any view), loads normally, and the export of the
    loaded graph has the same node records up to order (names, colors,
    positions and data; edge pairs apart) and the same set of edge
    pairs as the first export. *)
Theorem export_import_export v fs w :
  closed v →
  3 < String.length (_file w) → fs !! _file w = Some (save_graph v) →
  let v' := (load_graph fs w).1 in
  (load_graph fs w).2 = Returned
  ∧ record_frame <$> save_graph v' ≡ₚ record_frame <$> save_graph v
  ∧ doc_names (save_graph v') ≡ₚ doc_names (save_graph v)
  ∧ ∀ p, p ∈ all_pairs (save_graph v') ↔ p ∈ all_pairs (save_graph v).
Proof.
  intros Hc Hlen Hdoc v'.
  assert (Hret : (load_graph fs w).2 = Returned).
  { apply (load_graph_returns fs w (save_graph v) Hlen Hdoc).
    intros p Hp. by apply save_graph_resolves. }
  pose proof (load_graph_frames fs w (save_graph v) Hlen Hdoc) as Hf.
  split_and!.
  - done.
  - unfold v'. rewrite Hf. apply reverse_Permutation.
  - assert (Hn : ∀ d, doc_names d = (λ f, f.1.1.1.1) <$> (record_frame <$> d)).
    { intros d. unfold doc_names. by rewrite <- list_fmap_compose. }
    rewrite !Hn. unfold v'. rewrite Hf. by rewrite reverse_Permutation.
  - intros p. by apply load_graph_export_pairs.
Qed.

Lemma export_import_export_witness :
  let v := both_directions in
  let w := set_file both_directions "g.json" in
  let v' := (load_graph (stored (save_graph v)) w).1 in
  (load_graph (stored (save_graph v)) w).2 = Returned
  ∧ record_frame <$> save_graph v' ≡ₚ record_frame <$> save_graph v
  ∧ doc_names (save_graph v') ≡ₚ doc_names (save_graph v)
  ∧ ∀ p, p ∈ all_pairs (save_graph v') ↔ p ∈ all_pairs (save_graph v).
Proof.
  apply (export_import_export both_directions (stored (save_graph both_directions))
           (set_file both_directions "g.json")).
  - apply reachable_closed, both_directions_reachable.
  - vm_compute. lia.
  - reflexivity.
Defined.

(** * Further properties of the code *)

(** ** The double-click handler, case by case *)

(** What one double-click is, in a state between two double-clicks:
    nothing for the graph, a new node, a new edge from the selected
    node to the node under the pointer, or the deletion of a live
    edge. *)
Lemma click_cases v ev :
  consistent v → hit v ev →
  let v' := mouseDoubleClickEvent v ev in
  (heap v' = heap v ∧ _scene v' = _scene v
   ∧ _file v' = _file v ∧ _nodes_map v' = _nodes_map v)
  ∨ v' = click_add_node v (ev_scenePos ev)
  ∨ (∃ s d, _selectedNode v = Some s ∧ s ≠ d
            ∧ s < length (nodes (heap v)) ∧ d < length (nodes (heap v))
            ∧ (∀ e, live v e →
                 ¬ (source_of (heap v) e = s ∧ dest_of (heap v) e = d))
            ∧ v' = click_add_edge v s d)
  ∨ (∃ e, live v e ∧ v' = click_del_edge v e).
Proof.
  intros Hc Hhit. cbv zeta. unfold mouseDoubleClickEvent.
  destruct (ev_button ev); try (by left).
  - destruct (ev_item ev) as [it|] eqn:Eit; [|by right; left].
    assert (Hit : it ∈ _scene v) by by apply Hhit.
    destruct (_selectedNode v) as [sel|] eqn:Esel, it as [n|e]; try (by left).
    case_bool_decide as Hne; [|by left].
    assert (Hn : n < length (nodes (heap v))) by by apply live_scene_nodes.
    assert (Hs : sel < length (nodes (heap v))) by by apply (cons_selected v Hc).
    fold (edges_in (heap v) n) (edges_in (heap v) sel).
    assert (Hshared : ∀ e, live v e →
              source_of (heap v) e = sel → dest_of (heap v) e = n →
              e ∈ filter (λ i, i ∈ edges_in (heap v) n) (edges_in (heap v) sel)).
    { intros e He Hse Hde. apply compare_list_elem.
      destruct (cons_edge v Hc e He) as (_ & _ & _ & H1 & H2).
      by rewrite Hse in H1; rewrite Hde in H2. }
    destruct (filter _ (edges_in (heap v) sel)) as [|e0 edg] eqn:Eedg.
    + right; right; left. exists sel, n. split_and!; try done.
      intros e He [Hse Hde]. specialize (Hshared e He Hse Hde).
      by apply not_elem_of_nil in Hshared.
    + destruct (pair_in _ _) eqn:Ein; cbn [negb].
      * right; right; right. exists e0. split; [|done].
        assert (H0 : e0 ∈ e0 :: edg) by by left.
        rewrite <- Eedg in H0. apply compare_list_elem in H0 as [H0 _].
        by apply (cons_list v Hc) in H0 as [? _].
      * right; right; left. exists sel, n. split_and!; try done.
        intros e He [Hse Hde]. specialize (Hshared e He Hse Hde).
        apply pair_in_false in Ein. apply Ein.
        apply list_elem_of_fmap. exists e. split; [|done].
        unfold edge_pair. by rewrite Hse, Hde.
  - destruct (ev_item ev) as [[n|e]|]; try (by left).
    case_bool_decide; by left.
Qed.

Lemma count_nodes (l : list item) :
  length (filter (λ x, is_Node x = true) l) = length (omap item_node l).
Proof.
  induction l as [|[n|e] l IH]; [done| |].
  - rewrite filter_cons_True by done. cbn. by rewrite IH.
  - rewrite filter_cons_False by done. cbn. by rewrite IH.
Qed.

Lemma omap_reverse {A B} (f : A → option B) (l : list A) :
  omap f (reverse l) = reverse (omap f l).
Proof.
  induction l as [|x l IH]; [done|].
  rewrite reverse_cons, omap_app, IH. cbn [omap list_omap].
  destruct (f x); cbn [omap list_omap].
  - by rewrite reverse_cons.
  - by rewrite app_nil_r.
Qed.

(** The new node of a double-click on empty space. *)
Lemma click_add_node_spec v p :
  let v' := click_add_node v p in
  nodes (heap v') = nodes (heap v)
      ++ [setPosition (Node_default (pretty (length (scene_nodes v) + 1))) p]
  ∧ edges (heap v') = edges (heap v)
  ∧ _scene v' = _scene v ++ [INode (length (nodes (heap v)))]
  ∧ _selectedNode v' = None
  ∧ _file v' = _file v ∧ _nodes_map v' = _nodes_map v.
Proof.
  cbv zeta. unfold click_add_node, addItem, set_heap, set_scene, showMessage,
    set_selected, alloc_node.
  cbn [heap nodes edges _scene _selectedNode _file _nodes_map].
  split_and!; try done.
  do 4 f_equal. unfold items, scene_nodes.
  by rewrite count_nodes, omap_reverse, length_reverse.
Qed.

Lemma click_add_edge_rest v s d :
  _file (click_add_edge v s d) = _file v
  ∧ _nodes_map (click_add_edge v s d) = _nodes_map v.
Proof. unfold click_add_edge. by destruct (Edge_init _ _ _) as [h e]. Qed.

Lemma click_del_edge_rest v e :
  _file (click_del_edge v e) = _file v
  ∧ _nodes_map (click_del_edge v e) = _nodes_map v.
Proof. done. Qed.

Lemma strip_node_at_app h h' x n :
  nodes h' = nodes h ++ [x] → n < length (nodes h) → node_at h' n = node_at h n.
Proof.
  intros H Hn. unfold node_at. rewrite H. by apply lookup_total_app_l.
Qed.

(** X1 — a double-click in a state reached by double-clicks changes the
    scene by one item at most: it leaves the scene alone, or appends one
    new node, or appends one new edge, or removes one live edge.  It
    never removes a node, never changes the name, the colors, the
    position or the data of a node that exists, and changes neither the
    path nor the name index of the view. *)
Theorem double_click_effect v ev :
  reachable v → hit v ev →
  let v' := mouseDoubleClickEvent v ev in
  (_scene v' = _scene v
   ∨ _scene v' = _scene v ++ [INode (length (nodes (heap v)))]
   ∨ _scene v' = _scene v ++ [IEdge (length (edges (heap v)))]
   ∨ ∃ e, live v e ∧ _scene v' = filter (λ y, y ≠ IEdge e) (_scene v))
  ∧ (∀ n, INode n ∈ _scene v →
       INode n ∈ _scene v'
       ∧ strip (node_at (heap v') n) = strip (node_at (heap v) n))
  ∧ _file v' = _file v ∧ _nodes_map v' = _nodes_map v.
Proof.
  intros Hr Hhit. pose proof (reachable_consistent v Hr) as Hc.
  destruct (click_cases v ev Hc Hhit)
    as [(Hh & Hs & Hf & Hm)|[Hv|[(s & d & Hsel & Hne & Hs & Hd & Hno & Hv)|(e & He & Hv)]]];
    cbv zeta.
  - split_and!; try done; [by left|].
    intros n Hn. by rewrite Hs, Hh.
  - rewrite Hv. destruct (click_add_node_spec v (ev_scenePos ev))
      as (Hn & _ & Hsc & _ & Hf & Hm).
    split_and!; try done; [by right; left|].
    intros n Hn'. split.
    + rewrite Hsc. apply elem_of_app. by left.
    + f_equal. apply (strip_node_at_app _ _ _ _ Hn).
      by apply (live_scene_nodes v n Hc).
  - rewrite Hv. destruct (click_add_edge_spec v s d Hc Hs Hd Hno)
      as (Hsc & _ & _ & Hst & _).
    destruct (click_add_edge_rest v s d) as [Hf Hm].
    split_and!; try done; [by right; right; left|].
    intros n Hn'. split.
    + rewrite Hsc. apply elem_of_app. by left.
    + by apply strip_node_at.
  - rewrite Hv. destruct (click_del_edge_spec v e Hc He) as (Hsc & _ & _ & Hst & _).
    split_and!; try done; [right; right; right; by exists e|].
    intros n Hn'. split.
    + rewrite Hsc. by apply list_elem_of_filter.
    + by apply strip_node_at.
Qed.

Lemma double_click_effect_witness :
  let v := two_nodes in
  let ev := left (Some (INode 0)) (0, 0)%Z in
  let v' := mouseDoubleClickEvent v ev in
  (_scene v' = _scene v
   ∨ _scene v' = _scene v ++ [INode (length (nodes (heap v)))]
   ∨ _scene v' = _scene v ++ [IEdge (length (edges (heap v)))]
   ∨ ∃ e, live v e ∧ _scene v' = filter (λ y, y ≠ IEdge e) (_scene v))
  ∧ (∀ n, INode n ∈ _scene v →
       INode n ∈ _scene v'
       ∧ strip (node_at (heap v') n) = strip (node_at (heap v) n))
  ∧ _file v' = _file v ∧ _nodes_map v' = _nodes_map v.
Proof.
  apply (double_click_effect two_nodes (left (Some (INode 0)) (0, 0)%Z)).
  - apply two_nodes_reachable.
  - apply hit_node. vm_compute. repeat constructor.
Defined.

(** ** Invariants of the states reached by double-clicks *)

(** X2 — in a state reached by double-clicks from the empty scene the
    nodes are named by their rank of creation ("1", "2", ...), no node
    has ever left the scene, and the exported document lists the nodes
    from the newest to the oldest, under pairwise distinct names. *)
Theorem click_names v :
  reachable v →
  let n := length (nodes (heap v)) in
  scene_nodes v = seq 0 n
  ∧ (∀ i, i < n → _name (node_at (heap v) i) = pretty (i + 1))
  ∧ doc_names (save_graph v) = (λ i, pretty (i + 1)) <$> reverse (seq 0 n)
  ∧ NoDup (doc_names (save_graph v)).
Proof.
  intros Hr n. pose proof (reachable_consistent v Hr) as Hc.
  assert (Hd : doc_names (save_graph v)
               = (λ i, pretty (i + 1)) <$> reverse (seq 0 n)).
  { unfold doc_names. rewrite save_graph_eq, (cons_nodes v Hc).
    rewrite <- list_fmap_compose. apply list_fmap_ext.
    intros j i Hi. apply list_elem_of_lookup_2, elem_of_reverse, elem_of_seq in Hi.
    cbn. apply (cons_names v Hc). lia. }
  split_and!.
  - apply (cons_nodes v Hc).
  - apply (cons_names v Hc).
  - done.
  - rewrite Hd. apply NoDup_fmap_2_strong.
    + intros i j _ _. apply pretty_succ_inj.
    + rewrite reverse_Permutation. apply NoDup_seq.
Qed.

Lemma click_names_witness :
  let v := both_directions in
  let n := length (nodes (heap v)) in
  scene_nodes v = seq 0 n
  ∧ (∀ i, i < n → _name (node_at (heap v) i) = pretty (i + 1))
  ∧ doc_names (save_graph v) = (λ i, pretty (i + 1)) <$> reverse (seq 0 n)
  ∧ NoDup (doc_names (save_graph v)).
Proof. apply (click_names both_directions), both_directions_reachable. Defined.

(** X3 — in a state reached by double-clicks the selected node, when
    there is one, is a node of the scene. *)
Theorem selection_in_scene v a :
  reachable v → _selectedNode v = Some a → INode a ∈ _scene v.
Proof.
  intros Hr Ha. pose proof (reachable_consistent v Hr) as Hc.
  apply (live_scene_nodes v a Hc). by apply (cons_selected v Hc).
Qed.

Lemma selection_in_scene_witness :
  INode 1
  ∈ _scene (mouseDoubleClickEvent two_nodes (left (Some (INode 1)) (0, 0)%Z)).
Proof.
  apply (selection_in_scene
           (mouseDoubleClickEvent two_nodes (left (Some (INode 1)) (0, 0)%Z)) 1).
  - apply reachable_click; [apply two_nodes_reachable|].
    apply hit_node. vm_compute. repeat constructor.
  - reflexivity.
Defined.

(** X4 — in a state reached by double-clicks the edge list of a node of
    the scene holds, each once, exactly the live edges that start or
    end at that node. *)
Theorem edge_lists_exact v n :
  reachable v → INode n ∈ _scene v →
  NoDup (edges_in (heap v) n)
  ∧ ∀ e, e ∈ edges_in (heap v) n
         ↔ live v e ∧ (source_of (heap v) e = n ∨ dest_of (heap v) e = n).
Proof.
  intros Hr Hn. pose proof (reachable_consistent v Hr) as Hc. split.
  - apply (cons_nodup v Hc).
  - intros e. split; [apply (cons_list v Hc)|].
    intros [He [Hs|Hd]];
      destruct (cons_edge v Hc e He) as (_ & _ & _ & H1 & H2); congruence.
Qed.

Lemma edge_lists_exact_witness :
  NoDup (edges_in (heap both_directions) 0)
  ∧ ∀ e, e ∈ edges_in (heap both_directions) 0
         ↔ live both_directions e
           ∧ (source_of (heap both_directions) e = 0
              ∨ dest_of (heap both_directions) e = 0).
Proof.
  apply (edge_lists_exact both_directions 0).
  - apply both_directions_reachable.
  - vm_compute. repeat constructor.
Defined.

(** X5 — in a state reached by double-clicks [get_edges] of a node of
    the scene returns no pair twice, and returns exactly the pairs
    (name of the source, name of the destination) of the live edges at
    that node; so do the edges of its record in the exported
    document. *)
Theorem get_edges_of_clicks v n :
  reachable v → INode n ∈ _scene v →
  rec_edges (Node_get (heap v) n) = get_edges (heap v) n
  ∧ NoDup (get_edges (heap v) n)
  ∧ ∀ p, p ∈ get_edges (heap v) n
         ↔ ∃ e, live v e
                ∧ (source_of (heap v) e = n ∨ dest_of (heap v) e = n)
                ∧ p = (pretty (source_of (heap v) e + 1),
                       pretty (dest_of (heap v) e + 1)).
Proof.
  intros Hr Hn. pose proof (reachable_consistent v Hr) as Hc.
  assert (Hpair : ∀ e, live v e →
            edge_pair (heap v) e = (pretty (source_of (heap v) e + 1),
                                    pretty (dest_of (heap v) e + 1))).
  { intros e He. destruct (cons_edge v Hc e He) as (_ & Hs & Hd & _).
    unfold edge_pair.
    fold (source_of (heap v) e) (dest_of (heap v) e).
    by rewrite !(cons_names v Hc). }
  rewrite get_edges_eq. fold (edges_in (heap v) n). split_and!.
  - apply (get_edges_eq (heap v) n).
  - apply NoDup_fmap_2_strong; [|apply (cons_nodup v Hc)].
    intros e1 e2 H1 H2 He.
    apply (cons_list v Hc) in H1 as [H1 _]. apply (cons_list v Hc) in H2 as [H2 _].
    rewrite !Hpair in He by done. injection He as Hs Hd.
    apply pretty_succ_inj in Hs, Hd. by apply (cons_unique v Hc).
  - intros p. rewrite list_elem_of_fmap. split.
    + intros (e & -> & He). apply (cons_list v Hc) in He as [He Hends].
      exists e. split_and!; [done..|by apply Hpair].
    + intros (e & He & Hends & ->). exists e. split; [by rewrite Hpair|].
      destruct (cons_edge v Hc e He) as (_ & _ & _ & H1 & H2).
      destruct Hends; congruence.
Qed.

Lemma get_edges_of_clicks_witness :
  rec_edges (Node_get (heap both_directions) 0) = get_edges (heap both_directions) 0
  ∧ NoDup (get_edges (heap both_directions) 0)
  ∧ ∀ p, p ∈ get_edges (heap both_directions) 0
         ↔ ∃ e, live both_directions e
                ∧ (source_of (heap both_directions) e = 0
                   ∨ dest_of (heap both_directions) e = 0)
                ∧ p = (pretty (source_of (heap both_directions) e + 1),
                       pretty (dest_of (heap both_directions) e + 1)).
Proof.
  apply (get_edges_of_clicks both_directions 0).
  - apply both_directions_reachable.
  - vm_compute. repeat constructor.
Defined.

(** ** Selecting and unselecting *)

(** X6 — with no node selected, a left double-click on a node selects
    it and changes nothing else but the message.  From there a left
    double-click on that same node, a left double-click on an edge, a
    right double-click (which at most opens the metadata editor), or a
    middle double-click anywhere but on the selected node leave the
    view as it is, and a middle double-click on the selected node
    gives back the state before the selection, under the message
    "Selected Node: None". *)
Theorem select_then_unselect v n p q :
  _selectedNode v = None →
  let v1 := mouseDoubleClickEvent v (left (Some (INode n)) p) in
  v1 = showMessage (set_selected v (Some n))
                   ("Selected Node: " +:+ _name (node_at (heap v) n))
  ∧ mouseDoubleClickEvent v1 (left (Some (INode n)) q) = v1
  ∧ (∀ e, mouseDoubleClickEvent v1 (left (Some (IEdge e)) q) = v1)
  ∧ (∀ it, mouseDoubleClickEvent v1 (mkEvent RightButton it q) = v1)
  ∧ (∀ it, it ≠ Some (INode n) →
       mouseDoubleClickEvent v1 (mkEvent MiddleButton it q) = v1)
  ∧ mouseDoubleClickEvent v1 (mkEvent MiddleButton (Some (INode n)) q)
    = showMessage v "Selected Node: None".
Proof.
  intros Hsel. cbv zeta.
  assert (H1 : mouseDoubleClickEvent v (left (Some (INode n)) p)
               = showMessage (set_selected v (Some n))
                   ("Selected Node: " +:+ _name (node_at (heap v) n))).
  { unfold mouseDoubleClickEvent, left. cbn [ev_button ev_item]. by rewrite Hsel. }
  rewrite H1. split_and!.
  - done.
  - unfold mouseDoubleClickEvent, left.
    cbn [ev_button ev_item showMessage set_selected _selectedNode].
    by rewrite bool_decide_eq_false_2 by (intros H; by apply H).
  - done.
  - done.
  - intros it Hit. unfold mouseDoubleClickEvent.
    cbn [ev_button ev_item showMessage set_selected _selectedNode].
    destruct it as [[m|e]|]; try done.
    by rewrite bool_decide_eq_false_2 by congruence.
  - unfold mouseDoubleClickEvent.
    cbn [ev_button ev_item showMessage set_selected _selectedNode].
    rewrite bool_decide_eq_true_2 by done.
    destruct v. cbn in *. by subst.
Qed.

Lemma select_then_unselect_witness :
  let v := two_nodes in
  let v1 := mouseDoubleClickEvent v (left (Some (INode 0)) (0, 0)%Z) in
  v1 = showMessage (set_selected v (Some 0))
                   ("Selected Node: " +:+ _name (node_at (heap v) 0))
  ∧ mouseDoubleClickEvent v1 (left (Some (INode 0)) (1, 1)%Z) = v1
  ∧ (∀ e, mouseDoubleClickEvent v1 (left (Some (IEdge e)) (1, 1)%Z) = v1)
  ∧ (∀ it, mouseDoubleClickEvent v1 (mkEvent RightButton it (1, 1)%Z) = v1)
  ∧ (∀ it, it ≠ Some (INode 0) →
       mouseDoubleClickEvent v1 (mkEvent MiddleButton it (1, 1)%Z) = v1)
  ∧ mouseDoubleClickEvent v1 (mkEvent MiddleButton (Some (INode 0)) (1, 1)%Z)
    = showMessage v "Selected Node: None".
Proof.
  apply (select_then_unselect two_nodes 0 (0, 0)%Z (1, 1)%Z). reflexivity.
Defined.

(** ** Loading and saving through the window *)

(** X7 — when the path is longer than 3 and no such file exists,
    [load_graph] raises FileNotFoundError, and by then it has emptied
    the scene and the name index: the graph that was displayed is gone
    (its export is empty), the message is the one of before. *)
Theorem load_graph_missing_file fs v :
  3 < String.length (_file v) → fs !! _file v = None →
  load_graph fs v
  = (set_nodes_map (set_scene v []) ∅, Raised (FileNotFoundError (_file v)))
  ∧ save_graph (load_graph fs v).1 = []
  ∧ _status (load_graph fs v).1 = _status v.
Proof.
  intros Hlen Hf.
  assert (H : load_graph fs v
    = (set_nodes_map (set_scene v []) ∅, Raised (FileNotFoundError (_file v)))).
  { unfold load_graph. rewrite bool_decide_eq_false_2 by lia.
    cbn [set_nodes_map set_scene _file]. by rewrite Hf. }
  by rewrite H.
Qed.

Lemma load_graph_missing_file_witness :
  let v := set_file both_directions "g.json" in
  load_graph ∅ v
  = (set_nodes_map (set_scene v []) ∅, Raised (FileNotFoundError (_file v)))
  ∧ save_graph (load_graph ∅ v).1 = []
  ∧ _status (load_graph ∅ v).1 = _status v.
Proof.
  apply (load_graph_missing_file ∅ (set_file both_directions "g.json")).
  - vm_compute. lia.
  - reflexivity.
Defined.

(** What a load that returns leaves besides the graph: the path, and
    the message. *)
Lemma load_graph_returned fs v doc :
  3 < String.length (_file v) → fs !! _file v = Some doc →
  (load_graph fs v).2 = Returned →
  _file (load_graph fs v).1 = _file v
  ∧ _status (load_graph fs v).1 = "File " +:+ _file v +:+ " opened.".
Proof.
  intros Hlen Hdoc Hret.
  destruct (load_graph_spec fs v doc Hlen Hdoc) as (dn & Hl & _).
  destruct (load_start_spec v doc) as (_ & _ & _ & _ & _ & Hf & _).
  destruct (ld_rest _ _ _ _ Hl) as [Hf' _].
  split; [congruence|].
  revert Hret Hf'. rewrite (load_graph_unfold fs v doc Hlen Hdoc).
  destruct (load_edges _ _) as [w [|e]]; [|done].
  cbn [fst snd showMessage _status _file]. intros _ Hw. congruence.
Qed.

Lemma load_graph_file fs v : _file (load_graph fs v).1 = _file v.
Proof.
  destruct (decide (3 < String.length (_file v))) as [Hlen|Hlen].
  - destruct (fs !! _file v) as [doc|] eqn:Hdoc.
    + destruct (load_graph_spec fs v doc Hlen Hdoc) as (dn & Hl & _).
      destruct (load_start_spec v doc) as (_ & _ & _ & _ & _ & Hf & _).
      destruct (ld_rest _ _ _ _ Hl) as [Hf' _]. congruence.
    + unfold load_graph. rewrite bool_decide_eq_false_2 by lia.
      cbn [set_nodes_map set_scene _file]. by rewrite Hdoc.
  - unfold load_graph. by rewrite bool_decide_eq_true_2 by lia.
Qed.

(** X8 — [currentLoad] reports "quickloaded" whenever [load_graph]
    returns, also when the path is too short and nothing was read: the
    message "is corrupted" of [load_graph] is overwritten at once and
    the graph is the one of before.  When [load_graph] raises, so does
    [currentLoad], in the state [load_graph] left. *)
Theorem currentLoad_message fs v :
  (String.length (_file v) ≤ 3 →
     currentLoad fs v
     = (showMessage v ("File " +:+ _file v +:+ " quickloaded."), Returned))
  ∧ ((load_graph fs v).2 = Returned →
       currentLoad fs v
       = (showMessage (load_graph fs v).1
            ("File " +:+ _file v +:+ " quickloaded."), Returned))
  ∧ (∀ e, (load_graph fs v).2 = Raised e → currentLoad fs v = load_graph fs v).
Proof.
  split_and!.
  - intros Hlen. unfold currentLoad, load_graph.
    by rewrite bool_decide_eq_true_2 by lia.
  - intros Hret. pose proof (load_graph_file fs v) as Hf. unfold currentLoad.
    destruct (load_graph fs v) as [w o]. cbn [fst snd] in *. subst o.
    by rewrite Hf.
  - intros e He. unfold currentLoad.
    destruct (load_graph fs v) as [w o]. cbn [snd] in He. by subst o.
Qed.

Lemma currentLoad_message_witness :
  let v := set_file both_directions "a.j" in
  currentLoad ∅ v = (showMessage v "File a.j quickloaded.", Returned)
  ∧ currentLoad ∅ (set_file v "g.json") = load_graph ∅ (set_file v "g.json").
Proof.
  split.
  - apply (proj1 (currentLoad_message ∅ (set_file both_directions "a.j"))).
    vm_compute. lia.
  - apply (proj2 (proj2 (currentLoad_message ∅
             (set_file (set_file both_directions "a.j") "g.json")))
             (FileNotFoundError "g.json")).
    reflexivity.
Defined.

(** X9 — saving under a name longer than 3 through the dialog and
    opening that name through the dialog: the load returns, the path of
    the view is that name and the message "File ... opened."; the graph
    then exported has the same node records up to order (edge pairs
    apart) and the same set of edge pairs as the graph that was saved.
    No other file is written. *)
Theorem save_then_load fileName fs v :
  closed v → 3 < String.length fileName →
  let fs' := (save fileName fs v).1 in
  let r := load fileName fs' (save fileName fs v).2 in
  r.2 = Returned
  ∧ _file r.1 = fileName
  ∧ _status r.1 = "File " +:+ fileName +:+ " opened."
  ∧ record_frame <$> save_graph r.1 ≡ₚ record_frame <$> save_graph v
  ∧ (∀ p, p ∈ all_pairs (save_graph r.1) ↔ p ∈ all_pairs (save_graph v))
  ∧ ∀ other, other ≠ fileName → fs' !! other = fs !! other.
Proof.
  intros Hc Hlen. cbv zeta. unfold save, load.
  rewrite (bool_decide_eq_true_2 (3 ≤ String.length fileName)) by lia.
  cbn [fst snd].
  rewrite (bool_decide_eq_true_2 (fileName ≠ ""))
    by (intros ->; cbn in Hlen; lia).
  set (w := set_file (showMessage v ("File " +:+ fileName +:+ " saved.")) fileName).
  set (fs' := <[fileName := save_graph v]> fs).
  assert (Hw : 3 < String.length (_file w)) by done.
  assert (Hdoc : fs' !! _file w = Some (save_graph v)) by apply lookup_insert_eq.
  assert (Hret : (load_graph fs' w).2 = Returned).
  { apply (load_graph_returns fs' w (save_graph v) Hw Hdoc).
    intros p Hp. by apply save_graph_resolves. }
  destruct (load_graph_returned fs' w _ Hw Hdoc Hret) as [Hf Hs].
  split_and!; try done.
  - rewrite (load_graph_frames fs' w (save_graph v) Hw Hdoc).
    apply reverse_Permutation.
  - intros p. by apply load_graph_export_pairs.
  - intros other Hne. unfold fs'. by rewrite lookup_insert_ne.
Qed.

Lemma save_then_load_witness :
  let v := both_directions in
  let fs' := (save "g.json" ∅ v).1 in
  let r := load "g.json" fs' (save "g.json" ∅ v).2 in
  r.2 = Returned
  ∧ _file r.1 = "g.json"
  ∧ _status r.1 = "File " +:+ "g.json" +:+ " opened."
  ∧ record_frame <$> save_graph r.1 ≡ₚ record_frame <$> save_graph v
  ∧ (∀ p, p ∈ all_pairs (save_graph r.1) ↔ p ∈ all_pairs (save_graph v))
  ∧ ∀ other, other ≠ "g.json" → fs' !! other = (∅ : gmap string (list node_record)) !! other.
Proof.
  apply (save_then_load "g.json" ∅ both_directions).
  - apply reachable_closed, both_directions_reachable.
  - vm_compute. lia.
Defined.

Lemma currentLoad_returned fs v :
  (load_graph fs v).2 = Returned →
  (currentLoad fs v).2 = Returned
  ∧ _status (currentLoad fs v).1 = "File " +:+ _file v +:+ " quickloaded."
  ∧ save_graph (currentLoad fs v).1 = save_graph (load_graph fs v).1.
Proof.
  intros Hret. pose proof (load_graph_file fs v) as Hf. unfold currentLoad.
  destruct (load_graph fs v) as [w o]. cbn [fst snd] in *. subst o.
  cbn [fst snd showMessage _status]. by rewrite Hf.
Qed.

(** X10 — quick save then quick load under a path longer than 3: the
    load returns with the message "File ... quickloaded.", and the
    graph then exported has the same node records up to order (edge
    pairs apart) and the same set of edge pairs as before. *)
Theorem quickSave_then_currentLoad fs v :
  closed v → 3 < String.length (_file v) →
  let r := currentLoad (quickSave fs v).1 (quickSave fs v).2 in
  r.2 = Returned
  ∧ _status r.1 = "File " +:+ _file v +:+ " quickloaded."
  ∧ (quickSave fs v).1 !! _file v = Some (save_graph v)
  ∧ record_frame <$> save_graph r.1 ≡ₚ record_frame <$> save_graph v
  ∧ ∀ p, p ∈ all_pairs (save_graph r.1) ↔ p ∈ all_pairs (save_graph v).
Proof.
  intros Hc Hlen. cbv zeta. unfold quickSave.
  rewrite bool_decide_eq_true_2 by lia. cbn [fst snd].
  set (w := showMessage v ("File " +:+ _file v +:+ " quicksaved.")).
  set (fs' := <[_file v := save_graph v]> fs).
  assert (Hw : 3 < String.length (_file w)) by done.
  assert (Hdoc : fs' !! _file w = Some (save_graph v)) by apply lookup_insert_eq.
  assert (Hret : (load_graph fs' w).2 = Returned).
  { apply (load_graph_returns fs' w (save_graph v) Hw Hdoc).
    intros p Hp. by apply save_graph_resolves. }
  destruct (currentLoad_returned fs' w Hret) as (Hr & Hs & Hg).
  split_and!; try done.
  - rewrite Hg, (load_graph_frames fs' w (save_graph v) Hw Hdoc).
    apply reverse_Permutation.
  - intros p. rewrite Hg. by apply load_graph_export_pairs.
Qed.

Lemma quickSave_then_currentLoad_witness :
  let v := set_file both_directions "g.json" in
  let r := currentLoad (quickSave ∅ v).1 (quickSave ∅ v).2 in
  r.2 = Returned
  ∧ _status r.1 = "File " +:+ _file v +:+ " quickloaded."
  ∧ (quickSave ∅ v).1 !! _file v = Some (save_graph v)
  ∧ record_frame <$> save_graph r.1 ≡ₚ record_frame <$> save_graph v
  ∧ ∀ p, p ∈ all_pairs (save_graph r.1) ↔ p ∈ all_pairs (save_graph v).
Proof.
  apply (quickSave_then_currentLoad ∅ (set_file both_directions "g.json")).
  - intros n e Hn He.
    apply (reachable_closed both_directions both_directions_reachable n e Hn He).
  - vm_compute. lia.
Defined.

(** ** Documents with a repeated node name *)

(** The index keeps, for a name, the last node object entered under
    it. *)
Lemma build_index_last m base doc k i :
  build_index m base doc !! k = Some i →
  ∀ j r, doc !! j = Some r → rec_name r = k → base + j ≤ i.
Proof.
  revert m base. induction doc as [|r0 doc IH]; intros m base Hi j r Hj Hr; [done|].
  cbn [build_index] in Hi. destruct j as [|j]; cbn in Hj.
  - injection Hj as ->. subst k.
    apply build_index_found in Hi as [[Hi _]|[Hi _]]; [|lia].
    rewrite lookup_insert_eq in Hi. injection Hi as <-. lia.
  - specialize (IH _ _ Hi j r Hj Hr). lia.
Qed.

(** X11 — when several node objects of a document carry the same name,
    every edge of the loaded graph that names it is attached to the
    last of them: a live edge after a load that returned joins the
    nodes made from the last node objects named as its pair says. *)
Theorem import_last_record_wins fs v doc e :
  3 < String.length (_file v) → fs !! _file v = Some doc →
  live (load_graph fs v).1 e →
  let v' := (load_graph fs v).1 in
  let base := length (nodes (heap v)) in
  ∃ i j,
    source_of (heap v') e = base + i ∧ dest_of (heap v') e = base + j
    ∧ rec_name <$> doc !! i = Some (edge_pair (heap v') e).1
    ∧ rec_name <$> doc !! j = Some (edge_pair (heap v') e).2
    ∧ (∀ i' r, doc !! i' = Some r →
         rec_name r = (edge_pair (heap v') e).1 → i' ≤ i)
    ∧ (∀ j' r, doc !! j' = Some r →
         rec_name r = (edge_pair (heap v') e).2 → j' ≤ j).
Proof.
  intros Hlen Hdoc He. cbv zeta.
  destruct (load_graph_spec fs v doc Hlen Hdoc) as (dn & Hl & _).
  destruct (load_start_spec v doc) as (_ & _ & Hsc & Hmap & _).
  pose proof (load_start_index_ok v doc) as Hok.
  set (w1 := (load_start v doc).1) in *.
  assert (Hs : e ∈ seq (length (edges (heap w1))) (length dn)).
  { rewrite <- (loading_scene_edges _ _ _ _ Hl).
    - by apply scene_edges_elem.
    - rewrite Hsc. apply omap_item_edge_nodes. }
  apply elem_of_seq in Hs.
  assert (Hj : is_Some (dn !! (e - length (edges (heap w1))))).
  { apply lookup_lt_is_Some. lia. }
  destruct Hj as [p Hj].
  pose proof (loading_edge_at _ _ _ _ _ _ Hl Hj) as Hat.
  destruct (loading_pair _ _ _ _ _ _ Hl Hok Hj) as (Hpair & _ & _).
  replace (length (edges (heap w1)) + (e - length (edges (heap w1))))
    with e in * by lia.
  destruct (ld_resolved _ _ _ _ Hl p) as [[i Hi] [j Hj']].
  { by eapply list_elem_of_lookup_2. }
  rewrite Hpair. unfold source_of, dest_of. rewrite Hat. unfold edge_of.
  rewrite Hi, Hj'. cbn [default from_option id _source _dest].
  rewrite Hmap in Hi, Hj'.
  pose proof (build_index_empty (length (nodes (heap v))) doc p.1) as Bi.
  pose proof (build_index_empty (length (nodes (heap v))) doc p.2) as Bj.
  rewrite Hi in Bi. rewrite Hj' in Bj.
  destruct Bi as [Bi Ni], Bj as [Bj Nj].
  exists (i - length (nodes (heap v))), (j - length (nodes (heap v))).
  split_and!; try done; try lia.
  - intros i' r Hr Hn. pose proof (build_index_last _ _ _ _ _ Hi i' r Hr Hn). lia.
  - intros j' r Hr Hn. pose proof (build_index_last _ _ _ _ _ Hj' j' r Hr Hn). lia.
Qed.

Lemma import_last_record_wins_witness :
  let v' := (load_graph (stored doc_3_1) (GraphView_init "g.json")).1 in
  ∃ i j,
    source_of (heap v') 0 = 0 + i ∧ dest_of (heap v') 0 = 0 + j
    ∧ rec_name <$> doc_3_1 !! i = Some (edge_pair (heap v') 0).1
    ∧ rec_name <$> doc_3_1 !! j = Some (edge_pair (heap v') 0).2
    ∧ (∀ i' r, doc_3_1 !! i' = Some r →
         rec_name r = (edge_pair (heap v') 0).1 → i' ≤ i)
    ∧ (∀ j' r, doc_3_1 !! j' = Some r →
         rec_name r = (edge_pair (heap v') 0).2 → j' ≤ j).
Proof.
  apply (import_last_record_wins (stored doc_3_1) (GraphView_init "g.json") doc_3_1 0).
  - vm_compute. lia.
  - reflexivity.
  - vm_compute. repeat constructor.
Defined.

(** ** Both lists of an edge *)

(** X12 — in every state reached by
    double-clicks from the empty scene, and in the state a load leaves
    (whatever the view held before), every live edge is in the edge
    list of its source and in the edge list of its destination; in the
    states reached by double-clicks an edge is moreover in the list of
    one endpoint exactly when it is in the list of the other. *)
Theorem adjacency_symmetry :
  (∀ v, reachable v →
     adjacency_symmetric v
     ∧ ∀ e, e ∈ edges_in (heap v) (source_of (heap v) e)
            ↔ e ∈ edges_in (heap v) (dest_of (heap v) e))
  ∧ (∀ fs v doc,
       3 < String.length (_file v) → fs !! _file v = Some doc →
       adjacency_symmetric (load_graph fs v).1).
Proof.
  split; [|apply load_graph_symmetric].
  intros v Hr. pose proof (reachable_consistent v Hr) as Hc. split.
  - intros e He. by destruct (cons_edge v Hc e He) as (_ & _ & _ & ? & ?).
  - intros e. split; intros He; apply (cons_list v Hc) in He as [Hl _];
      by destruct (cons_edge v Hc e Hl) as (_ & _ & _ & ? & ?).
Qed.

Lemma adjacency_symmetry_witness :
  adjacency_symmetric both_directions
  ∧ adjacency_symmetric (load_graph (stored doc_3_1) (GraphView_init "g.json")).1.
Proof.
  destruct adjacency_symmetry as [Hclick Hload]. split.
  - apply (Hclick both_directions both_directions_reachable).
  - apply (Hload (stored doc_3_1) (GraphView_init "g.json") doc_3_1).
    + vm_compute. lia.
    + reflexivity.
Defined.

(** ** The edge list of one node *)

(** X13 — [add_edge] on a node of the heap appends the edge to the list
    of that node once, and only when the list is empty or the name pair
    of the edge is among the pairs of neither the node nor the
    destination of the edge; otherwise it changes nothing.  It appends
    at most once (the empty-list shortcut is not followed by a second
    append), and touches no other node and no edge. *)
Theorem add_edge_once h self e :
  self < length (nodes h) →
  let h' := add_edge h self e in
  edges h' = edges h
  ∧ strip <$> nodes h' = strip <$> nodes h
  ∧ (∀ i, i ≠ self → edges_in h' i = edges_in h i)
  ∧ (registers h self e → edges_in h' self = edges_in h self ++ [e])
  ∧ (¬ registers h self e → h' = h).
Proof.
  intros Hs. cbv zeta.
  assert (Hdec : registers h self e ∨ ¬ registers h self e).
  { unfold registers. destruct (decide (edges_in h self = [])); [by left; left|].
    destruct (decide (edge_pair h e ∈ get_edges h self)); [right; tauto|].
    destruct (decide (edge_pair h e ∈ get_edges h (dest_of h e))); [right; tauto|].
    left. by right. }
  destruct Hdec as [Hr|Hr].
  - rewrite (add_edge_registers h self e Hs Hr). split_and!.
    + apply append_edge_edges.
    + apply append_edge_strip.
    + intros i Hi. rewrite append_edge_edges_in by done.
      rewrite bool_decide_eq_false_2 by done. apply app_nil_r.
    + intros _. rewrite append_edge_edges_in by done.
      by rewrite bool_decide_eq_true_2 by done.
    + done.
  - rewrite (add_edge_skips h self e Hr). split_and!; done.
Qed.

Lemma add_edge_once_witness :
  let h := heap two_nodes in
  let h0 := alloc_edge h 0 1 in
  let h' := add_edge h0 0 0 in
  edges h' = edges h0
  ∧ strip <$> nodes h' = strip <$> nodes h0
  ∧ (∀ i, i ≠ 0 → edges_in h' i = edges_in h0 i)
  ∧ (registers h0 0 0 → edges_in h' 0 = edges_in h0 0 ++ [0])
  ∧ (¬ registers h0 0 0 → h' = h0).
Proof.
  apply (add_edge_once (alloc_edge (heap two_nodes) 0 1) 0 0).
  vm_compute. lia.
Defined.

Lemma registers_dec h self e : registers h self e ∨ ¬ registers h self e.
Proof.
  unfold registers. destruct (decide (edges_in h self = [])); [by left; left|].
  destruct (decide (edge_pair h e ∈ get_edges h self)); [right; tauto|].
  destruct (decide (edge_pair h e ∈ get_edges h (dest_of h e))); [right; tauto|].
  left. by right.
Qed.

Lemma same_ends_pair h a b :
  same_ends h a b = true → edge_pair h a = edge_pair h b.
Proof.
  intros [Hs Hd]%same_ends_true. unfold edge_pair.
  fold (source_of h a) (dest_of h a) (source_of h b) (dest_of h b).
  by rewrite Hs, Hd.
Qed.

(** X14 — [add_edge] keeps the list of its node well formed, whatever
    the heap: if the list held no edge twice and no two edges with the
    same source and destination, it still does afterwards (an edge
    already listed, or one with the endpoints of a listed edge, has its
    name pair among the pairs of the node and is not appended).  So
    [del_edge] always meets at most one edge to remove. *)
Theorem add_edge_keeps_list_ok h self e :
  self < length (nodes h) → list_ok h self → list_ok (add_edge h self e) self.
Proof.
  intros Hs [Hnd Hu]. destruct (registers_dec h self e) as [Hr|Hr].
  2:{ by rewrite (add_edge_skips h self e Hr). }
  rewrite (add_edge_registers h self e Hs Hr).
  assert (Hnew : ∀ a, a ∈ edges_in h self → same_ends h a e = true → False).
  { intros a Ha Hsame. destruct Hr as [Hr|[Hr _]].
    - rewrite Hr in Ha. by apply not_elem_of_nil in Ha.
    - apply Hr. rewrite get_edges_in. apply list_elem_of_fmap.
      exists a. split; [|done]. symmetry. by apply same_ends_pair. }
  assert (Hsame : ∀ a b, same_ends (append_edge h self e) a b = same_ends h a b)
    by done.
  unfold list_ok. rewrite append_edge_edges_in by done.
  rewrite bool_decide_eq_true_2 by done. split.
  - apply NoDup_app. split_and!; [done| |apply NoDup_singleton].
    intros a Ha ->%list_elem_of_singleton.
    apply (Hnew e Ha), same_ends_self.
  - intros a b Ha Hb. rewrite Hsame. intros Hab.
    apply elem_of_app in Ha as [Ha|Ha%list_elem_of_singleton],
          Hb as [Hb|Hb%list_elem_of_singleton]; subst.
    + by apply Hu.
    + by destruct (Hnew a Ha).
    + destruct (Hnew b Hb). apply same_ends_true in Hab as [H1 H2].
      apply same_ends_true. by split.
    + done.
Qed.

Lemma add_edge_keeps_list_ok_witness :
  list_ok (add_edge (alloc_edge (heap two_nodes) 0 1) 0 0) 0.
Proof.
  apply (add_edge_keeps_list_ok (alloc_edge (heap two_nodes) 0 1) 0 0).
  - vm_compute. lia.
  - split.
    + vm_compute. constructor.
    + intros a b Ha. vm_compute in Ha. destruct (not_elem_of_nil _ Ha).
Defined.

Lemma list_remove_at (l : list nat) i e :
  NoDup l → l !! i = Some e → list_remove e l = take i l ++ drop (S i) l.
Proof.
  revert i. induction l as [|y l IH]; intros i Hnd Hi; [done|].
  apply NoDup_cons in Hnd as [Hy Hnd]. cbn [list_remove].
  destruct i as [|i]; cbn in Hi.
  - injection Hi as ->. by rewrite bool_decide_eq_true_2 by done.
  - rewrite bool_decide_eq_false_2.
    + cbn [take drop app]. f_equal. by apply IH.
    + intros ->. apply Hy. by eapply list_elem_of_lookup_2.
Qed.

Lemma list_remove_NoDup (l : list nat) e : NoDup l → NoDup (list_remove e l).
Proof.
  intros H. rewrite list_remove_filter by done. by apply NoDup_filter.
Qed.

Lemma take_take_le {A} (l : list A) n m : n ≤ m → take n (take m l) = take n l.
Proof. intros H. by rewrite take_take, Nat.min_l. Qed.

(** The loop of [del_edge] never looks back: what lies before the
    index is kept. *)
Lemma del_edge_loop_take same fuel i (l : list nat) :
  NoDup l → take i (del_edge_loop same fuel i l) = take i l.
Proof.
  revert i l. induction fuel as [|fuel IH]; intros i l Hnd; [done|].
  cbn [del_edge_loop]. destruct (l !! i) as [e|] eqn:E; [|done].
  destruct (same e).
  - assert (Hi : i < length l) by by eapply lookup_lt_Some.
    rewrite <- (take_take_le _ i (S i)) by lia.
    rewrite IH by by apply list_remove_NoDup.
    rewrite take_take_le by lia.
    rewrite (list_remove_at l i e Hnd E).
    rewrite take_app_le by (rewrite length_take; lia).
    rewrite take_take_le by lia. done.
  - rewrite <- (take_take_le _ i (S i)) by lia.
    rewrite IH by done. by rewrite take_take_le by lia.
Qed.

(** X15 — [del_edge] on a node whose list holds no edge twice: if no
    edge of the list has the endpoints of the given edge the list is
    unchanged; if exactly one has, that one leaves and the others keep
    their order.  No other node and no edge is touched. *)
Theorem del_edge_unique_match h self edge :
  NoDup (edges_in h self) →
  let h' := del_edge h self edge in
  edges h' = edges h
  ∧ strip <$> nodes h' = strip <$> nodes h
  ∧ (∀ i, i ≠ self → edges_in h' i = edges_in h i)
  ∧ ((∀ e, e ∈ edges_in h self → same_ends h edge e = false) →
       edges_in h' self = edges_in h self)
  ∧ (∀ e0, e0 ∈ edges_in h self → same_ends h edge e0 = true →
       (∀ e, e ∈ edges_in h self → same_ends h edge e = true → e = e0) →
       edges_in h' self = filter (λ y, y ≠ e0) (edges_in h self)).
Proof.
  intros Hnd. cbv zeta. split_and!.
  - apply del_edge_edges.
  - apply del_edge_strip.
  - intros i Hi. by apply del_edge_edges_in_ne.
  - intros Hno. destruct (decide (self < length (nodes h))) as [Hlt|Hge].
    + unfold edges_in at 1. unfold del_edge. rewrite node_at_set_node_eq by done.
      cbn [_edges with_edges]. by apply del_edge_loop_none.
    + unfold del_edge. by rewrite set_node_ge by lia.
  - intros e0 He0 Hsame Hu. destruct (decide (self < length (nodes h))) as [Hlt|Hge].
    + unfold edges_in at 1. unfold del_edge. rewrite node_at_set_node_eq by done.
      cbn [_edges with_edges]. by apply del_edge_loop_spec.
    + exfalso. revert He0. unfold edges_in, node_at.
      rewrite list_lookup_total_alt, lookup_ge_None_2 by lia.
      apply not_elem_of_nil.
Qed.

Lemma del_edge_unique_match_witness :
  let h := heap both_directions in
  let h' := del_edge h 0 1 in
  edges h' = edges h
  ∧ strip <$> nodes h' = strip <$> nodes h
  ∧ (∀ i, i ≠ 0 → edges_in h' i = edges_in h i)
  ∧ ((∀ e, e ∈ edges_in h 0 → same_ends h 1 e = false) →
       edges_in h' 0 = edges_in h 0)
  ∧ (∀ e0, e0 ∈ edges_in h 0 → same_ends h 1 e0 = true →
       (∀ e, e ∈ edges_in h 0 → same_ends h 1 e = true → e = e0) →
       edges_in h' 0 = filter (λ y, y ≠ e0) (edges_in h 0)).
Proof.
  apply (del_edge_unique_match (heap both_directions) 0 1).
  apply (bool_decide_unpack _). vm_compute. exact I.
Defined.

(** The loop only removes. *)
Lemma list_remove_sub (l : list nat) e x : x ∈ list_remove e l → x ∈ l.
Proof.
  induction l as [|y l IH]; [done|]. cbn [list_remove].
  case_bool_decide as E.
  - intros Hx. by right.
  - intros Hx. apply elem_of_cons in Hx as [->|Hx]; [by left|].
    right. by apply IH.
Qed.

Lemma del_edge_loop_sub same fuel i (l : list nat) x :
  x ∈ del_edge_loop same fuel i l → x ∈ l.
Proof.
  revert i l. induction fuel as [|fuel IH]; intros i l; [done|].
  cbn [del_edge_loop]. destruct (l !! i) as [e|]; [|done].
  destruct (same e); [|apply IH].
  intros H. apply IH in H. by eapply list_remove_sub.
Qed.

(** X16 — [del_edge] removes from the list it is iterating over, so the
    edge that follows a removed one is never examined: when the first
    two edges of a list without repetition both have the endpoints of
    the given edge, only the first leaves and the second stays at the
    head of the list. *)
Theorem del_edge_skips_next h self edge e1 e2 rest :
  self < length (nodes h) →
  edges_in h self = e1 :: e2 :: rest → NoDup (e1 :: e2 :: rest) →
  same_ends h edge e1 = true →
  ∃ rest', edges_in (del_edge h self edge) self = e2 :: rest'
           ∧ e1 ∉ rest'.
Proof.
  intros Hs Hl Hnd H1.
  unfold edges_in at 1. unfold del_edge. rewrite node_at_set_node_eq by done.
  cbn [_edges with_edges]. fold (edges_in h self). rewrite Hl.
  change (length (e1 :: e2 :: rest)) with (S (S (length rest))).
  generalize (S (length rest)). intros fuel.
  cbn [del_edge_loop lookup list_lookup]. rewrite H1.
  cbn [list_remove]. rewrite bool_decide_eq_true_2 by done.
  apply NoDup_cons in Hnd as [Hn1 Hnd].
  pose proof (del_edge_loop_take (same_ends h edge) fuel 1 (e2 :: rest) Hnd) as Ht.
  pose proof (del_edge_loop_sub (same_ends h edge) fuel 1 (e2 :: rest)) as Hsub.
  destruct (del_edge_loop _ _ _ _) as [|x rest']; [done|].
  cbn [take] in Ht. injection Ht as ->. exists rest'. split; [done|].
  intros Hin. apply Hn1, Hsub. by right.
Qed.

Lemma del_edge_skips_next_witness :
  ∃ rest', edges_in (del_edge twin_edges 0 0) 0 = 1 :: rest' ∧ 0 ∉ rest'.
Proof.
  apply (del_edge_skips_next twin_edges 0 0 0 1 []).
  - vm_compute. lia.
  - reflexivity.
  - apply (bool_decide_unpack _). vm_compute. exact I.
  - reflexivity.
Defined.

(** ** The metadata editor *)

Lemma dict_get_set_eq k v d : dict_get k (dict_set k v d) = Some v.
Proof.
  induction d as [|[k' v'] d IH]; cbn [dict_set dict_get].
  - by rewrite bool_decide_eq_true_2.
  - case_bool_decide as E; cbn [dict_get].
    + by rewrite bool_decide_eq_true_2.
    + by rewrite bool_decide_eq_false_2.
Qed.

Lemma dict_get_set_ne k k' v d :
  k ≠ k' → dict_get k (dict_set k' v d) = dict_get k d.
Proof.
  intros Hne. induction d as [|[k0 v0] d IH]; cbn [dict_set dict_get].
  - by rewrite bool_decide_eq_false_2.
  - case_bool_decide as E; cbn [dict_get].
    + subst k0. by rewrite !bool_decide_eq_false_2 by done.
    + by rewrite IH.
Qed.


Lemma table_item_app_r (pre rest : list (option QTableWidgetItem * option QTableWidgetItem))
    r j :
  table_item (pre ++ r :: rest) (length pre) j
  = if bool_decide (j = 0) then r.1 else if bool_decide (j = 1) then r.2 else None.
Proof.
  unfold table_item. rewrite lookup_app_r by lia.
  by rewrite Nat.sub_diag.
Qed.

(** The rows after the third in the loop of [change_celldata]. *)
Lemma celldata_loop_rest pre rest title nd :
  3 ≤ length pre →
  celldata_loop (pre ++ rest) (seq (length pre) (length rest)) (title, nd)
  = (title, mkNodeData (nd_top nd) (data_rows rest (nd_data nd)), None).
Proof.
  revert pre nd. induction rest as [|r rest IH]; intros pre nd Hpre.
  - by destruct nd.
  - cbn [length seq celldata_loop]. unfold celldata_row.
    rewrite (bool_decide_eq_false_2 (length pre = 1)) by lia.
    rewrite !table_item_app_r.
    rewrite (bool_decide_eq_true_2 (0 = 0)) by done.
    rewrite (bool_decide_eq_false_2 (1 = 0)) by done.
    rewrite (bool_decide_eq_true_2 (1 = 1)) by done.
    rewrite (bool_decide_eq_false_2 (length pre ≤ 2)) by lia.
    assert (Hnext : ∀ nd',
      celldata_loop (pre ++ r :: rest) (seq (S (length pre)) (length rest)) (title, nd')
      = (title, mkNodeData (nd_top nd') (data_rows rest (nd_data nd')), None)).
    { intros nd'. specialize (IH (pre ++ [r]) nd').
      rewrite <- app_assoc, length_app in IH. cbn [app length] in IH.
      rewrite Nat.add_1_r in IH. apply IH. lia. }
    destruct r as [[k|] [v|]]; cbn [fst snd data_rows foldl]; try apply Hnext.
    case_bool_decide; apply Hnext.
Qed.

(** [change_celldata] on a table that starts with the three head rows:
    the node takes its name and colors from the head rows and its data
    from the other rows, and [reload] returns. *)
Lemma change_celldata_spec h tn name color textcolor rest :
  table tn = head_rows name color textcolor ++ rest →
  let top := dict_set "textcolor" (text textcolor)
               (dict_set "color" (text color)
                  (dict_set "name" (text name) (nd_top (_nodeData tn)))) in
  let data := data_rows rest (nd_data (_nodeData tn)) in
  let self := node_at h (node tn) in
  change_celldata h tn
  = (set_node h (node tn)
       {| _name := text name; _data := data; _edges := _edges self;
          _textcolor := text textcolor; _color := text color;
          _radius := _radius self; pos := pos self |},
     {| node := node tn; windowTitle := text name; table := table tn;
        _nodeData := mkNodeData top data |},
     Reloaded Returned).
Proof.
  intros Ht. cbv zeta. unfold change_celldata. rewrite Ht.
  rewrite length_app.
  change (length (head_rows name color textcolor)) with 3.
  change (seq 0 (3 + length rest)) with (0 :: 1 :: 2 :: seq 3 (length rest)).
  cbn [celldata_loop].
  unfold celldata_row. cbn [head_rows app table_item lookup list_lookup fst snd].
  repeat (first [ rewrite bool_decide_eq_true_2 by (done || lia)
                | rewrite bool_decide_eq_false_2 by (done || lia) ]).
  cbn [text fmap option_fmap option_map].
  pose proof (celldata_loop_rest (head_rows name color textcolor) rest) as Hrest.
  cbn [head_rows app length] in Hrest.
  rewrite Hrest by lia. cbn [nd_top nd_data].
  rewrite dict_get_set_eq.
  rewrite (dict_get_set_ne "color" "textcolor") by done. rewrite dict_get_set_eq.
  rewrite (dict_get_set_ne "name" "textcolor") by done.
  rewrite (dict_get_set_ne "name" "color") by done. rewrite dict_get_set_eq.
  done.
Qed.

Lemma setItem_here (done : list (option QTableWidgetItem * option QTableWidgetItem))
    r rest j x :
  setItem (done ++ r :: rest) (length done) j x
  = done ++ (if bool_decide (j = 0) then (Some x, r.2)
             else if bool_decide (j = 1) then (r.1, Some x) else r) :: rest.
Proof.
  unfold setItem. rewrite <- (Nat.add_0_r (length done)) at 1.
  by rewrite alter_app_r.
Qed.

Lemma setItem_next (done : list (option QTableWidgetItem * option QTableWidgetItem))
    r r' rest j x :
  setItem (done ++ r :: r' :: rest) (length done + 1) j x
  = done ++ r :: (if bool_decide (j = 0) then (Some x, r'.2)
                  else if bool_decide (j = 1) then (r'.1, Some x) else r') :: rest.
Proof.
  change (done ++ r :: r' :: rest) with (done ++ [r] ++ r' :: rest).
  rewrite app_assoc.
  replace (length done + 1) with (length (done ++ [r])) by by rewrite length_app.
  rewrite setItem_here. by rewrite <- app_assoc.
Qed.

(** The loop of [init_table], from the item number [length done] on. *)
Lemma init_table_loop done X (l : list (string * string)) :
  foldl (λ t ikv,
           let '(i, (k, v)) := ikv in
           let item := if bool_decide (i ≤ 2) then mkItem k false else mkItem k true in
           let t := setItem t i 0 item in
           let t := setItem t i 1 (mkItem v true) in
           let t := setItem t (i + 1) 0 (mkItem "" true) in
           setItem t (i + 1) 1 (mkItem "" true))
        (done ++ X :: replicate (length l) (None, None))
        (zip (seq (length done) (length l)) l)
  = done ++ imap (λ i, table_row (length done + i)) l
         ++ [match l with [] => X | _ => empty_row end].
Proof.
  revert done X. induction l as [|[k v] l IH]; intros done X.
  - done.
  - cbn [length seq zip zip_with foldl replicate].
    rewrite !setItem_here. cbn [fst snd].
    rewrite (bool_decide_eq_true_2 (0 = 0)) by done.
    rewrite (bool_decide_eq_false_2 (1 = 0)) by done.
    rewrite (bool_decide_eq_true_2 (1 = 1)) by done.
    rewrite !setItem_next. cbn [fst snd].
    rewrite (bool_decide_eq_true_2 (0 = 0)) by done.
    rewrite (bool_decide_eq_false_2 (1 = 0)) by done.
    rewrite (bool_decide_eq_true_2 (1 = 1)) by done.
    cbn [fst snd]. fold empty_row.
    set (row := (Some (if bool_decide (length done ≤ 2) then mkItem k false
                       else mkItem k true), Some (mkItem v true))).
    change (done ++ row :: empty_row :: replicate (length l) (None, None))
      with (done ++ [row] ++ empty_row :: replicate (length l) (None, None)).
    rewrite (app_assoc done [row]).
    replace (S (length done)) with (length (done ++ [row]))
      by (rewrite length_app; cbn; lia).
    rewrite IH. rewrite <- !app_assoc. f_equal.
    rewrite imap_cons. cbn [app]. f_equal.
    + unfold table_row, row. by rewrite Nat.add_0_r.
    + f_equal.
      * apply imap_ext. intros i x _. cbn [compose]. f_equal.
        rewrite length_app. cbn. lia.
      * by destruct l.
Qed.

Lemma dict_get_None k (d : list (string * string)) : k ∉ d.*1 → dict_get k d = None.
Proof.
  induction d as [|[k' v] d IH]; [done|]. cbn [fmap list_fmap fst dict_get].
  rewrite not_elem_of_cons. intros [Hne Hd].
  rewrite bool_decide_eq_false_2 by done. by apply IH.
Qed.

Lemma dict_set_absent k v (d : list (string * string)) :
  k ∉ d.*1 → dict_set k v d = d ++ [(k, v)].
Proof.
  induction d as [|[k' v'] d IH]; [done|]. cbn [fmap list_fmap fst dict_set].
  rewrite not_elem_of_cons. intros [Hne Hd].
  rewrite bool_decide_eq_false_2 by done. cbn [app]. f_equal. by apply IH.
Qed.

Lemma dict_set_present k v (d : list (string * string)) :
  NoDup d.*1 → k ∈ d.*1 →
  dict_set k v d = (λ kv, if bool_decide (kv.1 = k) then (k, v) else kv) <$> d.
Proof.
  induction d as [|[k' v'] d IH]; intros Hnd Hk.
  - by apply not_elem_of_nil in Hk.
  - cbn [fmap list_fmap fst] in Hnd, Hk. apply NoDup_cons in Hnd as [Hk' Hnd].
    cbn [dict_set fmap list_fmap fst]. case_bool_decide as E.
    + subst k'. f_equal. symmetry. rewrite <- (list_fmap_id d) at 2.
      apply list_fmap_ext. intros i [k0 v0] Hi. cbn [fst id].
      rewrite bool_decide_eq_false_2; [done|]. intros ->. apply Hk'.
      apply list_elem_of_fmap. exists (k, v0). split; [done|].
      by eapply list_elem_of_lookup_2.
    + f_equal. apply IH; [done|]. apply elem_of_cons in Hk as [->|Hk]; done.
Qed.

(** [d.update(e)] for dictionaries given by items with distinct keys:
    the keys of [d] keep their places and take the values [e] has for
    them, the other items of [e] follow. *)
Lemma dict_update_spec (d e : list (string * string)) :
  NoDup d.*1 → NoDup e.*1 →
  dict_update d e
  = ((λ kv, (kv.1, default kv.2 (dict_get kv.1 e))) <$> d)
    ++ filter (λ kv, kv.1 ∉ d.*1) e.
Proof.
  unfold dict_update. revert d. induction e as [|[k v] e IH]; intros d Hd He.
  - cbn [foldl dict_get default from_option filter list_filter].
    rewrite app_nil_r. rewrite <- (list_fmap_id d) at 1.
    apply list_fmap_ext. by intros i [k v] _.
  - cbn [fmap list_fmap fst] in He. apply NoDup_cons in He as [Hk He].
    cbn [foldl fst snd].
    destruct (decide (k ∈ d.*1)) as [Hin|Hout].
    + rewrite (dict_set_present k v d Hd Hin).
      assert (Hkeys : ((λ kv : string * string,
                 if bool_decide (kv.1 = k) then (k, v) else kv) <$> d).*1 = d.*1).
      { rewrite <- list_fmap_compose. apply list_fmap_ext.
        intros i [k0 v0] _. cbn. by case_bool_decide. }
      rewrite IH by (by rewrite ?Hkeys). rewrite Hkeys.
      rewrite filter_cons_False by (cbn; tauto).
      f_equal. rewrite <- list_fmap_compose. apply list_fmap_ext.
      intros i [k0 v0] _. cbn [compose fst snd dict_get].
      destruct (decide (k0 = k)) as [->|Hne].
      * rewrite !bool_decide_eq_true_2 by done. cbn [fst snd].
        by rewrite (dict_get_None k e Hk).
      * rewrite (bool_decide_eq_false_2 (k0 = k)) by done.
        by rewrite (bool_decide_eq_false_2 (k = k0)) by done.
    + rewrite (dict_set_absent k v d Hout).
      rewrite IH.
      2:{ rewrite fmap_app. apply NoDup_app. split_and!; [done| |apply NoDup_singleton].
          intros x Hx ->%list_elem_of_singleton. done. }
      2:{ done. }
      rewrite fmap_app. cbn [fmap list_fmap fst snd].
      rewrite (dict_get_None k e Hk). cbn [default from_option id].
      rewrite filter_cons_True by done.
      rewrite <- app_assoc. cbn [app]. f_equal.
      * apply list_fmap_ext. intros i [k0 v0] Hi. cbn [fst snd dict_get].
        rewrite bool_decide_eq_false_2; [done|]. intros ->. apply Hout.
        apply list_elem_of_fmap. exists (k0, v0). split; [done|].
        by eapply list_elem_of_lookup_2.
      * f_equal. apply filter_ext_in. intros [k0 v0] Hx. cbn [fst].
        rewrite fmap_app, elem_of_app. cbn. rewrite list_elem_of_singleton.
        split; [tauto|]. intros H [Hd'|Heq]; [done|]. subst k0. apply Hk.
        apply list_elem_of_fmap. by exists (k, v0).
Qed.

Lemma init_table_spec (nodeData : list (string * string)) :
  init_table (replicate (length nodeData + 1) (None, None)) nodeData
  = imap table_row nodeData
    ++ [match nodeData with [] => (None, None) | _ => empty_row end].
Proof.
  rewrite Nat.add_1_r. apply (init_table_loop [] (None, None) nodeData).
Qed.

(** The table a new editor shows for a node whose data have distinct
    keys: the head rows, with the values the data give for "name",
    "color" and "textcolor" if they have such keys; a row for every
    other item of the data; an empty row. *)
Lemma TableNode_init_table h n :
  NoDup (_data (node_at h n)).*1 →
  let self := node_at h n in
  table (TableNode_init h n)
  = head_rows (mkItem (default (_name self) (dict_get "name" (_data self))) true)
              (mkItem (default (_color self) (dict_get "color" (_data self))) true)
              (mkItem (default (_textcolor self) (dict_get "textcolor" (_data self))) true)
    ++ (data_row <$> filter (λ kv, ¬ reserved kv.1) (_data self))
    ++ [empty_row].
Proof.
  intros Hnd. cbv zeta. unfold TableNode_init. cbn [table].
  rewrite (bool_decide_eq_true_2 (length [] = 0)) by done.
  rewrite init_table_spec.
  rewrite dict_update_spec; [|by apply (bool_decide_unpack _)|done].
  cbn [fmap list_fmap fst snd app].
  rewrite (filter_ext_in _ (λ kv, ¬ reserved kv.1)).
  2:{ intros [k v] _. cbn [fst]. unfold reserved.
      rewrite !elem_of_cons, elem_of_nil. tauto. }
  rewrite !imap_cons. cbn [compose]. unfold table_row at 1 2 3.
  cbn [fst snd].
  rewrite !bool_decide_eq_true_2 by lia.
  unfold head_rows. cbn [app]. do 4 f_equal.
  rewrite <- (imap_const data_row). apply imap_ext.
  intros i x _. cbn [compose const]. unfold table_row, data_row.
  by rewrite bool_decide_eq_false_2 by lia.
Qed.

Lemma data_rows_app rest1 rest2 d :
  data_rows (rest1 ++ rest2) d = data_rows rest2 (data_rows rest1 d).
Proof. apply foldl_app. Qed.

(** Rows written from items with distinct new keys add those items, the
    one with the empty key apart. *)
Lemma data_rows_fresh (l d : list (string * string)) :
  NoDup l.*1 → (∀ k, k ∈ l.*1 → k ∉ d.*1) →
  data_rows (data_row <$> l) d = d ++ filter (λ kv, kv.1 ≠ "") l.
Proof.
  revert d. induction l as [|[k v] l IH]; intros d Hnd Hd.
  - cbn. by rewrite app_nil_r.
  - cbn [fmap list_fmap fst] in Hnd, Hd. apply NoDup_cons in Hnd as [Hk Hnd].
    change (data_rows (data_row <$> (k, v) :: l) d)
      with (data_rows (data_row <$> l)
              (if bool_decide (k ≠ "") then dict_set k v d else d)).
    case_bool_decide as E.
    + rewrite dict_set_absent by (apply Hd; by left).
      rewrite IH; [|done|].
      * rewrite filter_cons_True by done. by rewrite <- app_assoc.
      * intros k' Hk'. rewrite fmap_app, elem_of_app. cbn.
        rewrite list_elem_of_singleton. intros [H| ->]; [|done].
        revert H. apply Hd. by right.
    + rewrite filter_cons_False by (cbn; tauto). apply IH; [done|].
      intros k' Hk'. apply Hd. by right.
Qed.

Lemma NoDup_keys_filter (P : string * string → Prop) `{∀ x, Decision (P x)}
    (d : list (string * string)) :
  NoDup d.*1 → NoDup (filter P d).*1.
Proof.
  induction d as [|kv d IH]; [done|]. cbn [fmap list_fmap].
  intros [Hk Hnd]%NoDup_cons. destruct (decide (P kv)).
  - rewrite filter_cons_True by done. cbn [fmap list_fmap].
    apply NoDup_cons. split; [|by apply IH].
    intros Hin. apply Hk. apply list_elem_of_fmap in Hin as (x & -> & Hx).
    apply list_elem_of_filter in Hx as [_ Hx].
    apply list_elem_of_fmap. by exists x.
  - rewrite filter_cons_False by done. by apply IH.
Qed.

Lemma node_at_set_node h i x j :
  i < length (nodes h) →
  node_at (set_node h i x) j = if bool_decide (j = i) then x else node_at h j.
Proof.
  intros Hi. case_bool_decide as E.
  - subst. by apply node_at_set_node_eq.
  - by apply node_at_set_node_ne.
Qed.

(** X17 — a new editor on a node whose data have distinct keys, at the
    first run of [change_celldata] (no cell changed): [reload] returns;
    the items of the data under the keys "name", "color" and
    "textcolor" are taken out of the data and become the name and the
    colors of the node, an item under the empty key is dropped, the
    other items are kept in order; edges, position, the other nodes and
    the edges of the graph are as before.  If the data have none of
    these four keys the graph is unchanged. *)
Theorem editor_first_change h n :
  n < length (nodes h) → NoDup (_data (node_at h n)).*1 →
  let self := node_at h n in
  let r := change_celldata h (TableNode_init h n) in
  r.2 = Reloaded Returned
  ∧ node_at r.1.1 n
    = {| _name := default (_name self) (dict_get "name" (_data self));
         _data := filter (λ kv, kv.1 ≠ "" ∧ ¬ reserved kv.1) (_data self);
         _edges := _edges self;
         _textcolor := default (_textcolor self) (dict_get "textcolor" (_data self));
         _color := default (_color self) (dict_get "color" (_data self));
         _radius := _radius self; pos := pos self |}
  ∧ (∀ i, i ≠ n → node_at r.1.1 i = node_at h i)
  ∧ edges r.1.1 = edges h
  ∧ ((∀ k, k ∈ (_data self).*1 → k ≠ "" ∧ ¬ reserved k) → r.1.1 = h).
Proof.
  intros Hn Hnd. cbv zeta.
  pose proof (TableNode_init_table h n Hnd) as Ht. cbv zeta in Ht.
  rewrite (change_celldata_spec h (TableNode_init h n) _ _ _ _ Ht).
  cbn [fst snd node TableNode_init _nodeData nd_data nd_top text].
  assert (Hdata : data_rows
            ((data_row <$> filter (λ kv, ¬ reserved kv.1) (_data (node_at h n)))
             ++ [empty_row]) []
          = filter (λ kv, kv.1 ≠ "" ∧ ¬ reserved kv.1) (_data (node_at h n))).
  { rewrite data_rows_app, data_rows_fresh.
    - cbn [app data_rows foldl empty_row text].
      rewrite bool_decide_eq_false_2 by (intros H; by apply H).
      apply list_filter_filter.
    - by apply NoDup_keys_filter.
    - intros k _. apply not_elem_of_nil. }
  rewrite Hdata. split_and!.
  - done.
  - by rewrite node_at_set_node_eq.
  - intros i Hi. by rewrite node_at_set_node_ne.
  - done.
  - intros Hk.
    assert (Hget : ∀ k, reserved k → dict_get k (_data (node_at h n)) = None).
    { intros k Hr. apply dict_get_None. intros Hin. by destruct (Hk k Hin). }
    rewrite !Hget by (unfold reserved; tauto). cbn [default from_option id].
    rewrite filter_all.
    2:{ intros [k v] Hin. apply Hk. apply list_elem_of_fmap. by exists (k, v). }
    unfold set_node. destruct h as [ns es]. cbn [nodes edges] in *. f_equal.
    apply list_insert_id. unfold node_at in *. cbn [nodes] in *.
    rewrite list_lookup_total_alt.
    destruct (ns !! n) as [x|] eqn:E.
    + cbn. by destruct x.
    + apply lookup_ge_None in E. lia.
Qed.

Lemma editor_first_change_witness :
  let h := node_with_data in
  let self := node_at h 0 in
  let r := change_celldata h (TableNode_init h 0) in
  r.2 = Reloaded Returned
  ∧ node_at r.1.1 0
    = {| _name := default (_name self) (dict_get "name" (_data self));
         _data := filter (λ kv, kv.1 ≠ "" ∧ ¬ reserved kv.1) (_data self);
         _edges := _edges self;
         _textcolor := default (_textcolor self) (dict_get "textcolor" (_data self));
         _color := default (_color self) (dict_get "color" (_data self));
         _radius := _radius self; pos := pos self |}
  ∧ (∀ i, i ≠ 0 → node_at r.1.1 i = node_at h i)
  ∧ edges r.1.1 = edges h
  ∧ ((∀ k, k ∈ (_data self).*1 → k ≠ "" ∧ ¬ reserved k) → r.1.1 = h).
Proof.
  apply (editor_first_change node_with_data 0).
  - vm_compute. lia.
  - apply (bool_decide_unpack _). vm_compute. exact I.
Defined.

(** [update] leaves the three keys the dictionary starts with at the
    head, whatever the data. *)
Lemma dict_update_head (e extra : list (string * string)) a b c :
  ∃ a' b' c' extra',
    dict_update (("name", a) :: ("color", b) :: ("textcolor", c) :: extra) e
    = ("name", a') :: ("color", b') :: ("textcolor", c') :: extra'.
Proof.
  unfold dict_update. revert extra a b c.
  induction e as [|[k v] e IH]; intros extra a b c.
  - by exists a, b, c, extra.
  - cbn [foldl fst snd dict_set].
    destruct (decide ("name" = k)) as [<-|H1].
    { rewrite bool_decide_eq_true_2 by done. apply IH. }
    rewrite (bool_decide_eq_false_2 ("name" = k)) by done.
    destruct (decide ("color" = k)) as [<-|H2].
    { rewrite bool_decide_eq_true_2 by done. apply IH. }
    rewrite (bool_decide_eq_false_2 ("color" = k)) by done.
    destruct (decide ("textcolor" = k)) as [<-|H3].
    { rewrite bool_decide_eq_true_2 by done. apply IH. }
    rewrite (bool_decide_eq_false_2 ("textcolor" = k)) by done.
    apply IH.
Qed.

Lemma editor_table_init h n : editor_table (table (TableNode_init h n)).
Proof.
  unfold TableNode_init. cbn [table].
  rewrite (bool_decide_eq_true_2 (length [] = 0)) by done.
  rewrite init_table_spec.
  destruct (dict_update_head (_data (node_at h n)) []
              (_name (node_at h n)) (_color (node_at h n))
              (_textcolor (node_at h n))) as (a & b & c & extra & ->).
  rewrite !imap_cons. unfold table_row at 1 2 3. cbn [compose fst snd].
  rewrite !bool_decide_eq_true_2 by lia.
  by eexists _, _, _, _.
Qed.










(** X20 — typing a text into the value cell of the first row renames
    the node: after the run of [change_celldata] the name of the node
    and the title of the editor are that text; the edges and the
    position of the node, the other nodes and the edges of the graph
    are as before. *)
Theorem editor_renames_node h tn s tn' :
  editor_table (table tn) → node tn < length (nodes h) →
  typed tn 0 1 s = Some tn' →
  let r := change_celldata h tn' in
  r.2 = Reloaded Returned
  ∧ _name (node_at r.1.1 (node tn)) = s
  ∧ windowTitle r.1.2 = s
  ∧ _edges (node_at r.1.1 (node tn)) = _edges (node_at h (node tn))
  ∧ pos (node_at r.1.1 (node tn)) = pos (node_at h (node tn))
  ∧ (∀ i, i ≠ node tn → node_at r.1.1 i = node_at h i)
  ∧ edges r.1.1 = edges h.
Proof.
  intros (a & b & c & rest & Ht) Hn Hty. cbv zeta.
  assert (Ht' : table tn' = head_rows (mkItem s true) b c ++ rest
                ∧ node tn' = node tn).
  { revert Hty. unfold typed, table_item. rewrite Ht.
    cbn [head_rows app lookup list_lookup fst snd].
    rewrite (bool_decide_eq_false_2 (1 = 0)) by done.
    rewrite (bool_decide_eq_true_2 (1 = 1)) by done.
    destruct (editable a) eqn:Ea; [|done]. intros [= <-]. cbn [table node].
    unfold setItem. cbn [alter list_alter fst snd]. done. }
  destruct Ht' as [Ht' Hn'].
  rewrite (change_celldata_spec h tn' _ _ _ _ Ht'). cbn [fst snd windowTitle text].
  rewrite Hn'. rewrite !node_at_set_node_eq by done. cbn [_name _edges pos].
  split_and!; try done.
  intros i Hi. by rewrite node_at_set_node_ne.
Qed.

Lemma editor_renames_node_witness :
  let h := node_with_data in
  let tn := TableNode_init h 1 in
  let tn' := default tn (typed tn 0 1 "n3") in
  let r := change_celldata h tn' in
  r.2 = Reloaded Returned
  ∧ _name (node_at r.1.1 (node tn)) = "n3"
  ∧ windowTitle r.1.2 = "n3"
  ∧ _edges (node_at r.1.1 (node tn)) = _edges (node_at h (node tn))
  ∧ pos (node_at r.1.1 (node tn)) = pos (node_at h (node tn))
  ∧ (∀ i, i ≠ node tn → node_at r.1.1 i = node_at h i)
  ∧ edges r.1.1 = edges h.
Proof.
  apply (editor_renames_node node_with_data (TableNode_init node_with_data 1) "n3").
  - apply editor_table_init.
  - vm_compute. lia.
  - reflexivity.
Defined.

Lemma data_rows_blank rest r d :
  blank_row r → data_rows (rest ++ [r]) d = data_rows rest d.
Proof.
  intros Hr. rewrite data_rows_app. cbn [data_rows foldl].
  destruct r as [[k|] [v|]]; try done. cbn in Hr.
  by rewrite bool_decide_eq_false_2 by (intros H; by apply H).
Qed.

(** X21 — a click on an item of the last row appends a row with two
    empty items, a click elsewhere changes nothing; and a row appended
    at the end of the table of an editor whose key is empty or which
    has a cell without item (as the new row has, and has while it is
    being filled) is passed over by [change_celldata]: the graph and
    the dictionary of the editor come out as without that row. *)
Theorem append_row_is_passed_over h tn row r :
  editor_table (table tn) → blank_row r →
  table (append_row tn row)
  = (if bool_decide (row + 1 = length (table tn))
     then table tn ++ [empty_row] else table tn)
  ∧ (change_celldata h (set_table tn (table tn ++ [r]))).1.1
    = (change_celldata h tn).1.1
  ∧ _nodeData (change_celldata h (set_table tn (table tn ++ [r]))).1.2
    = _nodeData (change_celldata h tn).1.2
  ∧ (change_celldata h (append_row tn row)).1.1 = (change_celldata h tn).1.1.
Proof.
  intros (a & b & c & rest & Ht) Hr.
  assert (Hpass : ∀ r0, blank_row r0 →
    (change_celldata h (set_table tn (table tn ++ [r0]))).1.1
      = (change_celldata h tn).1.1
    ∧ _nodeData (change_celldata h (set_table tn (table tn ++ [r0]))).1.2
      = _nodeData (change_celldata h tn).1.2).
  { intros r0 Hr0.
    assert (Ht' : table (set_table tn (table tn ++ [r0]))
                  = head_rows a b c ++ (rest ++ [r0])).
    { cbn [set_table table]. by rewrite Ht, app_assoc. }
    rewrite (change_celldata_spec h _ a b c _ Ht').
    rewrite (change_celldata_spec h tn a b c rest Ht).
    cbn [fst snd set_table node _nodeData]. by rewrite data_rows_blank. }
  assert (Happ : table (append_row tn row)
    = (if bool_decide (row + 1 = length (table tn))
       then table tn ++ [empty_row] else table tn)).
  { unfold append_row. case_bool_decide; [|done]. cbn [table].
    rewrite !setItem_here. cbn [fst snd].
    rewrite (bool_decide_eq_true_2 (0 = 0)) by done.
    rewrite (bool_decide_eq_false_2 (1 = 0)) by done.
    by rewrite (bool_decide_eq_true_2 (1 = 1)) by done. }
  split_and!; [done|by apply Hpass..|].
  destruct (decide (row + 1 = length (table tn))) as [E|E].
  - rewrite <- (proj1 (Hpass empty_row eq_refl)). f_equal. f_equal.
    unfold append_row in *. rewrite bool_decide_eq_true_2 in * by done.
    cbn [table] in Happ. unfold set_table. by rewrite Happ.
  - unfold append_row. by rewrite bool_decide_eq_false_2 by done.
Qed.

Lemma append_row_is_passed_over_witness :
  let h := node_with_data in
  let tn := TableNode_init h 0 in
  let r := (Some (mkItem "" true), None) in
  table (append_row tn 5)
  = (if bool_decide (5 + 1 = length (table tn))
     then table tn ++ [empty_row] else table tn)
  ∧ (change_celldata h (set_table tn (table tn ++ [r]))).1.1
    = (change_celldata h tn).1.1
  ∧ _nodeData (change_celldata h (set_table tn (table tn ++ [r]))).1.2
    = _nodeData (change_celldata h tn).1.2
  ∧ (change_celldata h (append_row tn 5)).1.1 = (change_celldata h tn).1.1.
Proof.
  apply (append_row_is_passed_over node_with_data (TableNode_init node_with_data 0) 5
           (Some (mkItem "" true), None)).
  - apply editor_table_init.
  - exact I.
Defined.
